(** * tscg: the code-flow graph builder of [src/graph.ts]

    A shallow embedding of the [CodeFlowGraph] class: the node and edge
    registries ([addNodeIsNew], [addEdgeIsNew]), the recursive builder
    ([process...]) and the part of the serializer ([nodesToJSON],
    [edgesToJSON]) that reads the registries.  The [ts-morph] project is
    the external source model; it is an explicit record of query functions
    over opaque node handles. *)

From Stdlib Require Import List Arith Bool Lia String PeanoNat.
Import ListNotations.

Set Implicit Arguments.

(** ** The source model (the [ts-morph] API used by the builder) *)

(** A [ts-morph] node is an object compared by identity: a handle. *)
Definition Node := nat.
Definition SourceFile := nat.

(** The syntax kinds the builder tests for, a few more that occur in the
    analysed files, and one for everything else. *)
Inductive SyntaxKind : Set :=
| VariableDeclaration
| FunctionDeclaration
| MethodDeclaration
| ClassDeclaration
| CallExpression
| Identifier
| ArrowFunction
| FunctionExpression
| PropertyAccessExpression
| NewExpression
| ParameterDeclaration
| OtherKind.

Definition SyntaxKind_eqb (a b : SyntaxKind) : bool :=
  match a, b with
  | VariableDeclaration, VariableDeclaration
  | FunctionDeclaration, FunctionDeclaration
  | MethodDeclaration, MethodDeclaration
  | ClassDeclaration, ClassDeclaration
  | CallExpression, CallExpression
  | Identifier, Identifier
  | ArrowFunction, ArrowFunction
  | FunctionExpression, FunctionExpression
  | PropertyAccessExpression, PropertyAccessExpression
  | NewExpression, NewExpression
  | ParameterDeclaration, ParameterDeclaration
  | OtherKind, OtherKind => true
  | _, _ => false
  end.

(** Every query the class makes on the project.  The [...OrThrow] queries
    answer [None] where [ts-morph] throws. *)
Record SourceModel : Type := {
  getSourceFiles : list SourceFile;
  getVariableDeclarations : SourceFile -> list Node;
  getFunctions : SourceFile -> list Node;
  getClasses : SourceFile -> list Node;
  getMethods : Node -> list Node;
  getVariableStatement : Node -> option Node;
  getDeclarations : Node -> list Node;
  getKind : Node -> SyntaxKind;
  isExported : Node -> bool;
  getInitializer : Node -> option Node;
  getBody : Node -> option Node;
  (** [getDescendantsOfKind(SyntaxKind.CallExpression)] *)
  getDescendantCalls : Node -> list Node;
  (** [findReferences()]: the referenced symbols, each with the nodes of
      its references ([getReferences()] then [getNode()]). *)
  findReferences : Node -> list (list Node);
  getParent : Node -> option Node;
  getExpression : Node -> Node;
  getDefinitionNodes : Node -> list Node;
  getArguments : Node -> list Node;
  (** [getSymbolOrThrow().getName()] *)
  getSymbolName : Node -> option string;
  (** the location string and [getText()] of the serializer *)
  getLocation : Node -> string;
  getText : Node -> string
}.

(** ** The data model *)

Inductive NodeType : Set := Function | Call | Argument | Object | Any.

Inductive EdgeType : Set := Child | ArgumentEdge | CallEdge.

Definition NodeType_eqb (a b : NodeType) : bool :=
  match a, b with
  | Function, Function | Call, Call | Argument, Argument
  | Object, Object | Any, Any => true
  | _, _ => false
  end.

Definition EdgeType_eqb (a b : EdgeType) : bool :=
  match a, b with
  | Child, Child | ArgumentEdge, ArgumentEdge | CallEdge, CallEdge => true
  | _, _ => false
  end.

Definition nodeTypeToString (t : NodeType) : string :=
  match t with
  | Function => "Function"
  | Call => "Call"
  | Argument => "Argument"
  | Object => "Object"
  | Any => "Any"
  end.

Definition edgeTypeToString (t : EdgeType) : string :=
  match t with
  | Child => "Child"
  | ArgumentEdge => "Argument"
  | CallEdge => "Call"
  end.

(** A [NodeInfo] object is created by [addNodeIsNew] only, which stores it
    in [nodes] under its id at once; a reference to a [NodeInfo] is
    modelled by that id.  An [EdgeInfo] is never mutated: it is a value. *)
Definition NodeRef := nat.

Record EdgeInfo : Set := {
  edge_source : NodeRef;
  edge_destination : NodeRef;
  edge_id : nat;
  edge_type : EdgeType
}.

Record NodeInfo : Set := {
  node_node : Node;
  incoming : list EdgeInfo;
  outgoing : list EdgeInfo;
  node_id : nat;
  node_type : NodeType
}.

Definition addIncoming (edge : EdgeInfo) (n : NodeInfo) : NodeInfo :=
  {| node_node := node_node n; incoming := incoming n ++ [edge];
     outgoing := outgoing n; node_id := node_id n; node_type := node_type n |}.

Definition addOutgoing (edge : EdgeInfo) (n : NodeInfo) : NodeInfo :=
  {| node_node := node_node n; incoming := incoming n;
     outgoing := outgoing n ++ [edge]; node_id := node_id n;
     node_type := node_type n |}.

(** ** JavaScript [Map]s with number (or handle) keys: association lists in
    insertion order, [set] overwriting in place. *)

Section NatMap.
Variable V : Type.

Fixpoint map_get (k : nat) (m : list (nat * V)) : option V :=
  match m with
  | [] => None
  | (k', v) :: m' => if Nat.eqb k k' then Some v else map_get k m'
  end.

Fixpoint map_set (k : nat) (v : V) (m : list (nat * V)) : list (nat * V) :=
  match m with
  | [] => [(k, v)]
  | (k', v') :: m' =>
      if Nat.eqb k k' then (k, v) :: m' else (k', v') :: map_set k v m'
  end.

(** [m.get(k)?.f()] where [f] mutates the object found. *)
Fixpoint map_update (k : nat) (f : V -> V) (m : list (nat * V)) : list (nat * V) :=
  match m with
  | [] => []
  | (k', v) :: m' =>
      if Nat.eqb k k' then (k', f v) :: m' else (k', v) :: map_update k f m'
  end.
End NatMap.

(** A [Map] compares object keys by identity, and [edgeInfo] is keyed by
    arrays.  A key array is modelled by its address; an array literal
    evaluates to a new object, whose address is none of the addresses in
    use, in particular none of the keys already in the map. *)
Definition ArrayRef := nat.

Definition new_array (V : Type) (m : list (ArrayRef * V)) : ArrayRef :=
  S (list_max (map fst m)).

Record CodeFlowGraph : Set := {
  nodes : list (nat * NodeInfo);
  nodeToInfo : list (Node * NodeRef);
  edges : list (nat * EdgeInfo);
  edgeInfo : list (ArrayRef * EdgeInfo);
  NEXT_NODE_ID : nat;
  NEXT_EDGE_ID : nat
}.

Definition CodeFlowGraph_new : CodeFlowGraph :=
  {| nodes := []; nodeToInfo := []; edges := []; edgeInfo := [];
     NEXT_NODE_ID := 0; NEXT_EDGE_ID := 0 |}.

(** ** The registries *)

Definition addNodeIsNew (node : Node) (type : NodeType) (g : CodeFlowGraph)
  : NodeRef * bool * CodeFlowGraph :=
  match map_get node (nodeToInfo g) with
  | Some maybeNode => (maybeNode, false, g)
  | None =>
      let nodeInfo :=
        {| node_node := node; incoming := []; outgoing := [];
           node_id := NEXT_NODE_ID g; node_type := type |} in
      (NEXT_NODE_ID g, true,
       {| nodes := map_set (NEXT_NODE_ID g) nodeInfo (nodes g);
          nodeToInfo := map_set node (NEXT_NODE_ID g) (nodeToInfo g);
          edges := edges g;
          edgeInfo := edgeInfo g;
          NEXT_NODE_ID := S (NEXT_NODE_ID g);
          NEXT_EDGE_ID := NEXT_EDGE_ID g |})
  end.

Definition addNode (node : Node) (type : NodeType) (g : CodeFlowGraph)
  : NodeRef * CodeFlowGraph :=
  let '(n, _, g') := addNodeIsNew node type g in (n, g').

(** [source] and [destination] are [NodeInfo] references; the code reads
    their [id] field, which is the reference itself.  The lookup key
    [[source.id, destination.id]] is an array literal.  Nothing in the
    class calls [edgeInfo.set]. *)
Definition addEdgeIsNew (source destination : NodeRef) (type : EdgeType)
  (g : CodeFlowGraph) : EdgeInfo * bool * CodeFlowGraph :=
  let key := new_array (edgeInfo g) in
  match map_get key (edgeInfo g) with
  | Some maybeEdge => (maybeEdge, false, g)
  | None =>
      let edgeInfo' :=
        {| edge_source := source; edge_destination := destination;
           edge_id := NEXT_EDGE_ID g; edge_type := type |} in
      (edgeInfo', true,
       {| nodes :=
            map_update destination (addIncoming edgeInfo')
              (map_update source (addOutgoing edgeInfo') (nodes g));
          nodeToInfo := nodeToInfo g;
          edges := map_set (NEXT_EDGE_ID g) edgeInfo' (edges g);
          edgeInfo := edgeInfo g;
          NEXT_NODE_ID := NEXT_NODE_ID g;
          NEXT_EDGE_ID := S (NEXT_EDGE_ID g) |})
  end.

Definition addEdge (source destination : NodeRef) (type : EdgeType)
  (g : CodeFlowGraph) : CodeFlowGraph :=
  snd (addEdgeIsNew source destination type g).

(** [n.outgoing] for a [NodeInfo] reference [n]. *)
Definition outgoing_of (n : NodeRef) (g : CodeFlowGraph) : list EdgeInfo :=
  match map_get n (nodes g) with
  | Some info => outgoing info
  | None => []
  end.

Definition incoming_of (n : NodeRef) (g : CodeFlowGraph) : list EdgeInfo :=
  match map_get n (nodes g) with
  | Some info => incoming info
  | None => []
  end.

Definition type_of (n : NodeRef) (g : CodeFlowGraph) : option NodeType :=
  option_map node_type (map_get n (nodes g)).

(** ** Results of a build

    A build returns, throws (a failed [...OrThrow], a property read on
    [undefined], the serializer's integrity check), or does not return. *)

Inductive Error : Set :=
| StructuralError   (* a [...OrThrow] query found nothing *)
| TypeError         (* a property of [undefined] was read *)
| IntegrityError.   (* "cannot have argument edges in non-Call nodes" *)

Inductive Result (A : Type) : Type :=
| Ok (a : A)
| Throw (e : Error)
| OutOfFuel.

Arguments Ok {A} a.
Arguments Throw {A} e.
Arguments OutOfFuel {A}.

Definition bind {A B : Type} (m : Result A) (k : A -> Result B) : Result B :=
  match m with
  | Ok a => k a
  | Throw e => Throw e
  | OutOfFuel => OutOfFuel
  end.

Notation "x <- m ;; k" := (bind m (fun x => k))
  (at level 61, m at next level, right associativity).
Notation "' p <- m ;; k" := (bind m (fun x => let 'p := x in k))
  (at level 61, p pattern, m at next level, right associativity).

Definition orThrow {A : Type} (o : option A) : Result A :=
  match o with
  | Some a => Ok a
  | None => Throw StructuralError
  end.

(** [for (const x of l) body] over an array that the body does not touch. *)
Fixpoint forEach {A S : Type} (l : list A) (body : A -> S -> Result S) (s : S)
  : Result S :=
  match l with
  | [] => Ok s
  | x :: l' => s' <- body x s ;; forEach l' body s'
  end.

(** ** The graph builder *)

Section Builder.
Variable sm : SourceModel.

(** [for (const edge of definitionInfo.outgoing) this.addEdge(source,
    edge.destination, EdgeType.Child)].  The array iterated is the live
    [outgoing] array of a node of the graph, which [addEdge] may extend:
    the iterator reads index [i] of the array as it is at each step. *)
Fixpoint spliceOutgoing (fuel : nat) (i : nat) (source definitionInfo : NodeRef)
  (g : CodeFlowGraph) : Result CodeFlowGraph :=
  match fuel with
  | 0 => OutOfFuel
  | S fuel' =>
      match nth_error (outgoing_of definitionInfo g) i with
      | None => Ok g
      | Some edge =>
          spliceOutgoing fuel' (S i) source definitionInfo
            (addEdge source (edge_destination edge) Child g)
      end
  end.

Fixpoint processCallExpression (fuel : nat) (call : Node) (g : CodeFlowGraph)
  {struct fuel} : Result (NodeRef * CodeFlowGraph) :=
  match fuel with
  | 0 => OutOfFuel
  | S fuel' =>
      let '(source, isNew, g) := addNodeIsNew call Call g in
      if negb isNew then Ok (source, g) else
      let expression := getExpression sm call in
      g <- (if SyntaxKind_eqb (getKind sm expression) Identifier then
              forEach (getDefinitionNodes sm expression)
                (fun definition g =>
                   '(definitionInfo, g) <- processDefinition fuel' definition g ;;
                   match definitionInfo with
                   | None => Throw TypeError
                   | Some definitionInfo =>
                       spliceOutgoing fuel' 0 source definitionInfo g
                   end) g
            else Ok g) ;;
      g <- forEach (getArguments sm call)
             (fun arg g =>
                '(argInfo, g) <- processArgument fuel' arg g ;;
                Ok (addEdge source argInfo ArgumentEdge g)) g ;;
      Ok (source, g)
  end

with processDefinition (fuel : nat) (definition : Node) (g : CodeFlowGraph)
  {struct fuel} : Result (option NodeRef * CodeFlowGraph) :=
  match fuel with
  | 0 => OutOfFuel
  | S fuel' =>
      if SyntaxKind_eqb (getKind sm definition) VariableDeclaration then
        processVariableDeclaration fuel' definition true g
      else if SyntaxKind_eqb (getKind sm definition) FunctionDeclaration then
        '(source, g) <- processFunctionDeclaration fuel' definition g ;;
        Ok (Some source, g)
      else
        let '(source, g) := addNode definition Any g in
        Ok (Some source, g)
  end

with processVariableDeclaration (fuel : nat) (declaration : Node)
  (export_only : bool) (g : CodeFlowGraph)
  {struct fuel} : Result (option NodeRef * CodeFlowGraph) :=
  match fuel with
  | 0 => OutOfFuel
  | S fuel' =>
      if export_only && negb (isExported sm declaration) then Ok (None, g) else
      init <- orThrow (getInitializer sm declaration) ;;
      let functionLike :=
        SyntaxKind_eqb (getKind sm init) ArrowFunction
        || SyntaxKind_eqb (getKind sm init) FunctionExpression in
      let '(source, isNew, g) :=
        addNodeIsNew declaration (if functionLike then Function else Object) g in
      if negb isNew then Ok (Some source, g) else
      if functionLike then
        match getBody sm init with
        | None => Throw TypeError
        | Some body =>
            g <- forEach (getDescendantCalls sm body)
                   (fun call g =>
                      '(callInfo, g) <- processCallExpression fuel' call g ;;
                      Ok (addEdge source callInfo Child g)) g ;;
            Ok (Some source, g)
        end
      else
        g <- forEach (findReferences sm declaration)
               (fun ref g =>
                  forEach ref
                    (fun reference g =>
                       temp <- orThrow (getParent sm reference) ;;
                       call <- orThrow (getParent sm temp) ;;
                       if SyntaxKind_eqb (getKind sm call) CallExpression
                          && Nat.eqb (getExpression sm call) temp
                       then
                         '(callInfo, g) <- processCallExpression fuel' call g ;;
                         Ok (addEdge source callInfo CallEdge g)
                       else Ok g) g) g ;;
        Ok (Some source, g)
  end

with processFunctionDeclaration (fuel : nat) (func : Node) (g : CodeFlowGraph)
  {struct fuel} : Result (NodeRef * CodeFlowGraph) :=
  match fuel with
  | 0 => OutOfFuel
  | S fuel' =>
      let '(source, isNew, g) := addNodeIsNew func Function g in
      if negb isNew then Ok (source, g) else
      body <- orThrow (getBody sm func) ;;
      g <- forEach (getDescendantCalls sm body)
             (fun call g =>
                '(callInfo, g) <- processCallExpression fuel' call g ;;
                Ok (addEdge source callInfo Child g)) g ;;
      Ok (source, g)
  end

with processArgument (fuel : nat) (node : Node) (g : CodeFlowGraph)
  {struct fuel} : Result (NodeRef * CodeFlowGraph) :=
  match fuel with
  | 0 => OutOfFuel
  | S fuel' =>
      let '(source, isNew, g) := addNodeIsNew node Argument g in
      if negb isNew then Ok (source, g) else
      g <- forEach (getDescendantCalls sm node)
             (fun call g =>
                '(callInfo, g) <- processCallExpression fuel' call g ;;
                Ok (addEdge source callInfo Child g)) g ;;
      Ok (source, g)
  end.

Definition processMethodDeclaration (fuel : nat) (method : Node)
  (g : CodeFlowGraph) : Result (NodeRef * CodeFlowGraph) :=
  match fuel with
  | 0 => OutOfFuel
  | S fuel' =>
      let '(source, isNew, g) := addNodeIsNew method Function g in
      if negb isNew then Ok (source, g) else
      body <- orThrow (getBody sm method) ;;
      g <- forEach (getDescendantCalls sm body)
             (fun call g =>
                '(callInfo, g) <- processCallExpression fuel' call g ;;
                Ok (addEdge source callInfo Child g)) g ;;
      Ok (source, g)
  end.

Definition processClass (fuel : nat) (class_ : Node) (g : CodeFlowGraph)
  : Result CodeFlowGraph :=
  forEach (getMethods sm class_)
    (fun method g => '(_, g) <- processMethodDeclaration fuel method g ;; Ok g) g.

Definition processClasses (fuel : nat) (sourceFile : SourceFile)
  (g : CodeFlowGraph) : Result CodeFlowGraph :=
  forEach (getClasses sm sourceFile) (processClass fuel) g.

Definition processFunctions (fuel : nat) (sourceFile : SourceFile)
  (g : CodeFlowGraph) : Result CodeFlowGraph :=
  forEach (getFunctions sm sourceFile)
    (fun func g => '(_, g) <- processFunctionDeclaration fuel func g ;; Ok g) g.

(** [if (!declarations) continue] never fires: an array is truthy. *)
Definition processVariables (fuel : nat) (sourceFile : SourceFile)
  (g : CodeFlowGraph) : Result CodeFlowGraph :=
  forEach (getVariableDeclarations sm sourceFile)
    (fun variable g =>
       statement <- orThrow (getVariableStatement sm variable) ;;
       forEach (getDeclarations sm statement)
         (fun declaration g =>
            '(_, g) <- processVariableDeclaration fuel declaration true g ;;
            Ok g) g) g.

Definition initialize (fuel : nat) (g : CodeFlowGraph) : Result CodeFlowGraph :=
  forEach (getSourceFiles sm)
    (fun sourceFile g =>
       g <- processVariables fuel sourceFile g ;;
       g <- processFunctions fuel sourceFile g ;;
       processClasses fuel sourceFile g) g.
End Builder.

(** ** The serializer *)

Inductive NodeData : Set :=
| DataName (name : string)
| DataArgs (args : list nat)
| DataEmpty.

Record NodeJSON : Set := {
  json_id : nat;
  json_class : string;
  json_location : string;
  json_raw_source : string;
  json_incoming : list nat;
  json_outgoing : list nat;
  json_node_data : NodeData
}.

Record EdgeJSON : Set := {
  json_edge_id : nat;
  json_edge_type : string;
  json_source_node_id : nat;
  json_destination_node_id : nat;
  json_label : string
}.

(** The [filter] callback of the ["outgoing"] field: it throws on an
    [Argument] edge of a node that is not a [Call], and keeps the edges
    that are not [Argument] edges. *)
Fixpoint filterOutgoing (type : NodeType) (l : list EdgeInfo)
  : Result (list EdgeInfo) :=
  match l with
  | [] => Ok []
  | edge :: l' =>
      if EdgeType_eqb (edge_type edge) ArgumentEdge && negb (NodeType_eqb type Call)
      then Throw IntegrityError
      else
        rest <- filterOutgoing type l' ;;
        Ok (if negb (EdgeType_eqb (edge_type edge) ArgumentEdge)
            then edge :: rest else rest)
  end.

Section Serializer.
Variable sm : SourceModel.

Definition nodeToJSON (nodeInfo : NodeInfo) : Result NodeJSON :=
  nodeData <-
    match node_type nodeInfo with
    | Function =>
        name <- orThrow (getSymbolName sm (node_node nodeInfo)) ;;
        Ok (DataName name)
    | Call =>
        Ok (DataArgs
              (map edge_id
                 (filter (fun edge => EdgeType_eqb (edge_type edge) ArgumentEdge)
                    (outgoing nodeInfo))))
    | Argument => Ok DataEmpty
    | Object =>
        name <- orThrow (getSymbolName sm (node_node nodeInfo)) ;;
        Ok (DataName name)
    | Any => Ok DataEmpty
    end ;;
  out <- filterOutgoing (node_type nodeInfo) (outgoing nodeInfo) ;;
  Ok {| json_id := node_id nodeInfo;
        json_class := nodeTypeToString (node_type nodeInfo);
        json_location := getLocation sm (node_node nodeInfo);
        json_raw_source := getText sm (node_node nodeInfo);
        json_incoming := map edge_id (incoming nodeInfo);
        json_outgoing := map edge_id out;
        json_node_data := nodeData |}.

Fixpoint nodesToJSON_loop (entries : list (nat * NodeInfo))
  : Result (list NodeJSON) :=
  match entries with
  | [] => Ok []
  | (_, nodeInfo) :: rest =>
      node <- nodeToJSON nodeInfo ;;
      nodes <- nodesToJSON_loop rest ;;
      Ok (node :: nodes)
  end.

Definition nodesToJSON (g : CodeFlowGraph) : Result (list NodeJSON) :=
  nodesToJSON_loop (nodes g).

Definition edgesToJSON (g : CodeFlowGraph) : list EdgeJSON :=
  map (fun '(_, edgeInfo) =>
         {| json_edge_id := edge_id edgeInfo;
            json_edge_type := edgeTypeToString (edge_type edgeInfo);
            json_source_node_id := edge_source edgeInfo;
            json_destination_node_id := edge_destination edgeInfo;
            json_label := "" |})
      (edges g).
End Serializer.

(** ** The analysed file of the repository ([Tryaway])

<<
export class Foo {
    bar(x: number, callback: (x: number) => number): number {
        return callback(callback(x));
    }
}
export const double = function(x: number) { return x + x; }
export const foo = new Foo();
foo.bar(5, double);
>>
    The handles of its syntax nodes, and the answers of [ts-morph] on
    them. *)

Module Tryaway.
Definition file : SourceFile := 0.
Definition class_Foo : Node := 1.
Definition method_bar : Node := 2.
Definition param_x : Node := 3.
Definition param_callback : Node := 4.
Definition body_bar : Node := 5.
  (** [callback(callback(x))] *)
Definition call_outer : Node := 6.
Definition callee_outer : Node := 7.
  (** [callback(x)] *)
Definition call_inner : Node := 8.
Definition callee_inner : Node := 9.
Definition arg_x : Node := 10.
Definition stmt_double : Node := 11.
Definition decl_double : Node := 12.
Definition init_double : Node := 13.
Definition body_double : Node := 14.
Definition stmt_foo : Node := 15.
Definition decl_foo : Node := 16.
Definition init_foo : Node := 17.
  (** [foo.bar(5, double)] *)
Definition call_foo_bar : Node := 18.
Definition access_foo_bar : Node := 19.
Definition ident_foo_use : Node := 20.
Definition arg_5 : Node := 21.
Definition arg_double : Node := 22.
Definition ident_foo_decl : Node := 23.
Definition stmt_call : Node := 24.
Definition decl_list_foo : Node := 25.

Definition kind (n : Node) : SyntaxKind :=
    match n with
    | 1 => ClassDeclaration
    | 2 => MethodDeclaration
    | 3 | 4 => ParameterDeclaration
    | 6 | 8 | 18 => CallExpression
    | 7 | 9 | 10 | 20 | 22 | 23 => Identifier
    | 12 | 16 => VariableDeclaration
    | 13 => FunctionExpression
    | 17 => NewExpression
    | 19 => PropertyAccessExpression
    | _ => OtherKind
    end.

Definition parent (n : Node) : option Node :=
    match n with
    | 2 => Some 1 | 3 | 4 | 5 => Some 2
    | 6 => Some 5 | 7 | 8 => Some 6 | 9 | 10 => Some 8
    | 12 => Some 11 | 13 => Some 12 | 14 => Some 13
    | 25 => Some 15 | 16 => Some 25 | 17 | 23 => Some 16
    | 18 => Some 24 | 19 | 21 | 22 => Some 18 | 20 => Some 19
    | _ => None
    end.

  (** [variables] is the list of the file's variable declarations: the
      whole file has [double] and [foo], the class alone has none. *)
Definition model (variables : list Node) : SourceModel :=
    {| getSourceFiles := [file];
       getVariableDeclarations := fun _ => variables;
       getFunctions := fun _ => [];
       getClasses := fun _ => [class_Foo];
       getMethods := fun c => match c with 1 => [method_bar] | _ => [] end;
       getVariableStatement := fun d =>
         match d with 12 => Some stmt_double | 16 => Some stmt_foo | _ => None end;
       getDeclarations := fun s =>
         match s with 11 => [decl_double] | 15 => [decl_foo] | _ => [] end;
       getKind := kind;
       isExported := fun d => match d with 1 | 12 | 16 => true | _ => false end;
       getInitializer := fun d =>
         match d with 12 => Some init_double | 16 => Some init_foo | _ => None end;
       getBody := fun f =>
         match f with 2 => Some body_bar | 13 => Some body_double | _ => None end;
       getDescendantCalls := fun n =>
         match n with
         | 1 | 2 | 5 => [call_outer; call_inner]
         | 6 => [call_inner]
         | _ => []
         end;
       findReferences := fun d =>
         match d with
         | 16 => [[ident_foo_decl; ident_foo_use]]
         | _ => []
         end;
       getParent := parent;
       getExpression := fun c =>
         match c with
         | 6 => callee_outer | 8 => callee_inner | 18 => access_foo_bar
         | _ => 0
         end;
       getDefinitionNodes := fun i =>
         match i with
         | 7 | 9 => [param_callback]
         | 10 => [param_x]
         | 20 => [decl_foo]
         | 22 => [decl_double]
         | _ => []
         end;
       getArguments := fun c =>
         match c with
         | 6 => [call_inner] | 8 => [arg_x] | 18 => [arg_5; arg_double]
         | _ => []
         end;
       getSymbolName := fun n =>
         match n with
         | 1 => Some "Foo" | 2 => Some "bar" | 12 => Some "double"
         | 16 => Some "foo" | _ => None
         end;
       getLocation := fun _ => "Tryaway/Tryaway.ts";
       getText := fun _ => "" |}%string.

Definition whole_file : SourceModel := model [decl_double; decl_foo].
Definition class_only : SourceModel := model [].
End Tryaway.


(** ** A helper that is not exported

<<
const helper = function(x) { return x; };
export function main() { console.log(helper); }   // or: helper(helper);
>>
    The call in [main] has either the property access [console.log] or
    the bare identifier [helper] as its callee. *)

Module Helper.
Definition file : SourceFile := 0.
Definition stmt_helper : Node := 1.
Definition decl_helper : Node := 2.
Definition init_helper : Node := 3.
Definition body_helper : Node := 4.
Definition func_main : Node := 5.
Definition body_main : Node := 6.
Definition call_main : Node := 7.
Definition callee_main : Node := 8.
Definition arg_helper : Node := 9.

Definition model (callee_kind : SyntaxKind) : SourceModel :=
  {| getSourceFiles := [file];
     getVariableDeclarations := fun _ => [decl_helper];
     getFunctions := fun _ => [func_main];
     getClasses := fun _ => [];
     getMethods := fun _ => [];
     getVariableStatement := fun d =>
       match d with 2 => Some stmt_helper | _ => None end;
     getDeclarations := fun s => match s with 1 => [decl_helper] | _ => [] end;
     getKind := fun n =>
       match n with
       | 2 => VariableDeclaration
       | 3 => FunctionExpression
       | 5 => FunctionDeclaration
       | 7 => CallExpression
       | 8 => callee_kind
       | 9 => Identifier
       | _ => OtherKind
       end;
     isExported := fun d => match d with 5 => true | _ => false end;
     getInitializer := fun d => match d with 2 => Some init_helper | _ => None end;
     getBody := fun f =>
       match f with 3 => Some body_helper | 5 => Some body_main | _ => None end;
     getDescendantCalls := fun n =>
       match n with 5 | 6 => [call_main] | _ => [] end;
     findReferences := fun _ => [];
     getParent := fun n =>
       match n with
       | 2 => Some 1 | 3 => Some 2 | 4 => Some 3 | 6 => Some 5
       | 7 => Some 6 | 8 | 9 => Some 7
       | _ => None
       end;
     getExpression := fun c => match c with 7 => callee_main | _ => 0 end;
     getDefinitionNodes := fun i =>
       match i with
       | 8 => match callee_kind with Identifier => [decl_helper] | _ => [] end
       | 9 => [decl_helper]
       | _ => []
       end;
     getArguments := fun c => match c with 7 => [arg_helper] | _ => [] end;
     getSymbolName := fun n =>
       match n with 2 => Some "helper" | 5 => Some "main" | _ => None end;
     getLocation := fun _ => "helper.ts";
     getText := fun _ => "" |}%string.

(** [console.log(helper)] *)
Definition never_called : SourceModel := model PropertyAccessExpression.
(** [helper(helper)] *)
Definition called : SourceModel := model Identifier.
End Helper.

(** ** An exported object that is also called

<<
export const obj = new Foo();
obj.run();
export function main() { obj(); }
>> *)

Module CalledObject.
Definition file : SourceFile := 0.
Definition stmt_obj : Node := 1.
Definition decl_obj : Node := 2.
Definition init_obj : Node := 3.
Definition ident_obj_decl : Node := 4.
Definition decl_list_obj : Node := 5.
Definition stmt_run : Node := 6.
(** [obj.run()] *)
Definition call_run : Node := 7.
Definition access_run : Node := 8.
Definition ident_obj_run : Node := 9.
Definition func_main : Node := 10.
Definition body_main : Node := 11.
(** [obj()] *)
Definition call_obj : Node := 12.
Definition ident_obj_call : Node := 13.
Definition stmt_obj_call : Node := 14.

Definition model : SourceModel :=
  {| getSourceFiles := [file];
     getVariableDeclarations := fun _ => [decl_obj];
     getFunctions := fun _ => [func_main];
     getClasses := fun _ => [];
     getMethods := fun _ => [];
     getVariableStatement := fun d =>
       match d with 2 => Some stmt_obj | _ => None end;
     getDeclarations := fun s => match s with 1 => [decl_obj] | _ => [] end;
     getKind := fun n =>
       match n with
       | 2 => VariableDeclaration
       | 3 => NewExpression
       | 4 | 9 | 13 => Identifier
       | 7 | 12 => CallExpression
       | 8 => PropertyAccessExpression
       | 10 => FunctionDeclaration
       | _ => OtherKind
       end;
     isExported := fun d => match d with 2 | 10 => true | _ => false end;
     getInitializer := fun d => match d with 2 => Some init_obj | _ => None end;
     getBody := fun f => match f with 10 => Some body_main | _ => None end;
     getDescendantCalls := fun n =>
       match n with 10 | 11 | 14 => [call_obj] | 6 => [call_run] | _ => [] end;
     findReferences := fun d =>
       match d with
       | 2 => [[ident_obj_decl; ident_obj_run; ident_obj_call]]
       | _ => []
       end;
     getParent := fun n =>
       match n with
       | 4 | 3 => Some 2 | 2 => Some 5 | 5 => Some 1
       | 9 => Some 8 | 8 => Some 7 | 7 => Some 6
       | 13 => Some 12 | 12 => Some 14 | 14 => Some 11 | 11 => Some 10
       | _ => None
       end;
     getExpression := fun c =>
       match c with 7 => access_run | 12 => ident_obj_call | _ => 0 end;
     getDefinitionNodes := fun i =>
       match i with 4 | 9 | 13 => [decl_obj] | _ => [] end;
     getArguments := fun _ => [];
     getSymbolName := fun n =>
       match n with 2 => Some "obj" | 10 => Some "main" | _ => None end;
     getLocation := fun _ => "object.ts";
     getText := fun _ => "" |}%string.
End CalledObject.

(** ** Mutually recursive functions

<<
export function even(n) { return odd(n - 1); }
export function odd(n) { return even(odd(n - 1)); }
>> *)

Module Recursive.
Definition file : SourceFile := 0.
Definition func_even : Node := 1.
Definition body_even : Node := 2.
(** [odd(n - 1)] in [even] *)
Definition call_odd_in_even : Node := 3.
Definition callee_odd_in_even : Node := 4.
Definition arg_in_even : Node := 5.
Definition func_odd : Node := 6.
Definition body_odd : Node := 7.
(** [even(odd(n - 1))] *)
Definition call_even : Node := 8.
Definition callee_even : Node := 9.
(** [odd(n - 1)] in [odd] *)
Definition call_odd_in_odd : Node := 10.
Definition callee_odd_in_odd : Node := 11.
Definition arg_in_odd : Node := 12.

Definition model : SourceModel :=
  {| getSourceFiles := [file];
     getVariableDeclarations := fun _ => [];
     getFunctions := fun _ => [func_even; func_odd];
     getClasses := fun _ => [];
     getMethods := fun _ => [];
     getVariableStatement := fun _ => None;
     getDeclarations := fun _ => [];
     getKind := fun n =>
       match n with
       | 1 | 6 => FunctionDeclaration
       | 3 | 8 | 10 => CallExpression
       | 4 | 9 | 11 => Identifier
       | _ => OtherKind
       end;
     isExported := fun d => match d with 1 | 6 => true | _ => false end;
     getInitializer := fun _ => None;
     getBody := fun f =>
       match f with 1 => Some body_even | 6 => Some body_odd | _ => None end;
     getDescendantCalls := fun n =>
       match n with
       | 1 | 2 => [call_odd_in_even]
       | 6 | 7 => [call_even; call_odd_in_odd]
       | 8 => [call_odd_in_odd]
       | _ => []
       end;
     findReferences := fun _ => [];
     getParent := fun n =>
       match n with
       | 2 => Some 1 | 3 => Some 2 | 4 | 5 => Some 3
       | 7 => Some 6 | 8 => Some 7 | 9 | 10 => Some 8 | 11 | 12 => Some 10
       | _ => None
       end;
     getExpression := fun c =>
       match c with
       | 3 => callee_odd_in_even | 8 => callee_even | 10 => callee_odd_in_odd
       | _ => 0
       end;
     getDefinitionNodes := fun i =>
       match i with 4 | 11 => [func_odd] | 9 => [func_even] | _ => [] end;
     getArguments := fun c =>
       match c with
       | 3 => [arg_in_even] | 8 => [call_odd_in_odd] | 10 => [arg_in_odd]
       | _ => []
       end;
     getSymbolName := fun n =>
       match n with 1 => Some "even" | 6 => Some "odd" | _ => None end;
     getLocation := fun _ => "recursive.ts";
     getText := fun _ => "" |}%string.
End Recursive.

(** ** Notions used by the statements *)

(** The destinations of a node's outgoing [Child] edges. *)
Definition child_destinations (n : NodeRef) (g : CodeFlowGraph) : list NodeRef :=
  map edge_destination
    (filter (fun e => EdgeType_eqb (edge_type e) Child) (outgoing_of n g)).

(** The node registered for a construct, and its type. *)
Definition node_of (c : Node) (g : CodeFlowGraph) : option NodeRef :=
  map_get c (nodeToInfo g).

Definition node_type_of (c : Node) (g : CodeFlowGraph) : option NodeType :=
  match node_of c g with
  | Some n => type_of n g
  | None => None
  end.

(** [has_edge g s d t]: the edge store has an edge of type [t] from node
    [s] to node [d]. *)
Definition has_edge (g : CodeFlowGraph) (s d : NodeRef) (t : EdgeType) : bool :=
  existsb
    (fun '(_, e) =>
       Nat.eqb (edge_source e) s && Nat.eqb (edge_destination e) d
       && EdgeType_eqb (edge_type e) t)
    (edges g).

Definition count_type (t : NodeType) (g : CodeFlowGraph) : nat :=
  List.length (filter (fun '(_, n) => NodeType_eqb (node_type n) t) (nodes g)).

Definition newEdge (source destination : NodeRef) (type : EdgeType)
  (g : CodeFlowGraph) : EdgeInfo :=
  {| edge_source := source; edge_destination := destination;
     edge_id := NEXT_EDGE_ID g; edge_type := type |}.

(** ** Steps of a build

    Whatever the builder does to the graph is a sequence of node
    registrations (of a construct not yet registered) and edge additions
    (from a node already created; an [Argument] edge from a [Call] node). *)

Inductive gstep : CodeFlowGraph -> CodeFlowGraph -> Prop :=
| gstep_node node type g :
    map_get node (nodeToInfo g) = None ->
    gstep g (snd (addNodeIsNew node type g))
| gstep_edge source destination type g :
    source < NEXT_NODE_ID g ->
    (type = ArgumentEdge -> type_of source g = Some Call) ->
    gstep g (addEdge source destination type g).

Inductive gsteps : CodeFlowGraph -> CodeFlowGraph -> Prop :=
| gsteps_refl g : gsteps g g
| gsteps_step g1 g2 g3 : gsteps g1 g2 -> gstep g2 g3 -> gsteps g1 g3.

Definition registered (c : Node) (n : NodeRef) (g : CodeFlowGraph) : Prop :=
  map_get c (nodeToInfo g) = Some n.

Definition call_sound (sm : SourceModel) (fuel : nat) : Prop :=
  forall c g r g',
    processCallExpression sm fuel c g = Ok (r, g') ->
    gsteps g g' /\ registered c r g'.

(** The constructs the class processes, each with the operation applied
    to it. *)
Inductive Construct : Set :=
| AMethod (method : Node)
| AVariable (declaration : Node) (export_only : bool)
| ACall (call : Node)
| ADefinition (definition : Node)
| AFunction (func : Node)
| AArgument (node : Node).

Definition construct_node (t : Construct) : Node :=
  match t with
  | AMethod n | AVariable n _ | ACall n | ADefinition n | AFunction n
  | AArgument n => n
  end.

Definition process (sm : SourceModel) (fuel : nat) (t : Construct)
  (g : CodeFlowGraph) : Result (option NodeRef * CodeFlowGraph) :=
  match t with
  | AMethod method =>
      '(n, g) <- processMethodDeclaration sm fuel method g ;; Ok (Some n, g)
  | AVariable declaration export_only =>
      processVariableDeclaration sm fuel declaration export_only g
  | ACall call =>
      '(n, g) <- processCallExpression sm fuel call g ;; Ok (Some n, g)
  | ADefinition definition => processDefinition sm fuel definition g
  | AFunction func =>
      '(n, g) <- processFunctionDeclaration sm fuel func g ;; Ok (Some n, g)
  | AArgument node =>
      '(n, g) <- processArgument sm fuel node g ;; Ok (Some n, g)
  end.

(** A graph met in the course of building: the empty graph of the
    constructor, then any processing operation that returns. *)
Inductive builds (sm : SourceModel) : CodeFlowGraph -> CodeFlowGraph -> Prop :=
| builds_refl g : builds sm g g
| builds_step g1 g2 g3 fuel t r :
    builds sm g1 g2 -> process sm fuel t g2 = Ok (r, g3) -> builds sm g1 g3.

Definition reachable (sm : SourceModel) (g : CodeFlowGraph) : Prop :=
  builds sm CodeFlowGraph_new g.

(** In the adjacency lists and in the edge store. *)
Definition argument_edges_ok (g : CodeFlowGraph) : Prop :=
  (forall k n e,
     In (k, n) (nodes g) -> In e (outgoing n) ->
     edge_type e = ArgumentEdge -> node_type n = Call)
  /\ (forall k e,
        In (k, e) (edges g) ->
        edge_source e < NEXT_NODE_ID g
        /\ (edge_type e = ArgumentEdge -> type_of (edge_source e) g = Some Call)).

(** [is_node g n c t]: the node map has, under id [n], a node for the
    construct [c], of type [t]. *)
Definition is_node (g : CodeFlowGraph) (n : NodeRef) (c : Node) (t : NodeType)
  : Prop :=
  exists info,
    In (n, info) (nodes g) /\ node_node info = c /\ node_type info = t.

(** Scenario A as the specification expects it: a [Function] node for
    [bar]; two [Call] nodes, for the outer and for the inner call, each
    with a [Child] edge from [bar]; an [Argument] node for the inner call
    expression, with an [Argument] edge from the outer call node and a
    [Child] edge to the inner call node. *)
Definition scenarioA_expected (g : CodeFlowGraph) : Prop :=
  exists n_bar n_outer n_inner n_arg,
    is_node g n_bar Tryaway.method_bar Function
    /\ is_node g n_outer Tryaway.call_outer Call
    /\ is_node g n_inner Tryaway.call_inner Call
    /\ is_node g n_arg Tryaway.call_inner Argument
    /\ has_edge g n_bar n_outer Child = true
    /\ has_edge g n_bar n_inner Child = true
    /\ has_edge g n_outer n_arg ArgumentEdge = true
    /\ has_edge g n_arg n_inner Child = true.

(** Flattening as the specification words it: the call node gets a
    [Child] edge to the destinations of the definition node's [Child]
    edges, and of those only. *)
Definition splices_child_edges_only (g : CodeFlowGraph)
  (callNode definitionNode : NodeRef) : Prop :=
  forall d, In d (child_destinations callNode g) ->
            In d (child_destinations definitionNode g).

(** What the splicing loop does with a list of edges. *)
Definition spliced (source : NodeRef) (l : list EdgeInfo) (g : CodeFlowGraph)
  : CodeFlowGraph :=
  fold_left (fun g edge => addEdge source (edge_destination edge) Child g) l g.

(** Type and destination of each edge of a list. *)
Definition edge_shape (l : list EdgeInfo) : list (EdgeType * NodeRef) :=
  map (fun e => (edge_type e, edge_destination e)) l.

(** ** Termination *)

(** A computation with fuel terminates when some fuel is enough for it to
    return or throw. *)
Definition terminates {A : Type} (run : nat -> Result A) : Prop :=
  exists fuel, run fuel <> OutOfFuel.

(** [refines r r']: [r'] is [r] unless [r] ran out of fuel. *)
Definition refines {A : Type} (r r' : Result A) : Prop :=
  r <> OutOfFuel -> r' = r.

(** The constructs the builder goes to from a construct [x], whatever the
    role in which [x] is processed. *)
Section Successors.
Variable sm : SourceModel.

Definition definitions (call : Node) : list Node :=
if SyntaxKind_eqb (getKind sm (getExpression sm call)) Identifier
then getDefinitionNodes sm (getExpression sm call)
else [].

Definition body_calls (f : Node) : list Node :=
match getBody sm f with
| Some body => getDescendantCalls sm body
| None => []
end.

Definition initializer_calls (declaration : Node) : list Node :=
match getInitializer sm declaration with
| Some init => body_calls init
| None => []
end.

Definition reference_call (reference : Node) : list Node :=
match getParent sm reference with
| Some temp =>
    match getParent sm temp with
    | Some call =>
        if SyntaxKind_eqb (getKind sm call) CallExpression
           && Nat.eqb (getExpression sm call) temp
        then [call] else []
    | None => []
    end
| None => []
end.

Definition reference_calls (declaration : Node) : list Node :=
flat_map reference_call (List.concat (findReferences sm declaration)).

Definition successors (x : Node) : list Node :=
definitions x ++ getArguments sm x ++ getDescendantCalls sm x
++ body_calls x ++ initializer_calls x ++ reference_calls x.

(** The constructs [initialize] starts from. *)
Definition entry_points : list Node :=
flat_map
  (fun sourceFile =>
     flat_map
       (fun variable =>
          match getVariableStatement sm variable with
          | Some statement => getDeclarations sm statement
          | None => []
          end)
       (getVariableDeclarations sm sourceFile)
     ++ getFunctions sm sourceFile
     ++ flat_map (getMethods sm) (getClasses sm sourceFile))
  (getSourceFiles sm).

(** A finite input: the constructs are the handles below [N]. *)
Definition closed (N : nat) : bool :=
forallb (fun x => Nat.ltb x N) entry_points
&& forallb (fun x => forallb (fun y => Nat.ltb y N) (successors x)) (seq 0 N).

(** No call expression is among the definition nodes of its own callee. *)
Definition no_self_definition (N : nat) : bool :=
forallb (fun c => negb (existsb (Nat.eqb c) (definitions c))) (seq 0 N).
End Successors.

(** The constructs below [N] that have no node yet. *)
Definition unregistered (N : nat) (g : CodeFlowGraph) : nat :=
  List.length
    (filter (fun x => match map_get x (nodeToInfo g) with
                      | None => true
                      | Some _ => false
                      end)
       (seq 0 N)).

(** Node ids are below the counter, and no two constructs share a node. *)
Definition registry_ok (g : CodeFlowGraph) : Prop :=
  (forall c n, registered c n g -> n < NEXT_NODE_ID g)
  /\ (forall c c' n, registered c n g -> registered c' n g -> c = c').

(** The graphs with a sound registry and at most [m] constructs below [N]
    left to register. *)
Definition level (N m : nat) (s : CodeFlowGraph) : Prop :=
  registry_ok s /\ unregistered N s <= m.

Definition calls_terminate (sm : SourceModel) (N m : nat) : Prop :=
  forall s call,
    level N m s -> call < N ->
    terminates (fun f => processCallExpression sm f call s).

(** ** Well-formed graphs *)

(** The edge types the builder draws from a node of each type. *)
Definition edge_allowed (type : EdgeType) (source : option NodeType) : bool :=
  match type, source with
  | ArgumentEdge, Some Call => true
  | CallEdge, Some Object => true
  | Child, Some Function | Child, Some Call | Child, Some Argument => true
  | _, _ => false
  end.

(** The steps of a build again, with what the builder knows of the two
    ends of an edge when it adds it. *)
Inductive estep : CodeFlowGraph -> CodeFlowGraph -> Prop :=
| estep_node node type g :
    map_get node (nodeToInfo g) = None ->
    estep g (snd (addNodeIsNew node type g))
| estep_edge source destination type g :
    source < NEXT_NODE_ID g ->
    destination < NEXT_NODE_ID g ->
    edge_allowed type (type_of source g) = true ->
    estep g (addEdge source destination type g).

Inductive esteps : CodeFlowGraph -> CodeFlowGraph -> Prop :=
| esteps_refl g : esteps g g
| esteps_step g1 g2 g3 : esteps g1 g2 -> estep g2 g3 -> esteps g1 g3.

(** Ids are given in creation order from 0, to nodes and to edges. *)
Definition node_ids_contiguous (g : CodeFlowGraph) : Prop :=
  map fst (nodes g) = seq 0 (NEXT_NODE_ID g)
  /\ forall k n, In (k, n) (nodes g) -> node_id n = k.

Definition edge_ids_contiguous (g : CodeFlowGraph) : Prop :=
  map fst (edges g) = seq 0 (NEXT_EDGE_ID g)
  /\ forall k e, In (k, e) (edges g) -> edge_id e = k.

(** The registry lists the nodes by construct, in creation order, and no
    construct twice. *)
Definition registry_agrees (g : CodeFlowGraph) : Prop :=
  nodeToInfo g = map (fun '(k, n) => (node_node n, k)) (nodes g)
  /\ NoDup (map fst (nodeToInfo g)).

(** The adjacency lists of a node are the edges of the store that leave
    it and that reach it, in creation order. *)
Definition adjacency_agrees (g : CodeFlowGraph) : Prop :=
  forall k,
    k < NEXT_NODE_ID g ->
    outgoing_of k g = filter (fun e => Nat.eqb (edge_source e) k) (map snd (edges g))
    /\ incoming_of k g
       = filter (fun e => Nat.eqb (edge_destination e) k) (map snd (edges g)).

Definition endpoints_valid (g : CodeFlowGraph) : Prop :=
  forall k e,
    In (k, e) (edges g) ->
    edge_source e < NEXT_NODE_ID g /\ edge_destination e < NEXT_NODE_ID g.

Definition edges_typed (g : CodeFlowGraph) : Prop :=
  forall k e,
    In (k, e) (edges g) ->
    edge_allowed (edge_type e) (type_of (edge_source e) g) = true.

Definition well_formed (g : CodeFlowGraph) : Prop :=
  node_ids_contiguous g /\ edge_ids_contiguous g /\ registry_agrees g
  /\ registry_ok g /\ adjacency_agrees g /\ endpoints_valid g /\ edges_typed g.

(** The graph [initialize] builds, when it returns. *)
Definition built (sm : SourceModel) (fuel : nat) : CodeFlowGraph :=
  match initialize sm fuel CodeFlowGraph_new with
  | Ok g => g
  | _ => CodeFlowGraph_new
  end.

(** A source model with the initializers taken out. *)
Definition without_initializers (sm : SourceModel) : SourceModel :=
  {| getSourceFiles := getSourceFiles sm;
     getVariableDeclarations := getVariableDeclarations sm;
     getFunctions := getFunctions sm;
     getClasses := getClasses sm;
     getMethods := getMethods sm;
     getVariableStatement := getVariableStatement sm;
     getDeclarations := getDeclarations sm;
     getKind := getKind sm;
     isExported := isExported sm;
     getInitializer := fun _ => None;
     getBody := getBody sm;
     getDescendantCalls := getDescendantCalls sm;
     findReferences := findReferences sm;
     getParent := getParent sm;
     getExpression := getExpression sm;
     getDefinitionNodes := getDefinitionNodes sm;
     getArguments := getArguments sm;
     getSymbolName := getSymbolName sm;
     getLocation := getLocation sm;
     getText := getText sm |}.

(** The declarations [processVariables] goes through in a file. *)
Definition declarations_of (sm : SourceModel) (sourceFile : SourceFile)
  : list Node :=
  flat_map
    (fun variable =>
       match getVariableStatement sm variable with
       | Some statement => getDeclarations sm statement
       | None => []
       end)
    (getVariableDeclarations sm sourceFile).


(** The type of the node an operation creates for a construct that has
    none. *)
Definition variable_type (sm : SourceModel) (declaration : Node) : NodeType :=
  match getInitializer sm declaration with
  | Some init =>
      if SyntaxKind_eqb (getKind sm init) ArrowFunction
         || SyntaxKind_eqb (getKind sm init) FunctionExpression
      then Function else Object
  | None => Object
  end.

Definition created_type (sm : SourceModel) (t : Construct) : NodeType :=
  match t with
  | AMethod _ | AFunction _ => Function
  | AVariable declaration _ => variable_type sm declaration
  | ACall _ => Call
  | AArgument _ => Argument
  | ADefinition definition =>
      match getKind sm definition with
      | VariableDeclaration => variable_type sm definition
      | FunctionDeclaration => Function
      | _ => Any
      end
  end.

(** A result that is not a [TypeError]. *)
Definition no_type_error {A : Type} (r : Result A) : Prop :=
  r <> Throw TypeError.

(** * Properties *)

(** ** Maps *)

Section NatMapFacts.
Variable V : Type.
Implicit Types (m : list (nat * V)) (k : nat).

Lemma map_get_set_same k (v : V) m : map_get k (map_set k v m) = Some v.
Proof.
  induction m as [|[k' v'] m IH]; simpl.
  - now rewrite Nat.eqb_refl.
  - destruct (Nat.eqb k k') eqn:E; simpl; rewrite ?Nat.eqb_refl, ?E; auto.
Qed.

Lemma map_get_set_other k k' (v : V) m :
  k <> k' -> map_get k (map_set k' v m) = map_get k m.
Proof.
  intros Hne. induction m as [|[k0 v0] m IH]; simpl.
  - apply Nat.eqb_neq in Hne. now rewrite Hne.
  - destruct (Nat.eqb k' k0) eqn:E; simpl.
    + apply Nat.eqb_eq in E; subst k0.
      apply Nat.eqb_neq in Hne. now rewrite Hne.
    + now rewrite IH.
Qed.

Lemma map_get_update k k' (f : V -> V) m :
  map_get k (map_update k' f m) =
  if Nat.eqb k k' then option_map f (map_get k m) else map_get k m.
Proof.
  induction m as [|[k0 v0] m IH]; simpl.
  - now destruct (Nat.eqb k k').
  - destruct (Nat.eqb k' k0) eqn:E; simpl.
    + apply Nat.eqb_eq in E; subst k0.
      destruct (Nat.eqb k k') eqn:E'; simpl; auto.
    + rewrite IH. destruct (Nat.eqb k k0) eqn:E0; simpl.
      * apply Nat.eqb_eq in E0; subst k0.
        rewrite Nat.eqb_sym in E. now rewrite E.
      * reflexivity.
Qed.

Lemma map_get_In k (v : V) m : map_get k m = Some v -> In (k, v) m.
Proof.
  induction m as [|[k0 v0] m IH]; simpl; [discriminate|].
  destruct (Nat.eqb k k0) eqn:E.
  - apply Nat.eqb_eq in E; subst. intros [= ->]. now left.
  - intros H. right. auto.
Qed.

Lemma map_get_bound k m n :
  (forall k' v, In (k', v) m -> k' < n) -> n <= k -> map_get k m = None.
Proof.
  intros Hb Hk. destruct (map_get k m) as [v|] eqn:E; [|reflexivity].
  apply map_get_In, Hb in E. lia.
Qed.

Lemma In_map_set k0 (v0 : V) k v m :
  In (k, v) (map_set k0 v0 m) -> (k = k0 /\ v = v0) \/ In (k, v) m.
Proof.
  induction m as [|[k1 v1] m IH]; simpl.
  - intros [[= <- <-]|[]]. now left.
  - destruct (Nat.eqb k0 k1); simpl.
    + intros [[= <- <-]|H]; [now left|right; now right].
    + intros [H|H]; [right; now left|].
      destruct (IH H) as [?|?]; [now left|right; now right].
Qed.

Lemma In_map_update k0 (f : V -> V) k v m :
  In (k, v) (map_update k0 f m) ->
  In (k, v) m \/ (k = k0 /\ exists v', map_get k0 m = Some v' /\ v = f v').
Proof.
  induction m as [|[k1 v1] m IH]; simpl; [tauto|].
  destruct (Nat.eqb k0 k1) eqn:E; simpl.
  - apply Nat.eqb_eq in E; subst k1.
    intros [[= <- <-]|H]; [right; eauto|left; now right].
  - intros [H|H]; [left; now left|].
    destruct (IH H) as [?|(-> & v' & Hg & ->)]; [left; now right|right; eauto].
Qed.

Lemma new_array_fresh m : map_get (new_array m) m = None.
Proof.
  apply map_get_bound with (n := S (list_max (map fst m))); [|apply Nat.le_refl].
  intros k v Hin.
  assert (H : In k (map fst m)) by (apply in_map_iff; now exists (k, v)).
  pose proof (proj1 (list_max_le (map fst m) (list_max (map fst m))) (Nat.le_refl _)) as Hall.
  rewrite Forall_forall in Hall. specialize (Hall _ H). lia.
Qed.
End NatMapFacts.

(** ** The registries *)


Lemma addEdgeIsNew_eq source destination type g :
  addEdgeIsNew source destination type g =
  (newEdge source destination type g, true,
   {| nodes :=
        map_update destination (addIncoming (newEdge source destination type g))
          (map_update source (addOutgoing (newEdge source destination type g))
             (nodes g));
      nodeToInfo := nodeToInfo g;
      edges := map_set (NEXT_EDGE_ID g) (newEdge source destination type g) (edges g);
      edgeInfo := edgeInfo g;
      NEXT_NODE_ID := NEXT_NODE_ID g;
      NEXT_EDGE_ID := S (NEXT_EDGE_ID g) |}).
Proof.
  unfold addEdgeIsNew. now rewrite new_array_fresh.
Qed.

Lemma addNodeIsNew_hit node type g n :
  map_get node (nodeToInfo g) = Some n ->
  addNodeIsNew node type g = (n, false, g).
Proof.
  unfold addNodeIsNew. now intros ->.
Qed.

Lemma addNodeIsNew_cases node type g :
  (exists n, map_get node (nodeToInfo g) = Some n
             /\ addNodeIsNew node type g = (n, false, g))
  \/ (map_get node (nodeToInfo g) = None
      /\ exists g', addNodeIsNew node type g = (NEXT_NODE_ID g, true, g')
         /\ g' = snd (addNodeIsNew node type g)
         /\ map_get node (nodeToInfo g') = Some (NEXT_NODE_ID g)
         /\ NEXT_NODE_ID g' = S (NEXT_NODE_ID g)
         /\ map_get (NEXT_NODE_ID g) (nodes g') =
            Some {| node_node := node; incoming := []; outgoing := [];
                    node_id := NEXT_NODE_ID g; node_type := type |}).
Proof.
  unfold addNodeIsNew.
  destruct (map_get node (nodeToInfo g)) as [n|] eqn:E.
  - left. eauto.
  - right. split; [reflexivity|]. eexists. split; [reflexivity|]. simpl.
    repeat split; apply map_get_set_same.
Qed.

(** ** Monadic plumbing *)

Lemma bind_Ok {A B : Type} (m : Result A) (k : A -> Result B) (b : B) :
  bind m k = Ok b -> exists a, m = Ok a /\ k a = Ok b.
Proof.
  destruct m; simpl; try discriminate. eauto.
Qed.

Tactic Notation "inv_bind" hyp(H) "as" simple_intropattern(a) ident(Ha) :=
  apply bind_Ok in H; destruct H as (a & Ha & H).

Lemma forEach_Ok_ind {A S : Type} (I : S -> Prop) (l : list A)
  (body : A -> S -> Result S) :
  (forall x s s', In x l -> I s -> body x s = Ok s' -> I s') ->
  forall s s', I s -> forEach l body s = Ok s' -> I s'.
Proof.
  induction l as [|x l IH]; simpl; intros Hbody s s' Hs H.
  - now injection H as <-.
  - inv_bind H as s1 H1.
    eapply IH; [| |exact H]; eauto.
Qed.


Lemma gsteps_trans g1 g2 g3 : gsteps g1 g2 -> gsteps g2 g3 -> gsteps g1 g3.
Proof.
  intros H12 H23. induction H23 as [|g2 g3 g4 _ IH Hstep]; [assumption|].
  eapply gsteps_step; [exact (IH H12)|exact Hstep].
Qed.

Lemma gsteps_one g1 g2 : gstep g1 g2 -> gsteps g1 g2.
Proof.
  intros H. eapply gsteps_step; [apply gsteps_refl|exact H].
Qed.


Lemma addEdge_nodeToInfo s d t g : nodeToInfo (addEdge s d t g) = nodeToInfo g.
Proof. unfold addEdge. now rewrite addEdgeIsNew_eq. Qed.

Lemma addEdge_NEXT_NODE_ID s d t g : NEXT_NODE_ID (addEdge s d t g) = NEXT_NODE_ID g.
Proof. unfold addEdge. now rewrite addEdgeIsNew_eq. Qed.

Lemma addEdge_nodes s d t g :
  nodes (addEdge s d t g) =
  map_update d (addIncoming (newEdge s d t g))
    (map_update s (addOutgoing (newEdge s d t g)) (nodes g)).
Proof. unfold addEdge. now rewrite addEdgeIsNew_eq. Qed.

Lemma addEdge_edges s d t g :
  edges (addEdge s d t g) = map_set (NEXT_EDGE_ID g) (newEdge s d t g) (edges g).
Proof. unfold addEdge. now rewrite addEdgeIsNew_eq. Qed.

Lemma addEdge_type_of s d t g n : type_of n (addEdge s d t g) = type_of n g.
Proof.
  unfold type_of. rewrite addEdge_nodes, !map_get_update.
  destruct (Nat.eqb n d), (Nat.eqb n s), (map_get n (nodes g)); reflexivity.
Qed.

Lemma addEdge_outgoing_of s d t g n :
  outgoing_of n (addEdge s d t g) =
  if Nat.eqb n s
  then match map_get n (nodes g) with
       | Some _ => outgoing_of n g ++ [newEdge s d t g]
       | None => []
       end
  else outgoing_of n g.
Proof.
  unfold outgoing_of. rewrite addEdge_nodes, !map_get_update.
  destruct (Nat.eqb n d), (Nat.eqb n s), (map_get n (nodes g)); reflexivity.
Qed.

Lemma gstep_NEXT_NODE_ID g g' : gstep g g' -> NEXT_NODE_ID g <= NEXT_NODE_ID g'.
Proof.
  intros [node type g0 Hnone|s d t g0 _ _].
  - unfold addNodeIsNew. rewrite Hnone. simpl. lia.
  - rewrite addEdge_NEXT_NODE_ID. lia.
Qed.

Lemma gstep_registered g g' c n : gstep g g' -> registered c n g -> registered c n g'.
Proof.
  unfold registered. intros [node type g0 Hnone|s d t g0 _ _] H.
  - unfold addNodeIsNew. rewrite Hnone. simpl.
    rewrite map_get_set_other; [assumption|congruence].
  - now rewrite addEdge_nodeToInfo.
Qed.

Lemma gstep_type_of g g' n :
  gstep g g' -> n < NEXT_NODE_ID g -> type_of n g' = type_of n g.
Proof.
  intros [node type g0 Hnone|s d t g0 _ _] Hn.
  - unfold addNodeIsNew, type_of. rewrite Hnone. simpl.
    rewrite map_get_set_other; [reflexivity|lia].
  - apply addEdge_type_of.
Qed.

Lemma gsteps_NEXT_NODE_ID g g' : gsteps g g' -> NEXT_NODE_ID g <= NEXT_NODE_ID g'.
Proof.
  induction 1 as [|g1 g2 g3 _ IH H]; [lia|].
  apply gstep_NEXT_NODE_ID in H. lia.
Qed.

Lemma gsteps_registered g g' c n :
  gsteps g g' -> registered c n g -> registered c n g'.
Proof.
  induction 1; eauto using gstep_registered.
Qed.

Lemma gsteps_type_of g g' n :
  gsteps g g' -> n < NEXT_NODE_ID g -> type_of n g' = type_of n g.
Proof.
  induction 1 as [|g1 g2 g3 H12 IH H]; intros Hn; [reflexivity|].
  rewrite <- IH by assumption.
  apply gstep_type_of; [assumption|].
  apply gsteps_NEXT_NODE_ID in H12. lia.
Qed.

(** ** What a processing operation does to the graph *)

Section Soundness.
Variable sm : SourceModel.

Lemma spliceOutgoing_gsteps fuel : forall i source definitionInfo g g',
  source < NEXT_NODE_ID g ->
  spliceOutgoing fuel i source definitionInfo g = Ok g' ->
  gsteps g g'.
Proof.
  induction fuel as [|fuel IH]; simpl; intros i source d g g' Hs H; [discriminate|].
  destruct (nth_error (outgoing_of d g) i) as [edge|].
  - apply IH in H; [|now rewrite addEdge_NEXT_NODE_ID].
    eapply gsteps_trans; [|exact H].
    apply gsteps_one, gstep_edge; [assumption|discriminate].
  - injection H as <-. apply gsteps_refl.
Qed.


Lemma linkCalls_gsteps fuel type source calls g0 :
  call_sound sm fuel ->
  type <> ArgumentEdge ->
  source < NEXT_NODE_ID g0 ->
  forall s s',
    gsteps g0 s ->
    forEach calls
      (fun call g =>
         '(callInfo, g) <- processCallExpression sm fuel call g ;;
         Ok (addEdge source callInfo type g)) s = Ok s' ->
    gsteps g0 s'.
Proof.
  intros IH Hty Hsrc. apply forEach_Ok_ind.
  intros call s s' _ Hs H. inv_bind H as [callInfo g1] Hc.
  injection H as <-. apply IH in Hc. destruct Hc as [Hc _].
  eapply gsteps_step; [eapply gsteps_trans; eassumption|].
  apply gstep_edge; [|intros ->; congruence].
  apply gsteps_NEXT_NODE_ID in Hs, Hc. lia.
Qed.

Lemma process_sound fuel :
  call_sound sm fuel
  /\ (forall d g r g',
        processDefinition sm fuel d g = Ok (r, g') ->
        gsteps g g' /\ forall n, r = Some n -> registered d n g')
  /\ (forall d export_only g r g',
        processVariableDeclaration sm fuel d export_only g = Ok (r, g') ->
        gsteps g g' /\ forall n, r = Some n -> registered d n g')
  /\ (forall f g r g',
        processFunctionDeclaration sm fuel f g = Ok (r, g') ->
        gsteps g g' /\ registered f r g')
  /\ (forall a g r g',
        processArgument sm fuel a g = Ok (r, g') ->
        gsteps g g' /\ registered a r g').
Proof.
  induction fuel as [|fuel (IHcall & IHdef & IHvar & IHfun & IHarg)].
  { repeat split; discriminate. }
  split; [|split; [|split; [|split]]].
  - (* processCallExpression *)
    intros c g r g' H. simpl in H.
    destruct (addNodeIsNew_cases c Call g)
      as [(n & Hreg & E)|(Hnone & g1 & E & Hg1 & Hreg & Hnext & Hnode)];
      rewrite E in H; simpl in H.
    { injection H as <- <-. split; [apply gsteps_refl|exact Hreg]. }
    inv_bind H as g2 Hdefs. inv_bind H as g3 Hargs.
    injection H as <- <-.
    assert (H01 : gsteps g g1) by (subst g1; apply gsteps_one, gstep_node, Hnone).
    assert (Hsrc : NEXT_NODE_ID g < NEXT_NODE_ID g1) by lia.
    assert (H12 : gsteps g1 g2).
    { destruct (SyntaxKind_eqb _ _).
      - revert Hdefs. apply forEach_Ok_ind; [|apply gsteps_refl].
        intros d s s' _ Hs H. inv_bind H as [[definitionInfo|] s1] Hd;
          [|discriminate].
        apply IHdef in Hd. destruct Hd as [Hd _].
        apply spliceOutgoing_gsteps in H.
        + eauto using gsteps_trans.
        + apply gsteps_NEXT_NODE_ID in Hs, Hd. lia.
      - injection Hdefs as <-. apply gsteps_refl. }
    assert (H13 : gsteps g1 g3).
    { revert Hargs. apply forEach_Ok_ind; [|exact H12].
      intros a s s' _ Hs H. inv_bind H as [argInfo s1] Ha.
      injection H as <-. apply IHarg in Ha. destruct Ha as [Ha _].
      eapply gsteps_step; [eapply gsteps_trans; eassumption|].
      pose proof (gsteps_trans Hs Ha) as H1s.
      apply gstep_edge.
      - apply gsteps_NEXT_NODE_ID in H1s. lia.
      - intros _. rewrite (gsteps_type_of H1s) by lia.
        unfold type_of. now rewrite Hnode. }
    split; [eauto using gsteps_trans|].
    eapply gsteps_registered; eassumption.
  - (* processDefinition *)
    intros d g r g' H. simpl in H.
    destruct (SyntaxKind_eqb (getKind sm d) VariableDeclaration).
    { now apply IHvar in H. }
    destruct (SyntaxKind_eqb (getKind sm d) FunctionDeclaration).
    { inv_bind H as [source g1] Hf. injection H as <- <-.
      apply IHfun in Hf. destruct Hf. split; [assumption|]. now intros n [= <-]. }
    unfold addNode in H.
    destruct (addNodeIsNew_cases d Any g)
      as [(n & Hreg & E)|(Hnone & g1 & E & Hg1 & Hreg & _)];
      rewrite E in H; injection H as <- <-.
    + split; [apply gsteps_refl|]. now intros ? [= <-].
    + split; [subst g1; apply gsteps_one, gstep_node, Hnone|]. now intros ? [= <-].
  - (* processVariableDeclaration *)
    intros d export_only g r g' H. simpl in H.
    destruct (export_only && negb (isExported sm d)).
    { injection H as <- <-. split; [apply gsteps_refl|discriminate]. }
    inv_bind H as init Hinit.
    set (functionLike := SyntaxKind_eqb (getKind sm init) ArrowFunction
                         || SyntaxKind_eqb (getKind sm init) FunctionExpression) in *.
    destruct (addNodeIsNew_cases d (if functionLike then Function else Object) g)
      as [(n & Hreg & E)|(Hnone & g1 & E & Hg1 & Hreg & Hnext & Hnode)];
      rewrite E in H; simpl in H.
    { injection H as <- <-. split; [apply gsteps_refl|]. now intros ? [= <-]. }
    assert (H01 : gsteps g g1) by (subst g1; apply gsteps_one, gstep_node, Hnone).
    assert (Hsrc : NEXT_NODE_ID g < NEXT_NODE_ID g1) by lia.
    destruct functionLike.
    + destruct (getBody sm init) as [body|]; [|discriminate].
      inv_bind H as g2 Hloop. injection H as <- <-.
      apply linkCalls_gsteps with (g0 := g1) in Hloop;
        [|assumption|discriminate|assumption|apply gsteps_refl].
      split; [eauto using gsteps_trans|].
      intros ? [= <-]. eapply gsteps_registered; eassumption.
    + inv_bind H as g2 Hloop. injection H as <- <-.
      assert (H12 : gsteps g1 g2).
      { revert Hloop. apply forEach_Ok_ind; [|apply gsteps_refl].
        intros ref s s' _ Hs. apply forEach_Ok_ind; [|exact Hs].
        clear s s' Hs. intros reference s s' _ Hs H.
        inv_bind H as temp Htemp. inv_bind H as call Hcall.
        destruct (_ && _).
        - inv_bind H as [callInfo s1] Hc. injection H as <-.
          apply IHcall in Hc. destruct Hc as [Hc _].
          eapply gsteps_step; [eapply gsteps_trans; eassumption|].
          apply gstep_edge; [|discriminate].
          apply gsteps_NEXT_NODE_ID in Hs, Hc. lia.
        - now injection H as <-. }
      split; [eauto using gsteps_trans|].
      intros ? [= <-]. eapply gsteps_registered; eassumption.
  - (* processFunctionDeclaration *)
    intros f g r g' H. simpl in H.
    destruct (addNodeIsNew_cases f Function g)
      as [(n & Hreg & E)|(Hnone & g1 & E & Hg1 & Hreg & Hnext & Hnode)];
      rewrite E in H; simpl in H.
    { injection H as <- <-. split; [apply gsteps_refl|exact Hreg]. }
    inv_bind H as body Hbody. inv_bind H as g2 Hloop. injection H as <- <-.
    assert (H01 : gsteps g g1) by (subst g1; apply gsteps_one, gstep_node, Hnone).
    apply linkCalls_gsteps with (g0 := g1) in Hloop;
      [|assumption|discriminate|lia|apply gsteps_refl].
    split; [eauto using gsteps_trans|].
    eapply gsteps_registered; eassumption.
  - (* processArgument *)
    intros x g r g' H. simpl in H.
    destruct (addNodeIsNew_cases x Argument g)
      as [(n & Hreg & E)|(Hnone & g1 & E & Hg1 & Hreg & Hnext & Hnode)];
      rewrite E in H; simpl in H.
    { injection H as <- <-. split; [apply gsteps_refl|exact Hreg]. }
    inv_bind H as g2 Hloop. injection H as <- <-.
    assert (H01 : gsteps g g1) by (subst g1; apply gsteps_one, gstep_node, Hnone).
    apply linkCalls_gsteps with (g0 := g1) in Hloop;
      [|assumption|discriminate|lia|apply gsteps_refl].
    split; [eauto using gsteps_trans|].
    eapply gsteps_registered; eassumption.
Qed.
End Soundness.

(** ** Processing operations, uniformly *)


Section Uniform.
Variable sm : SourceModel.

Lemma processMethodDeclaration_sound fuel m g r g' :
  processMethodDeclaration sm fuel m g = Ok (r, g') ->
  gsteps g g' /\ registered m r g'.
Proof.
  destruct fuel as [|fuel]; [discriminate|].
  unfold processMethodDeclaration. intros H.
  destruct (addNodeIsNew_cases m Function g)
    as [(n & Hreg & E)|(Hnone & g1 & E & Hg1 & Hreg & Hnext & Hnode)];
    rewrite E in H; simpl in H.
  { injection H as <- <-. split; [apply gsteps_refl|exact Hreg]. }
  inv_bind H as body Hbody. inv_bind H as g2 Hloop. injection H as <- <-.
  assert (H01 : gsteps g g1) by (subst g1; apply gsteps_one, gstep_node, Hnone).
  apply linkCalls_gsteps with (g0 := g1) in Hloop;
    [|apply process_sound|discriminate|lia|apply gsteps_refl].
  split; [eauto using gsteps_trans|].
  eapply gsteps_registered; eassumption.
Qed.

Lemma process_gsteps fuel t g r g' :
  process sm fuel t g = Ok (r, g') ->
  gsteps g g' /\ forall n, r = Some n -> registered (construct_node t) n g'.
Proof.
  destruct (process_sound sm fuel) as (Hcall & Hdef & Hvar & Hfun & Harg).
  destruct t as [m|d eo|c|d|f|a]; simpl; intros H.
  - inv_bind H as [n g1] H1. injection H as <- <-.
    apply processMethodDeclaration_sound in H1. destruct H1.
    split; [assumption|]. now intros ? [= <-].
  - eauto.
  - inv_bind H as [n g1] H1. injection H as <- <-.
    apply Hcall in H1. destruct H1. split; [assumption|]. now intros ? [= <-].
  - eauto.
  - inv_bind H as [n g1] H1. injection H as <- <-.
    apply Hfun in H1. destruct H1. split; [assumption|]. now intros ? [= <-].
  - inv_bind H as [n g1] H1. injection H as <- <-.
    apply Harg in H1. destruct H1. split; [assumption|]. now intros ? [= <-].
Qed.

Lemma builds_gsteps g g' : builds sm g g' -> gsteps g g'.
Proof.
  induction 1 as [|g1 g2 g3 fuel t r _ IH H]; [apply gsteps_refl|].
  apply process_gsteps in H. destruct H. eauto using gsteps_trans.
Qed.

Lemma builds_trans g1 g2 g3 : builds sm g1 g2 -> builds sm g2 g3 -> builds sm g1 g3.
Proof.
  intros H12 H23. induction H23 as [|g2 g3 g4 fuel t r _ IH Hstep]; [assumption|].
  eapply builds_step; [exact (IH H12)|exact Hstep].
Qed.

(** A whole build is a sequence of processing operations. *)
Lemma forEach_builds {A : Type} (l : list A)
  (body : A -> CodeFlowGraph -> Result CodeFlowGraph) g0 :
  (forall x s s', In x l -> body x s = Ok s' -> builds sm s s') ->
  forall s s', builds sm g0 s -> forEach l body s = Ok s' -> builds sm g0 s'.
Proof.
  intros Hbody. apply forEach_Ok_ind.
  intros x s s' Hin Hs H. eapply builds_trans; eauto.
Qed.

Lemma process_builds fuel t g r g' :
  process sm fuel t g = Ok (r, g') -> builds sm g g'.
Proof.
  intros H. eapply builds_step; [apply builds_refl|exact H].
Qed.

Lemma processVariables_builds fuel sourceFile g g' :
processVariables sm fuel sourceFile g = Ok g' -> builds sm g g'.
Proof.
unfold processVariables. apply forEach_builds; [|apply builds_refl].
intros variable t t' _ Hv. inv_bind Hv as statement Hst.
revert Hv. apply forEach_builds; [|apply builds_refl].
intros declaration u u' _ Hd. inv_bind Hd as [r u1] Hp.
injection Hd as <-.
exact (@process_builds fuel (AVariable declaration true) _ _ _ Hp).
Qed.

Lemma processFunctions_builds fuel sourceFile g g' :
processFunctions sm fuel sourceFile g = Ok g' -> builds sm g g'.
Proof.
unfold processFunctions. apply forEach_builds; [|apply builds_refl].
intros func t t' _ Hf. inv_bind Hf as [r t1] Hp. injection Hf as <-.
apply (@process_builds fuel (AFunction func) t (Some r)).
simpl. now rewrite Hp.
Qed.

Lemma processClasses_builds fuel sourceFile g g' :
processClasses sm fuel sourceFile g = Ok g' -> builds sm g g'.
Proof.
unfold processClasses. apply forEach_builds; [|apply builds_refl].
intros class_ t t' _. unfold processClass.
apply forEach_builds; [|apply builds_refl].
intros method u u' _ Hm. inv_bind Hm as [r u1] Hp. injection Hm as <-.
apply (@process_builds fuel (AMethod method) u (Some r)).
simpl. now rewrite Hp.
Qed.

Lemma initialize_builds fuel g g' :
initialize sm fuel g = Ok g' -> builds sm g g'.
Proof.
unfold initialize. apply forEach_builds; [|apply builds_refl].
intros sourceFile s s' _ H.
inv_bind H as s1 Hvars. inv_bind H as s2 Hfuns.
apply builds_trans with s1; [|apply builds_trans with s2].
- eapply processVariables_builds; eauto.
- eapply processFunctions_builds; eauto.
- eapply processClasses_builds; eauto.
Qed.

Lemma initialize_reachable fuel g :
  initialize sm fuel CodeFlowGraph_new = Ok g -> reachable sm g.
Proof. apply initialize_builds. Qed.
End Uniform.

(** ** Argument edges leave Call nodes *)

Lemma EdgeType_eqb_eq a b : EdgeType_eqb a b = true <-> a = b.
Proof. destruct a, b; simpl; split; congruence. Qed.

Lemma NodeType_eqb_eq a b : NodeType_eqb a b = true <-> a = b.
Proof. destruct a, b; simpl; split; congruence. Qed.


Lemma argument_edges_ok_new : argument_edges_ok CodeFlowGraph_new.
Proof. split; simpl; intros; contradiction. Qed.

Lemma gstep_argument_edges_ok g g' :
  gstep g g' -> argument_edges_ok g -> argument_edges_ok g'.
Proof.
  intros Hstep [Hn He]. pose proof Hstep as Hstep'.
  destruct Hstep as [node type g Hnone|s d t g Hs Harg]; split.
  - unfold addNodeIsNew. rewrite Hnone. simpl. intros k n e Hin.
    apply In_map_set in Hin. destruct Hin as [[_ ->]|Hin]; [contradiction|eauto].
  - intros k e Hin.
    assert (Hin' : In (k, e) (edges g))
      by (revert Hin; unfold addNodeIsNew; now rewrite Hnone).
    destruct (He _ _ Hin') as [Hlt Hty]. split.
    + apply gstep_NEXT_NODE_ID in Hstep'. lia.
    + intros Ha. rewrite (gstep_type_of Hstep') by assumption. auto.
  - rewrite addEdge_nodes. intros k n e Hin Hine Hty.
    assert (Hcases :
      exists n0, In (k, n0) (nodes g) /\ node_type n = node_type n0
        /\ (In e (outgoing n0)
            \/ (e = newEdge s d t g /\ map_get s (nodes g) = Some n0))).
    { apply In_map_update in Hin.
      destruct Hin as [Hin|(-> & v & Hv & ->)].
      - apply In_map_update in Hin.
        destruct Hin as [Hin|(-> & v & Hv & ->)].
        + exists n. auto.
        + exists v. split; [now apply map_get_In|]. split; [reflexivity|].
          simpl in Hine. apply in_app_or in Hine.
          destruct Hine as [?|[<-|[]]]; auto.
      - rewrite map_get_update in Hv.
        destruct (Nat.eqb d s) eqn:E.
        + apply Nat.eqb_eq in E; subst d.
          destruct (map_get s (nodes g)) as [v0|] eqn:Hv0; [|discriminate].
          injection Hv as <-. exists v0.
          split; [now apply map_get_In|]. split; [reflexivity|].
          simpl in Hine. apply in_app_or in Hine.
          destruct Hine as [?|[<-|[]]]; auto.
        + exists v. split; [now apply map_get_In|]. split; [reflexivity|].
          now left. }
    destruct Hcases as (n0 & Hin0 & -> & [Hold|[-> Hget]]); [eauto|].
    simpl in Hty. specialize (Harg Hty). unfold type_of in Harg.
    rewrite Hget in Harg. now injection Harg.
  - rewrite addEdge_edges, addEdge_NEXT_NODE_ID. intros k e Hin.
    rewrite addEdge_type_of.
    apply In_map_set in Hin. destruct Hin as [[_ ->]|Hin]; [|eauto].
    simpl. auto.
Qed.

Lemma gsteps_argument_edges_ok g g' :
  gsteps g g' -> argument_edges_ok g -> argument_edges_ok g'.
Proof.
  induction 1; eauto using gstep_argument_edges_ok.
Qed.

Lemma filterOutgoing_Ok type l :
  (forall e, In e l -> edge_type e = ArgumentEdge -> type = Call) ->
  exists l', filterOutgoing type l = Ok l'.
Proof.
  induction l as [|e l IH]; simpl; intros H; [eauto|].
  destruct (EdgeType_eqb (edge_type e) ArgumentEdge && negb (NodeType_eqb type Call))
    eqn:E.
  - apply andb_prop in E. destruct E as [E1 E2].
    apply EdgeType_eqb_eq in E1. rewrite (H e (or_introl eq_refl) E1) in E2.
    discriminate.
  - destruct IH as [l' ->]; [intros; eapply H; eauto|]. simpl. eauto.
Qed.

Lemma nodesToJSON_loop_integrity sm entries :
  (forall k n e,
     In (k, n) entries -> In e (outgoing n) ->
     edge_type e = ArgumentEdge -> node_type n = Call) ->
  nodesToJSON_loop sm entries <> Throw IntegrityError.
Proof.
  induction entries as [|[k n] entries IH]; simpl; intros H; [discriminate|].
  assert (Hnode : nodeToJSON sm n <> Throw IntegrityError).
  { unfold nodeToJSON.
    destruct (@filterOutgoing_Ok (node_type n) (outgoing n)) as [out ->].
    { intros e He Ha. apply (H k n e); [now left|assumption|assumption]. }
    destruct (node_type n); simpl; try discriminate;
      destruct (getSymbolName sm (node_node n)); simpl; discriminate. }
  destruct (nodeToJSON sm n) as [node|err|]; simpl; try congruence.
  assert (Hrest : nodesToJSON_loop sm entries <> Throw IntegrityError)
    by (apply IH; intros k0 n0 e ? ? ?; apply (H k0 n0 e); [now right|assumption|assumption]).
  destruct (nodesToJSON_loop sm entries); simpl; congruence.
Qed.

(** C4: in every graph reached by the builder, every edge of type
    [Argument] in the edge store has a source node of type [Call], and
    the integrity check of [nodesToJSON] ("cannot have argument edges in
    non-Call nodes") does not throw. *)
Theorem argument_edge_source_is_call sm g :
  reachable sm g ->
  (forall k e,
     In (k, e) (edges g) -> edge_type e = ArgumentEdge ->
     type_of (edge_source e) g = Some Call)
  /\ nodesToJSON sm g <> Throw IntegrityError.
Proof.
  intros Hreach. apply builds_gsteps in Hreach.
  apply gsteps_argument_edges_ok in Hreach; [|apply argument_edges_ok_new].
  destruct Hreach as [Hn He]. split.
  - intros k e Hin. now apply He in Hin.
  - apply nodesToJSON_loop_integrity. exact Hn.
Qed.

Lemma argument_edge_source_is_call_witness :
  exists g,
    initialize Tryaway.whole_file 4 CodeFlowGraph_new = Ok g
    /\ reachable Tryaway.whole_file g
    /\ (forall k e,
          In (k, e) (edges g) -> edge_type e = ArgumentEdge ->
          type_of (edge_source e) g = Some Call)
    /\ nodesToJSON Tryaway.whole_file g <> Throw IntegrityError.
Proof.
  eexists. split; [vm_compute; reflexivity|].
  assert (H : reachable Tryaway.whole_file
                (match initialize Tryaway.whole_file 4 CodeFlowGraph_new with
                 | Ok g => g
                 | _ => CodeFlowGraph_new
                 end)).
  { apply initialize_reachable with (fuel := 4). vm_compute. reflexivity. }
  vm_compute in H. split; [exact H|].
  apply argument_edge_source_is_call. exact H.
Defined.

(** ** The registry guard *)

Section Guard.
Variable sm : SourceModel.

Lemma processCallExpression_hit fuel c n g :
  registered c n g -> processCallExpression sm (S fuel) c g = Ok (n, g).
Proof. intros H. simpl. now rewrite (@addNodeIsNew_hit _ _ _ _ H). Qed.

Lemma processFunctionDeclaration_hit fuel f n g :
  registered f n g -> processFunctionDeclaration sm (S fuel) f g = Ok (n, g).
Proof. intros H. simpl. now rewrite (@addNodeIsNew_hit _ _ _ _ H). Qed.

Lemma processArgument_hit fuel a n g :
  registered a n g -> processArgument sm (S fuel) a g = Ok (n, g).
Proof. intros H. simpl. now rewrite (@addNodeIsNew_hit _ _ _ _ H). Qed.

Lemma processMethodDeclaration_hit fuel m n g :
  registered m n g -> processMethodDeclaration sm (S fuel) m g = Ok (n, g).
Proof. intros H. simpl. now rewrite (@addNodeIsNew_hit _ _ _ _ H). Qed.

Lemma processVariableDeclaration_skip fuel d g :
  isExported sm d = false ->
  processVariableDeclaration sm (S fuel) d true g = Ok (None, g).
Proof. intros H. simpl. now rewrite H. Qed.

Lemma processVariableDeclaration_hit fuel d export_only init n g :
  export_only && negb (isExported sm d) = false ->
  getInitializer sm d = Some init ->
  registered d n g ->
  processVariableDeclaration sm (S fuel) d export_only g = Ok (Some n, g).
Proof.
  intros Hexp Hinit H. simpl. rewrite Hexp, Hinit. simpl.
  now rewrite (@addNodeIsNew_hit _ _ _ _ H).
Qed.

(** The two ways [processVariableDeclaration] returns. *)
Lemma processVariableDeclaration_result fuel d export_only g r g' :
  processVariableDeclaration sm fuel d export_only g = Ok (r, g') ->
  (export_only && negb (isExported sm d) = true /\ r = None /\ g' = g)
  \/ (export_only && negb (isExported sm d) = false
      /\ exists init n, getInitializer sm d = Some init /\ r = Some n).
Proof.
  destruct fuel as [|fuel]; [discriminate|]. simpl.
  destruct (export_only && negb (isExported sm d)).
  { intros [= <- <-]. now left. }
  intros H. right. split; [reflexivity|].
  destruct (getInitializer sm d) as [init|]; [|discriminate]. simpl in H.
  exists init.
  destruct (addNodeIsNew d _ g) as [[source isNew] g1].
  destruct isNew; simpl in H.
  - destruct (_ || _).
    + destruct (getBody sm init); [|discriminate].
      inv_bind H as g2 Hloop. injection H as <- <-. eauto.
    + inv_bind H as g2 Hloop. injection H as <- <-. eauto.
  - injection H as <- <-. eauto.
Qed.

Lemma processVariableDeclaration_again fuel fuel' d export_only g r g1 g2 :
  processVariableDeclaration sm fuel d export_only g = Ok (r, g1) ->
  gsteps g1 g2 ->
  processVariableDeclaration sm (S fuel') d export_only g2 = Ok (r, g2).
Proof.
  intros H H12.
  destruct (processVariableDeclaration_result _ _ _ _ H)
    as [(Hexp & -> & ->)|(Hexp & init & n & Hinit & ->)].
  - simpl. now rewrite Hexp.
  - apply process_sound in H. destruct H as [_ H].
    eapply processVariableDeclaration_hit; eauto.
    eapply gsteps_registered; eauto.
Qed.

Lemma processDefinition_again fuel fuel' d g r g1 g2 :
  processDefinition sm fuel d g = Ok (r, g1) ->
  gsteps g1 g2 ->
  processDefinition sm (S (S fuel')) d g2 = Ok (r, g2).
Proof.
  intros H H12. pose proof H as Hsound.
  apply process_sound in Hsound. destruct Hsound as [_ Hreg].
  destruct fuel as [|fuel]; [discriminate|].
  cbn [processDefinition] in *.
  destruct (SyntaxKind_eqb (getKind sm d) VariableDeclaration).
  { eapply processVariableDeclaration_again; eauto. }
  destruct (SyntaxKind_eqb (getKind sm d) FunctionDeclaration).
  { inv_bind H as [n g'] Hf. injection H as <- <-.
    rewrite (@processFunctionDeclaration_hit fuel' d n g2); [reflexivity|].
    eapply gsteps_registered; eauto. }
  assert (exists n, r = Some n) as [n ->].
  { unfold addNode in H. destruct (addNodeIsNew d Any g) as [[n ?] ?].
    injection H as <- <-. eauto. }
  unfold addNode. rewrite (@addNodeIsNew_hit d Any g2 n); [reflexivity|].
  eapply gsteps_registered; eauto.
Qed.

(** C3: a construct processed a second time, at once or later in the
    build, gives the node the first processing returned, and the second
    call leaves the graph as it finds it: no node, no edge, no adjacency
    entry is added. *)
Theorem process_twice_same_node fuel fuel' t g r g1 g2 :
  process sm fuel t g = Ok (r, g1) ->
  builds sm g1 g2 ->
  2 <= fuel' ->
  process sm fuel' t g2 = Ok (r, g2).
Proof.
  intros H H12 Hfuel. apply builds_gsteps in H12.
  destruct fuel' as [|[|fuel']]; try lia. clear Hfuel.
  pose proof (process_gsteps _ _ _ _ H) as [_ Hreg].
  assert (Hreg2 : forall n, r = Some n -> registered (construct_node t) n g2).
  { intros n Hn. eapply gsteps_registered; eauto. }
  destruct t as [m|d eo|c|d|f|a]; cbn [process construct_node] in *.
  - inv_bind H as [n g'] H1. injection H as <- <-.
    now rewrite (@processMethodDeclaration_hit (S fuel') m n g2) by auto.
  - eapply processVariableDeclaration_again; eauto.
  - inv_bind H as [n g'] H1. injection H as <- <-.
    now rewrite (@processCallExpression_hit (S fuel') c n g2) by auto.
  - eapply processDefinition_again; eauto.
  - inv_bind H as [n g'] H1. injection H as <- <-.
    now rewrite (@processFunctionDeclaration_hit (S fuel') f n g2) by auto.
  - inv_bind H as [n g'] H1. injection H as <- <-.
    now rewrite (@processArgument_hit (S fuel') a n g2) by auto.
Qed.
End Guard.

Lemma process_twice_same_node_witness :
  exists r g1,
    process Tryaway.class_only 4 (AMethod Tryaway.method_bar) CodeFlowGraph_new
    = Ok (r, g1)
    /\ builds Tryaway.class_only g1 g1
    /\ 2 <= 2
    /\ process Tryaway.class_only 2 (AMethod Tryaway.method_bar) g1 = Ok (r, g1).
Proof.
  eexists. eexists. split; [vm_compute; reflexivity|].
  split; [apply builds_refl|]. split; [lia|].
  eapply process_twice_same_node with (fuel := 4) (g := CodeFlowGraph_new).
  - vm_compute. reflexivity.
  - apply builds_refl.
  - lia.
Defined.

(** ** The edge registry *)

(** C1 (the code does not do what the claim and the code's own comments
    say): [addEdgeIsNew] looks the pair up with a key that is a new array,
    in a map nothing ever writes to, so the lookup never finds an edge.  A
    second request for a pair already linked creates a second edge with
    the next id, reports it as new, and the edge store and both adjacency
    lists grow. *)
Theorem addEdgeIsNew_second_request_creates :
  let A := 0 in
  let B := 1 in
  let g0 := snd (addNode 101 Call (snd (addNode 100 Function CodeFlowGraph_new))) in
  let '(e1, isNew1, g1) := addEdgeIsNew A B Child g0 in
  let '(e2, isNew2, g2) := addEdgeIsNew A B ArgumentEdge g1 in
  isNew1 = true /\ isNew2 = true
  /\ edge_id e1 = 0 /\ edge_id e2 = 1
  /\ map (fun '(_, e) => (edge_source e, edge_destination e)) (edges g2)
     = [(A, B); (A, B)]
  /\ map edge_id (outgoing_of A g2) = [0; 1]
  /\ map edge_id (incoming_of B g2) = [0; 1].
Proof.
  vm_compute. repeat split.
Qed.

(** The same on every graph: every request is answered with a new edge. *)
Lemma addEdgeIsNew_always_new source destination type g :
  snd (fst (addEdgeIsNew source destination type g)) = true
  /\ edge_id (fst (fst (addEdgeIsNew source destination type g))) = NEXT_EDGE_ID g
  /\ NEXT_EDGE_ID (addEdge source destination type g) = S (NEXT_EDGE_ID g).
Proof.
  unfold addEdge. rewrite addEdgeIsNew_eq. simpl. auto.
Qed.

(** ** First registration fixes the type *)

Section FirstRegistration.
Variable sm : SourceModel.

Lemma processArgument_new fuel a g r g1 :
  map_get a (nodeToInfo g) = None ->
  processArgument sm fuel a g = Ok (r, g1) ->
  r = NEXT_NODE_ID g
  /\ type_of r g1 = Some Argument
  /\ r < NEXT_NODE_ID g1.
Proof.
  intros Hnone H. destruct fuel as [|fuel]; [discriminate|]. simpl in H.
  destruct (addNodeIsNew_cases a Argument g)
    as [(n & Hreg & E)|(_ & g' & E & Hg' & Hreg & Hnext & Hnode)];
    [congruence|].
  rewrite E in H; simpl in H.
  inv_bind H as g2 Hloop. injection H as <- <-.
  apply linkCalls_gsteps with (g0 := g') in Hloop;
    [|apply process_sound|discriminate|lia|apply gsteps_refl].
  split; [reflexivity|].
  rewrite (gsteps_type_of Hloop) by lia.
  apply gsteps_NEXT_NODE_ID in Hloop.
  unfold type_of. rewrite Hnode. split; [reflexivity|lia].
Qed.

(** C9: [addNodeIsNew] on a registered construct returns the registered
    node and the graph as it is, whatever type is requested; so a call
    expression first processed as an argument has an [Argument] node,
    and [processCallExpression] on it, at any later point of the build,
    returns that node, still of type [Argument], and creates no [Call]
    node. *)
Theorem first_registration_fixes_type :
  (forall node type g n,
     registered node n g -> addNodeIsNew node type g = (n, false, g))
  /\ (forall fuel fuel' call g r g1 g2,
        map_get call (nodeToInfo g) = None ->
        processArgument sm fuel call g = Ok (r, g1) ->
        builds sm g1 g2 ->
        type_of r g2 = Some Argument
        /\ processCallExpression sm (S fuel') call g2 = Ok (r, g2)).
Proof.
  split.
  - intros node type g n H. now apply addNodeIsNew_hit.
  - intros fuel fuel' call g r g1 g2 Hnone H H12.
    apply builds_gsteps in H12.
    destruct (@processArgument_new _ _ _ _ _ Hnone H) as (_ & Hty & Hlt).
    apply process_sound in H. destruct H as [_ Hreg]. split.
    + now rewrite (gsteps_type_of H12).
    + apply processCallExpression_hit. eapply gsteps_registered; eauto.
Qed.
End FirstRegistration.

Lemma first_registration_fixes_type_witness :
  exists r g1,
    map_get Tryaway.call_inner (nodeToInfo CodeFlowGraph_new) = None
    /\ processArgument Tryaway.class_only 2 Tryaway.call_inner CodeFlowGraph_new
       = Ok (r, g1)
    /\ type_of r g1 = Some Argument
    /\ processCallExpression Tryaway.class_only 1 Tryaway.call_inner g1 = Ok (r, g1).
Proof.
  eexists. eexists. split; [reflexivity|]. split; [vm_compute; reflexivity|].
  pose proof (proj2 (first_registration_fixes_type Tryaway.class_only)) as H.
  eapply H with (fuel := 2) (g := CodeFlowGraph_new).
  - reflexivity.
  - vm_compute. reflexivity.
  - apply builds_refl.
Defined.

(** ** Exported-only pruning *)

(** C8: [processVariableDeclaration] with [export_only] true, on a
    declaration that is not exported, returns [undefined] and leaves the
    graph as it is, whatever the initializer query would answer; and in
    the build of a file with a non-exported [helper] that no call names as
    a bare identifier, no node is registered or stored for [helper]. *)
Theorem non_exported_variable_has_no_node :
  (forall sm fuel declaration g,
     isExported sm declaration = false ->
     processVariableDeclaration sm (S fuel) declaration true g = Ok (None, g))
  /\ (exists g,
        initialize Helper.never_called 4 CodeFlowGraph_new = Ok g
        /\ node_of Helper.decl_helper g = None
        /\ forall n t, ~ is_node g n Helper.decl_helper t).
Proof.
  split.
  - intros sm fuel declaration g H. now apply processVariableDeclaration_skip.
  - eexists. split; [vm_compute; reflexivity|]. split; [reflexivity|].
    intros n t (info & Hin & Hnode & _). simpl in Hin.
    destruct Hin as [[= <- <-]|[[= <- <-]|[[= <- <-]|[]]]]; discriminate.
Qed.

Lemma non_exported_variable_has_no_node_witness :
  isExported Helper.never_called Helper.decl_helper = false
  /\ processVariableDeclaration Helper.never_called 1 Helper.decl_helper true
       CodeFlowGraph_new = Ok (None, CodeFlowGraph_new).
Proof.
  split; [reflexivity|].
  apply (proj1 non_exported_variable_has_no_node). reflexivity.
Defined.

(** ** A bare-identifier callee that resolves to a variable that is not
    exported *)

Lemma processDefinition_unexported sm fuel definition g :
  getKind sm definition = VariableDeclaration ->
  isExported sm definition = false ->
  processDefinition sm (S (S fuel)) definition g = Ok (None, g).
Proof.
  intros Hk He. cbn [processDefinition]. rewrite Hk. cbn [SyntaxKind_eqb].
  now apply processVariableDeclaration_skip.
Qed.

(** C10: when the callee of a call not yet registered is a bare
    identifier whose first definition node is a variable declaration that
    is not exported, [processDefinition] returns [undefined] for it and
    [processCallExpression] throws a [TypeError] on reading [outgoing];
    the build of [helper(helper)] with a non-exported [helper] ends that
    way. *)
Theorem unexported_definition_throws :
  (forall sm fuel call g definition rest,
     map_get call (nodeToInfo g) = None ->
     getKind sm (getExpression sm call) = Identifier ->
     getDefinitionNodes sm (getExpression sm call) = definition :: rest ->
     getKind sm definition = VariableDeclaration ->
     isExported sm definition = false ->
     (forall g', processDefinition sm (S (S fuel)) definition g' = Ok (None, g'))
     /\ processCallExpression sm (S (S (S fuel))) call g = Throw TypeError)
  /\ initialize Helper.called 4 CodeFlowGraph_new = Throw TypeError.
Proof.
  split; [|reflexivity].
  intros sm fuel call g definition rest Hnone Hid Hdefs Hk He. split.
  - intros g'. now apply processDefinition_unexported.
  - cbn [processCallExpression]. unfold addNodeIsNew. rewrite Hnone.
    cbn [negb]. rewrite Hid, Hdefs. cbn [SyntaxKind_eqb forEach].
    now rewrite processDefinition_unexported.
Qed.

Lemma unexported_definition_throws_witness :
  map_get Helper.call_main (nodeToInfo CodeFlowGraph_new) = None
  /\ getKind Helper.called (getExpression Helper.called Helper.call_main) = Identifier
  /\ getDefinitionNodes Helper.called (getExpression Helper.called Helper.call_main)
     = [Helper.decl_helper]
  /\ getKind Helper.called Helper.decl_helper = VariableDeclaration
  /\ isExported Helper.called Helper.decl_helper = false
  /\ processCallExpression Helper.called 3 Helper.call_main CodeFlowGraph_new
     = Throw TypeError.
Proof.
  repeat (split; [reflexivity|]).
  apply (proj1 unexported_definition_throws Helper.called 0 Helper.call_main
           CodeFlowGraph_new Helper.decl_helper []); reflexivity.
Defined.

(** ** Flattening *)

Lemma skipn_nth_error {A : Type} (l : list A) : forall i,
  skipn i l =
  match nth_error l i with
  | Some x => x :: skipn (S i) l
  | None => []
  end.
Proof.
  induction l as [|x l IH]; intros [|i]; simpl; auto.
Qed.

Lemma spliceOutgoing_S fuel i source definitionInfo g :
  spliceOutgoing (S fuel) i source definitionInfo g =
  match nth_error (outgoing_of definitionInfo g) i with
  | None => Ok g
  | Some edge =>
      spliceOutgoing fuel (S i) source definitionInfo
        (addEdge source (edge_destination edge) Child g)
  end.
Proof. reflexivity. Qed.

Lemma spliceOutgoing_skipn source definitionInfo fuel : forall i g,
  definitionInfo <> source ->
  List.length (outgoing_of definitionInfo g) <= fuel + i ->
  spliceOutgoing (S fuel) i source definitionInfo g =
  Ok (spliced source (skipn i (outgoing_of definitionInfo g)) g).
Proof.
  induction fuel as [|fuel IH]; intros i g Hne Hlen;
    rewrite spliceOutgoing_S, (skipn_nth_error (outgoing_of definitionInfo g) i).
  - destruct (nth_error (outgoing_of definitionInfo g) i) as [edge|] eqn:E;
      [|reflexivity].
    assert (i < List.length (outgoing_of definitionInfo g))
      by (apply nth_error_Some; congruence).
    simpl in Hlen. lia.
  - destruct (nth_error (outgoing_of definitionInfo g) i) as [edge|] eqn:E;
      [|reflexivity].
    assert (Hout : outgoing_of definitionInfo
                     (addEdge source (edge_destination edge) Child g)
                   = outgoing_of definitionInfo g).
    { rewrite addEdge_outgoing_of.
      apply Nat.eqb_neq in Hne. now rewrite Hne. }
    rewrite IH; [|assumption|rewrite Hout; lia].
    now rewrite Hout.
Qed.

Lemma spliced_outgoing source l : forall g,
  map_get source (nodes g) <> None ->
  edge_shape (outgoing_of source (spliced source l g)) =
  edge_shape (outgoing_of source g)
  ++ map (fun e => (Child, edge_destination e)) l.
Proof.
  unfold edge_shape.
  induction l as [|e l IH]; intros g Hsrc; simpl.
  - now rewrite app_nil_r.
  - assert (Hout : outgoing_of source (addEdge source (edge_destination e) Child g)
                   = outgoing_of source g
                     ++ [newEdge source (edge_destination e) Child g]).
    { rewrite addEdge_outgoing_of, Nat.eqb_refl.
      destruct (map_get source (nodes g)); [reflexivity|congruence]. }
    unfold spliced in *. simpl. rewrite IH.
    + rewrite Hout, map_app, <- app_assoc. reflexivity.
    + intros Hnone.
      assert (Hnil : outgoing_of source (addEdge source (edge_destination e) Child g)
                     = [])
        by (unfold outgoing_of; now rewrite Hnone).
      rewrite Hnil in Hout. destruct (outgoing_of source g); discriminate.
Qed.

Lemma processCallExpression_identifier sm fuel call g :
  map_get call (nodeToInfo g) = None ->
  getKind sm (getExpression sm call) = Identifier ->
  processCallExpression sm (S fuel) call g =
  let source := NEXT_NODE_ID g in
  g <- forEach (getDefinitionNodes sm (getExpression sm call))
         (fun definition g =>
            '(definitionInfo, g) <- processDefinition sm fuel definition g ;;
            match definitionInfo with
            | None => Throw TypeError
            | Some definitionInfo => spliceOutgoing fuel 0 source definitionInfo g
            end) (snd (addNodeIsNew call Call g)) ;;
  g <- forEach (getArguments sm call)
         (fun arg g =>
            '(argInfo, g) <- processArgument sm fuel arg g ;;
            Ok (addEdge source argInfo ArgumentEdge g)) g ;;
  Ok (source, g).
Proof.
  intros Hnone Hk. cbn [processCallExpression].
  unfold addNodeIsNew. rewrite Hnone. cbn [negb snd]. now rewrite Hk.
Qed.

(** C5, as the code has it: a new call whose callee is a bare identifier
    runs, for each definition node in turn, [processDefinition] and then
    the splicing loop on the node returned; and for a definition node
    other than the call node, the splicing loop adds one [Child] edge
    from the call node for each outgoing edge of the definition node,
    whatever the type of that edge, to its destination.  No edge to the
    definition node itself is added unless it is one of those
    destinations. *)
Theorem splice_every_outgoing_edge :
  (forall sm fuel call g,
     map_get call (nodeToInfo g) = None ->
     getKind sm (getExpression sm call) = Identifier ->
     processCallExpression sm (S fuel) call g =
     let source := NEXT_NODE_ID g in
     g <- forEach (getDefinitionNodes sm (getExpression sm call))
            (fun definition g =>
               '(definitionInfo, g) <- processDefinition sm fuel definition g ;;
               match definitionInfo with
               | None => Throw TypeError
               | Some definitionInfo =>
                   spliceOutgoing fuel 0 source definitionInfo g
               end) (snd (addNodeIsNew call Call g)) ;;
     g <- forEach (getArguments sm call)
            (fun arg g =>
               '(argInfo, g) <- processArgument sm fuel arg g ;;
               Ok (addEdge source argInfo ArgumentEdge g)) g ;;
     Ok (source, g))
  /\ (forall fuel source definitionInfo g,
        definitionInfo <> source ->
        map_get source (nodes g) <> None ->
        List.length (outgoing_of definitionInfo g) < fuel ->
        exists g',
          spliceOutgoing fuel 0 source definitionInfo g = Ok g'
          /\ g' = spliced source (outgoing_of definitionInfo g) g
          /\ edge_shape (outgoing_of source g') =
             edge_shape (outgoing_of source g)
             ++ map (fun e => (Child, edge_destination e))
                  (outgoing_of definitionInfo g)).
Proof.
  split.
  - intros sm fuel call g. apply processCallExpression_identifier.
  - intros fuel source definitionInfo g Hne Hsrc Hlen.
    eexists. split; [|split; [reflexivity|]].
    + destruct fuel as [|fuel]; [lia|].
      rewrite spliceOutgoing_skipn by (assumption || lia). reflexivity.
    + now apply spliced_outgoing.
Qed.

(** In the build of the called object: the definition node of [obj] has
    one outgoing edge, of type [Call]; the node of the call [obj()] gets a
    [Child] edge to its destination. *)
Lemma splice_takes_call_edge :
  exists g,
    initialize CalledObject.model 4 CodeFlowGraph_new = Ok g
    /\ node_of CalledObject.decl_obj g = Some 0
    /\ node_of CalledObject.call_obj g = Some 3
    /\ edge_shape (outgoing_of 0 g) = [(CallEdge, 1)]
    /\ edge_shape (outgoing_of 3 g) = [(Child, 1)]
    /\ ~ splices_child_edges_only g 3 0.
Proof.
  eexists. split; [vm_compute; reflexivity|].
  repeat (split; [reflexivity|]).
  intros H. apply (H 1). now left.
Qed.

Lemma splice_every_outgoing_edge_witness :
  let g0 :=
    snd (addNode CalledObject.call_obj Call
           (addEdge 0 1 CallEdge
              (snd (addNode CalledObject.call_run Call
                      (snd (addNode CalledObject.decl_obj Object
                              CodeFlowGraph_new)))))) in
  0 <> 2
  /\ map_get 2 (nodes g0) <> None
  /\ List.length (outgoing_of 0 g0) < 2
  /\ exists g',
       spliceOutgoing 2 0 2 0 g0 = Ok g'
       /\ g' = spliced 2 (outgoing_of 0 g0) g0
       /\ edge_shape (outgoing_of 2 g') =
          edge_shape (outgoing_of 2 g0)
          ++ map (fun e => (Child, edge_destination e)) (outgoing_of 0 g0).
Proof.
  intros g0.
  assert (H1 : 0 <> 2) by discriminate.
  assert (H2 : map_get 2 (nodes g0) <> None) by (vm_compute; discriminate).
  assert (H3 : List.length (outgoing_of 0 g0) < 2) by (vm_compute; lia).
  repeat (split; [assumption|]).
  exact (proj2 splice_every_outgoing_edge 2 2 0 g0 H1 H2 H3).
Defined.

(** ** The analysed file *)

(** C2, as the code has it: in the build of the class alone there are a
    [Function] node for [bar], one [Call] node, for the outer call, an
    [Any] node for the parameter [callback] the outer callee resolves to,
    and one node for the inner call expression, of type [Argument];
    [bar] has a [Child] edge to the outer call node and one to the node of
    the inner call expression, the outer call node has an [Argument] edge
    to it, and that node has no outgoing edge. *)
Theorem scenarioA_built :
  exists g,
    initialize Tryaway.class_only 4 CodeFlowGraph_new = Ok g
    /\ node_of Tryaway.method_bar g = Some 0
    /\ node_of Tryaway.call_outer g = Some 1
    /\ node_of Tryaway.param_callback g = Some 2
    /\ node_of Tryaway.call_inner g = Some 3
    /\ map (fun '(_, n) => node_type n) (nodes g) = [Function; Call; Any; Argument]
    /\ edge_shape (outgoing_of 0 g) = [(Child, 1); (Child, 3)]
    /\ edge_shape (outgoing_of 1 g) = [(ArgumentEdge, 3)]
    /\ outgoing_of 2 g = []
    /\ outgoing_of 3 g = []
    /\ List.length (edges g) = 3.
Proof.
  eexists. split; [vm_compute; reflexivity|].
  repeat split.
Qed.

(** The build does not give what the specification expects: there is no
    [Call] node for the inner call. *)
Lemma scenarioA_not_as_expected :
  exists g,
    initialize Tryaway.class_only 4 CodeFlowGraph_new = Ok g
    /\ ~ scenarioA_expected g.
Proof.
  eexists. split; [vm_compute; reflexivity|].
  intros (n_bar & n_outer & n_inner & n_arg & _ & _ & (info & Hin & Hc & Ht) & _).
  simpl in Hin.
  destruct Hin as [[= <- <-]|[[= <- <-]|[[= <- <-]|[[= <- <-]|[]]]]];
    discriminate.
Qed.

Lemma processCallExpression_not_identifier sm fuel call g :
  getKind sm (getExpression sm call) <> Identifier ->
  processCallExpression sm (S fuel) call g =
  let '(source, isNew, g) := addNodeIsNew call Call g in
  if negb isNew then Ok (source, g) else
  g <- forEach (getArguments sm call)
         (fun arg g =>
            '(argInfo, g) <- processArgument sm fuel arg g ;;
            Ok (addEdge source argInfo ArgumentEdge g)) g ;;
  Ok (source, g).
Proof.
  intros Hk. cbn [processCallExpression].
  destruct (addNodeIsNew call Call g) as [[source isNew] g1].
  destruct (negb isNew); [reflexivity|].
  destruct (getKind sm (getExpression sm call)); try reflexivity.
  congruence.
Qed.

(** C7: in the build of the whole file there are one [Object] node, for
    [foo]; a [Call] node for [foo.bar(5, double)] with a [Call] edge from
    the node of [foo]; an [Argument] node for [5] and one for [double],
    each with an [Argument] edge from the call node; the call node has no
    other outgoing edge, so no [Child] edge to the node of [bar].  The
    callee is a property access, and for a callee that is not an
    identifier [processCallExpression] registers the call and processes
    its arguments, and resolves nothing. *)
Theorem scenarioB_built :
  (exists g,
     initialize Tryaway.whole_file 4 CodeFlowGraph_new = Ok g
     /\ node_type_of Tryaway.decl_foo g = Some Object
     /\ count_type Object g = 1
     /\ node_of Tryaway.decl_foo g = Some 1
     /\ node_of Tryaway.call_foo_bar g = Some 2
     /\ node_type_of Tryaway.call_foo_bar g = Some Call
     /\ edge_shape (outgoing_of 1 g) = [(CallEdge, 2)]
     /\ node_of Tryaway.arg_5 g = Some 3
     /\ node_of Tryaway.arg_double g = Some 4
     /\ node_type_of Tryaway.arg_5 g = Some Argument
     /\ node_type_of Tryaway.arg_double g = Some Argument
     /\ edge_shape (outgoing_of 2 g) = [(ArgumentEdge, 3); (ArgumentEdge, 4)]
     /\ node_of Tryaway.method_bar g = Some 5
     /\ has_edge g 2 5 Child = false
     /\ child_destinations 2 g = [])
  /\ getKind Tryaway.whole_file (getExpression Tryaway.whole_file Tryaway.call_foo_bar)
     = PropertyAccessExpression
  /\ (forall sm fuel call g,
        getKind sm (getExpression sm call) <> Identifier ->
        processCallExpression sm (S fuel) call g =
        let '(source, isNew, g) := addNodeIsNew call Call g in
        if negb isNew then Ok (source, g) else
        g <- forEach (getArguments sm call)
               (fun arg g =>
                  '(argInfo, g) <- processArgument sm fuel arg g ;;
                  Ok (addEdge source argInfo ArgumentEdge g)) g ;;
        Ok (source, g)).
Proof.
  split; [|split; [reflexivity|]].
  - eexists. split; [vm_compute; reflexivity|].
    repeat split.
  - intros sm fuel call g Hk. now apply processCallExpression_not_identifier.
Qed.

Lemma scenarioB_built_witness :
  getKind Tryaway.whole_file (getExpression Tryaway.whole_file Tryaway.call_foo_bar)
  <> Identifier
  /\ processCallExpression Tryaway.whole_file 2 Tryaway.call_foo_bar CodeFlowGraph_new
     = let '(source, isNew, g) :=
         addNodeIsNew Tryaway.call_foo_bar Call CodeFlowGraph_new in
       if negb isNew then Ok (source, g) else
       g <- forEach (getArguments Tryaway.whole_file Tryaway.call_foo_bar)
              (fun arg g =>
                 '(argInfo, g) <- processArgument Tryaway.whole_file 1 arg g ;;
                 Ok (addEdge source argInfo ArgumentEdge g)) g ;;
       Ok (source, g).
Proof.
  split; [discriminate|].
  apply (proj2 (proj2 scenarioB_built)). discriminate.
Defined.

(** ** Fuel *)

Lemma refines_refl {A : Type} (r : Result A) : refines r r.
Proof. now intros _. Qed.

Lemma refines_OutOfFuel {A : Type} (r : Result A) : refines OutOfFuel r.
Proof. now intros H. Qed.

Lemma refines_bind {A B : Type} (m m' : Result A) (k k' : A -> Result B) :
  refines m m' -> (forall a, refines (k a) (k' a)) ->
  refines (bind m k) (bind m' k').
Proof.
  intros Hm Hk H. destruct m as [a| |]; simpl in *.
  - rewrite Hm by discriminate. simpl. now apply Hk.
  - now rewrite Hm.
  - contradiction.
Qed.

Lemma refines_forEach {A S : Type} (l : list A) (body body' : A -> S -> Result S) :
  (forall x s, refines (body x s) (body' x s)) ->
  forall s, refines (forEach l body s) (forEach l body' s).
Proof.
  intros Hb. induction l as [|x l IH]; intros s; simpl.
  - apply refines_refl.
  - apply refines_bind; auto.
Qed.

Lemma spliceOutgoing_refines f : forall f' i source definitionInfo g,
  f <= f' ->
  refines (spliceOutgoing f i source definitionInfo g)
          (spliceOutgoing f' i source definitionInfo g).
Proof.
  induction f as [|f IH]; intros f' i source d g Hle.
  - apply refines_OutOfFuel.
  - destruct f' as [|f']; [lia|]. rewrite !spliceOutgoing_S.
    destruct (nth_error (outgoing_of d g) i); [|apply refines_refl].
    apply IH. lia.
Qed.

Ltac refines_step :=
  match goal with
  | |- refines (bind _ _) (bind _ _) => apply refines_bind
  | |- refines (forEach _ _ _) (forEach _ _ _) => apply refines_forEach
  | |- refines (spliceOutgoing _ _ _ _ _) (spliceOutgoing _ _ _ _ _) =>
      apply spliceOutgoing_refines; lia
  | |- refines (if ?b then _ else _) (if ?b then _ else _) => destruct b
  | |- refines (match ?x with _ => _ end) (match ?x with _ => _ end) => destruct x
  | |- refines (let '(_, _) := ?x in _) _ => destruct x
  | |- refines ?r ?r => apply refines_refl
  | |- forall _, _ => intro
  end.

Lemma process_refines sm f : forall f', f <= f' ->
  (forall c g, refines (processCallExpression sm f c g)
                       (processCallExpression sm f' c g))
  /\ (forall d g, refines (processDefinition sm f d g)
                          (processDefinition sm f' d g))
  /\ (forall d e g, refines (processVariableDeclaration sm f d e g)
                            (processVariableDeclaration sm f' d e g))
  /\ (forall x g, refines (processFunctionDeclaration sm f x g)
                          (processFunctionDeclaration sm f' x g))
  /\ (forall a g, refines (processArgument sm f a g)
                          (processArgument sm f' a g)).
Proof.
  induction f as [|f IH]; intros f' Hle.
  { repeat split; intros; apply refines_OutOfFuel. }
  destruct f' as [|f']; [lia|].
  destruct (IH f') as (IHcall & IHdef & IHvar & IHfun & IHarg); [lia|].
  repeat split; intros; simpl;
    repeat first [ apply IHcall | apply IHdef | apply IHvar | apply IHfun
                 | apply IHarg | refines_step ].
Qed.

Lemma terminates_S {A : Type} (run : nat -> Result A) :
  terminates (fun f => run (S f)) -> terminates run.
Proof. intros [f H]. now exists (S f). Qed.

Lemma terminates_const {A : Type} (r : Result A) :
  r <> OutOfFuel -> terminates (fun _ => r).
Proof. intros H. now exists 0. Qed.

Lemma terminates_seq {A B : Type} (run1 : nat -> Result A)
  (run2 : A -> nat -> Result B) :
  (forall f f', f <= f' -> refines (run1 f) (run1 f')) ->
  (forall a f f', f <= f' -> refines (run2 a f) (run2 a f')) ->
  terminates run1 ->
  (forall f a, run1 f = Ok a -> terminates (run2 a)) ->
  terminates (fun f => bind (run1 f) (fun a => run2 a f)).
Proof.
  intros M1 M2 [f1 H1] H2.
  destruct (run1 f1) as [a|e|] eqn:E1; [| |contradiction].
  - destruct (H2 _ _ E1) as [f2 Hf2].
    exists (Nat.max f1 f2).
    rewrite (M1 f1 (Nat.max f1 f2)) by (lia || congruence).
    rewrite E1. simpl.
    rewrite (M2 a f2 (Nat.max f1 f2)) by (lia || assumption). assumption.
  - exists f1. rewrite E1. discriminate.
Qed.

Lemma forEach_terminates {A S : Type} (I : S -> Prop) (l : list A)
  (body : nat -> A -> S -> Result S) :
  (forall f f' x s, f <= f' -> refines (body f x s) (body f' x s)) ->
  (forall x s, In x l -> I s -> terminates (fun f => body f x s)) ->
  (forall f x s s', In x l -> I s -> body f x s = Ok s' -> I s') ->
  forall s, I s -> terminates (fun f => forEach l (body f) s).
Proof.
  intros Hmono. induction l as [|x l IH]; intros Hterm Hpres s Hs; simpl.
  - now apply terminates_const.
  - apply terminates_seq with (run1 := fun f => body f x s)
                             (run2 := fun s' f => forEach l (body f) s').
    + intros. now apply Hmono.
    + intros. apply refines_forEach. intros. now apply Hmono.
    + apply Hterm; [now left|assumption].
    + intros f s' Hf. apply IH.
      * intros y t Hy. apply Hterm. now right.
      * intros f0 y t t' Hy. apply Hpres. now right.
      * eapply Hpres; [now left|exact Hs|exact Hf].
Qed.

(** ** The registry during a build *)

Lemma registry_ok_new : registry_ok CodeFlowGraph_new.
Proof. split; unfold registered; simpl; intros; discriminate. Qed.

Lemma gstep_registry_ok g g' : gstep g g' -> registry_ok g -> registry_ok g'.
Proof.
  intros [node type g0 Hnone|s d t g0 _ _] [Hlt Hinj].
  - unfold registry_ok, registered, addNodeIsNew. rewrite Hnone. simpl. split.
    + intros c n. destruct (Nat.eq_dec c node) as [->|Hne].
      * rewrite map_get_set_same. intros [= <-]. lia.
      * rewrite map_get_set_other by assumption. intros H.
        apply Hlt in H. lia.
    + intros c c' n.
      destruct (Nat.eq_dec c node) as [->|Hne];
        destruct (Nat.eq_dec c' node) as [->|Hne']; [reflexivity| | |].
      * rewrite map_get_set_same, map_get_set_other by assumption.
        intros [= <-] H. apply Hlt in H. lia.
      * rewrite map_get_set_same, map_get_set_other by assumption.
        intros H [= <-]. apply Hlt in H. lia.
      * rewrite !map_get_set_other by assumption. apply Hinj.
  - unfold registry_ok, registered.
    rewrite addEdge_nodeToInfo, addEdge_NEXT_NODE_ID. now split.
Qed.

Lemma gsteps_registry_ok g g' : gsteps g g' -> registry_ok g -> registry_ok g'.
Proof. induction 1; eauto using gstep_registry_ok. Qed.

Lemma addEdge_registry_ok s d t g : registry_ok g -> registry_ok (addEdge s d t g).
Proof.
  unfold registry_ok, registered.
  now rewrite addEdge_nodeToInfo, addEdge_NEXT_NODE_ID.
Qed.

Lemma filter_length_mono {A : Type} (p q : A -> bool) (l : list A) :
  (forall x, In x l -> p x = true -> q x = true) ->
  List.length (filter p l) <= List.length (filter q l).
Proof.
  induction l as [|x l IH]; simpl; intros H; [lia|].
  assert (IH' : List.length (filter p l) <= List.length (filter q l))
    by (apply IH; intros; apply H; auto).
  destruct (p x) eqn:Ep.
  - rewrite (H x (or_introl eq_refl) Ep). simpl. lia.
  - destruct (q x); simpl; lia.
Qed.

Lemma filter_length_strict {A : Type} (p q : A -> bool) (l : list A) (a : A) :
  (forall x, In x l -> p x = true -> q x = true) ->
  In a l -> p a = false -> q a = true ->
  List.length (filter p l) < List.length (filter q l).
Proof.
  induction l as [|x l IH]; simpl; intros H Hin Hp Hq; [contradiction|].
  assert (Hle : List.length (filter p l) <= List.length (filter q l))
    by (apply filter_length_mono; intros; apply H; auto).
  destruct Hin as [->|Hin].
  - rewrite Hp, Hq. simpl. lia.
  - assert (IH' : List.length (filter p l) < List.length (filter q l))
      by (apply IH; auto).
    destruct (p x) eqn:Ep.
    + rewrite (H x (or_introl eq_refl) Ep). simpl. lia.
    + destruct (q x); simpl; lia.
Qed.

Lemma unregistered_le N g g' :
  (forall c n, registered c n g -> registered c n g') ->
  unregistered N g' <= unregistered N g.
Proof.
  intros Hext. apply filter_length_mono. intros x _.
  destruct (map_get x (nodeToInfo g)) as [n|] eqn:E; [|reflexivity].
  apply Hext in E. unfold registered in E. now rewrite E.
Qed.

Lemma unregistered_lt N g g' c n :
  (forall c n, registered c n g -> registered c n g') ->
  c < N -> map_get c (nodeToInfo g) = None -> registered c n g' ->
  unregistered N g' < unregistered N g.
Proof.
  intros Hext Hc Hnone Hreg. apply filter_length_strict with (a := c).
  - intros x _.
    destruct (map_get x (nodeToInfo g)) as [k|] eqn:E; [|reflexivity].
    apply Hext in E. unfold registered in E. now rewrite E.
  - apply in_seq. lia.
  - unfold registered in Hreg. now rewrite Hreg.
  - now rewrite Hnone.
Qed.

Lemma gsteps_unregistered N g g' : gsteps g g' -> unregistered N g' <= unregistered N g.
Proof.
  intros H. apply unregistered_le. intros c n. now apply gsteps_registered.
Qed.

Lemma addEdge_unregistered N s d t g :
  unregistered N (addEdge s d t g) = unregistered N g.
Proof. unfold unregistered. now rewrite addEdge_nodeToInfo. Qed.

(** ** Termination of the traversal *)

Ltac solve_refines_with sm extra :=
  let Rc := fresh "Rc" in
  let Rd := fresh "Rd" in
  let Rv := fresh "Rv" in
  let Rf := fresh "Rf" in
  let Ra := fresh "Ra" in
  intros;
  match goal with
  | Hle : ?f <= ?f' |- _ =>
      destruct (@process_refines sm f f' Hle) as (Rc & Rd & Rv & Rf & Ra)
  end;
  repeat first [ apply Rc | apply Rd | apply Rv | apply Rf | apply Ra
               | extra | refines_step ].

Lemma processMethodDeclaration_refines sm f f' x g :
  f <= f' ->
  refines (processMethodDeclaration sm f x g) (processMethodDeclaration sm f' x g).
Proof.
  intros Hle. destruct f as [|f]; [apply refines_OutOfFuel|].
  destruct f' as [|f']; [lia|]. simpl.
  assert (Hle' : f <= f') by lia. clear Hle. solve_refines_with sm fail.
Qed.

Ltac solve_refines sm :=
  solve_refines_with sm ltac:(apply processMethodDeclaration_refines; assumption).

Section Termination.
Variable sm : SourceModel.
Variable N : nat.
Hypothesis Hclosed : closed sm N = true.
Hypothesis Hself : no_self_definition sm N = true.

Lemma successors_lt x y : x < N -> In y (successors sm x) -> y < N.
Proof.
intros Hx Hy. unfold closed in Hclosed.
apply andb_prop in Hclosed. destruct Hclosed as [_ H].
rewrite forallb_forall in H.
assert (Hin : In x (seq 0 N)) by (apply in_seq; lia).
specialize (H x Hin). rewrite forallb_forall in H.
apply Nat.ltb_lt. now apply H.
Qed.

Lemma entry_points_lt x : In x (entry_points sm) -> x < N.
Proof.
intros Hx. unfold closed in Hclosed.
apply andb_prop in Hclosed. destruct Hclosed as [H _].
rewrite forallb_forall in H. apply Nat.ltb_lt. now apply H.
Qed.

Lemma not_self_definition c : c < N -> ~ In c (definitions sm c).
Proof.
intros Hc Hin. unfold no_self_definition in Hself.
rewrite forallb_forall in Hself.
assert (Hseq : In c (seq 0 N)) by (apply in_seq; lia).
specialize (Hself c Hseq). apply negb_true_iff in Hself.
assert (Hex : existsb (Nat.eqb c) (definitions sm c) = true).
{ apply existsb_exists. exists c. split; [assumption|apply Nat.eqb_refl]. }
congruence.
Qed.

Lemma level_gsteps m s s' : gsteps s s' -> level N m s -> level N m s'.
Proof.
intros H [Hok Hm]. split; [eauto using gsteps_registry_ok|].
pose proof (gsteps_unregistered N H). lia.
Qed.

Lemma level_addEdge m a b t s : level N m s -> level N m (addEdge a b t s).
Proof.
intros [Hok Hm]. split; [now apply addEdge_registry_ok|].
now rewrite addEdge_unregistered.
Qed.

Lemma level_le m m' s : m <= m' -> level N m s -> level N m' s.
Proof. intros Hle [Hok Hm]. split; [assumption|lia]. Qed.

(** Registering a construct below [N] lowers the level. *)
Lemma level_new_node m x type s :
level N m s -> x < N -> map_get x (nodeToInfo s) = None ->
exists m', m' < m /\ level N m' (snd (addNodeIsNew x type s)).
Proof.
intros [Hok Hm] Hx Hnone.
assert (Hstep : gstep s (snd (addNodeIsNew x type s))) by now apply gstep_node.
exists (unregistered N (snd (addNodeIsNew x type s))). split.
- assert (unregistered N (snd (addNodeIsNew x type s)) < unregistered N s); [|lia].
  apply unregistered_lt with (c := x) (n := NEXT_NODE_ID s); auto.
  + intros c n. now apply gstep_registered.
  + unfold registered, addNodeIsNew. rewrite Hnone. simpl.
    apply map_get_set_same.
- split; [eauto using gstep_registry_ok|lia].
Qed.

Lemma linkCalls_terminates m type source calls :
calls_terminate sm N m ->
(forall call, In call calls -> call < N) ->
forall s, level N m s ->
terminates
  (fun f =>
     forEach calls
       (fun call g =>
          '(callInfo, g) <- processCallExpression sm f call g ;;
          Ok (addEdge source callInfo type g)) s).
Proof.
intros Hcalls Hlt.
apply forEach_terminates
  with (body := fun f call g =>
                  '(callInfo, g) <- processCallExpression sm f call g ;;
                  Ok (addEdge source callInfo type g)).
- solve_refines sm.
- intros call s Hin Hs.
  apply terminates_seq
    with (run1 := fun f => processCallExpression sm f call s)
         (run2 := fun x (_ : nat) =>
                    let '(callInfo, g) := x in
                    Ok (addEdge source callInfo type g)).
  + solve_refines sm.
  + intros. apply refines_refl.
  + apply Hcalls; auto.
  + intros f [callInfo g] _. now apply terminates_const.
- intros f call s s' _ Hs H. inv_bind H as [callInfo s1] Hc.
  injection H as <-. apply process_sound in Hc. destruct Hc as [Hc _].
  apply level_addEdge. eapply level_gsteps; eauto.
Qed.
Lemma processArgument_terminates m x s :
(forall m', m' < m -> calls_terminate sm N m') ->
level N m s -> x < N ->
terminates (fun f => processArgument sm f x s).
Proof.
intros IH Hs Hx. apply terminates_S. simpl.
destruct (addNodeIsNew_cases x Argument s)
  as [(n & Hreg & E)|(Hnone & g1 & E & Hg1 & Hreg & Hnext & Hnode)];
  rewrite E; simpl.
{ now apply terminates_const. }
destruct (level_new_node Argument Hs Hx Hnone) as (m' & Hm' & Hl).
rewrite <- Hg1 in Hl.
apply terminates_seq
  with (run1 := fun f =>
                  forEach (getDescendantCalls sm x)
                    (fun call g =>
                       '(callInfo, g) <- processCallExpression sm f call g ;;
                       Ok (addEdge (NEXT_NODE_ID s) callInfo Child g)) g1)
       (run2 := fun g (_ : nat) => Ok (NEXT_NODE_ID s, g)).
- solve_refines sm.
- intros. apply refines_refl.
- apply linkCalls_terminates with (m := m'); auto.
  intros call Hin. apply successors_lt with x; [assumption|].
  unfold successors. rewrite !in_app_iff. tauto.
- intros. now apply terminates_const.
Qed.

Lemma processFunctionDeclaration_terminates m x s :
(forall m', m' < m -> calls_terminate sm N m') ->
level N m s -> x < N ->
terminates (fun f => processFunctionDeclaration sm f x s).
Proof.
intros IH Hs Hx. apply terminates_S. simpl.
destruct (addNodeIsNew_cases x Function s)
  as [(n & Hreg & E)|(Hnone & g1 & E & Hg1 & Hreg & Hnext & Hnode)];
  rewrite E; simpl.
{ now apply terminates_const. }
destruct (level_new_node Function Hs Hx Hnone) as (m' & Hm' & Hl).
rewrite <- Hg1 in Hl.
destruct (getBody sm x) as [body|] eqn:Hbody; simpl.
2:{ now apply terminates_const. }
apply terminates_seq
  with (run1 := fun f =>
                  forEach (getDescendantCalls sm body)
                    (fun call g =>
                       '(callInfo, g) <- processCallExpression sm f call g ;;
                       Ok (addEdge (NEXT_NODE_ID s) callInfo Child g)) g1)
       (run2 := fun g (_ : nat) => Ok (NEXT_NODE_ID s, g)).
- solve_refines sm.
- intros. apply refines_refl.
- apply linkCalls_terminates with (m := m'); auto.
  intros call Hin. apply successors_lt with x; [assumption|].
  unfold successors, body_calls. rewrite Hbody, !in_app_iff. tauto.
- intros. now apply terminates_const.
Qed.

Lemma processMethodDeclaration_terminates m x s :
(forall m', m' < m -> calls_terminate sm N m') ->
level N m s -> x < N ->
terminates (fun f => processMethodDeclaration sm f x s).
Proof.
intros IH Hs Hx. apply terminates_S. simpl.
destruct (addNodeIsNew_cases x Function s)
  as [(n & Hreg & E)|(Hnone & g1 & E & Hg1 & Hreg & Hnext & Hnode)];
  rewrite E; simpl.
{ now apply terminates_const. }
destruct (level_new_node Function Hs Hx Hnone) as (m' & Hm' & Hl).
rewrite <- Hg1 in Hl.
destruct (getBody sm x) as [body|] eqn:Hbody; simpl.
2:{ now apply terminates_const. }
apply terminates_seq
  with (run1 := fun f =>
                  forEach (getDescendantCalls sm body)
                    (fun call g =>
                       '(callInfo, g) <- processCallExpression sm f call g ;;
                       Ok (addEdge (NEXT_NODE_ID s) callInfo Child g)) g1)
       (run2 := fun g (_ : nat) => Ok (NEXT_NODE_ID s, g)).
- solve_refines sm.
- intros. apply refines_refl.
- apply linkCalls_terminates with (m := m'); auto.
  intros call Hin. apply successors_lt with x; [assumption|].
  unfold successors, body_calls. rewrite Hbody, !in_app_iff. tauto.
- intros. now apply terminates_const.
Qed.
Lemma reference_step_level m source f reference s s' :
level N m s ->
(temp <- orThrow (getParent sm reference) ;;
 call <- orThrow (getParent sm temp) ;;
 if SyntaxKind_eqb (getKind sm call) CallExpression
    && Nat.eqb (getExpression sm call) temp
 then
   '(callInfo, g) <- processCallExpression sm f call s ;;
   Ok (addEdge source callInfo CallEdge g)
 else Ok s) = Ok s' ->
level N m s'.
Proof.
intros Hs H. inv_bind H as temp Htemp. inv_bind H as call Hcall.
destruct (_ && _).
- inv_bind H as [callInfo s1] Hc. injection H as <-.
  apply process_sound in Hc. destruct Hc as [Hc _].
  apply level_addEdge. eapply level_gsteps; eauto.
- now injection H as <-.
Qed.

Lemma processVariableDeclaration_terminates m x e s :
(forall m', m' < m -> calls_terminate sm N m') ->
level N m s -> x < N ->
terminates (fun f => processVariableDeclaration sm f x e s).
Proof.
intros IH Hs Hx. apply terminates_S. simpl.
destruct (e && negb (isExported sm x)); [now apply terminates_const|].
destruct (getInitializer sm x) as [init|] eqn:Hinit; simpl;
  [|now apply terminates_const].
set (functionLike := SyntaxKind_eqb (getKind sm init) ArrowFunction
                     || SyntaxKind_eqb (getKind sm init) FunctionExpression).
destruct (addNodeIsNew_cases x (if functionLike then Function else Object) s)
  as [(n & Hreg & E)|(Hnone & g1 & E & Hg1 & Hreg & Hnext & Hnode)];
  rewrite E; simpl.
{ now apply terminates_const. }
destruct (level_new_node (if functionLike then Function else Object) Hs Hx Hnone)
  as (m' & Hm' & Hl).
rewrite <- Hg1 in Hl.
destruct functionLike.
- destruct (getBody sm init) as [body|] eqn:Hbody;
    [|now apply terminates_const].
  apply terminates_seq
    with (run1 := fun f =>
                    forEach (getDescendantCalls sm body)
                      (fun call g =>
                         '(callInfo, g) <- processCallExpression sm f call g ;;
                         Ok (addEdge (NEXT_NODE_ID s) callInfo Child g)) g1)
         (run2 := fun g (_ : nat) => Ok (Some (NEXT_NODE_ID s), g)).
  + solve_refines sm.
  + intros. apply refines_refl.
  + apply linkCalls_terminates with (m := m'); auto.
    intros call Hin. apply successors_lt with x; [assumption|].
    unfold successors, initializer_calls, body_calls.
    rewrite Hinit, Hbody, !in_app_iff. tauto.
  + intros. now apply terminates_const.
- apply terminates_seq
    with (run1 := fun f =>
            forEach (findReferences sm x)
              (fun ref g =>
                 forEach ref
                   (fun reference g =>
                      temp <- orThrow (getParent sm reference) ;;
                      call <- orThrow (getParent sm temp) ;;
                      if SyntaxKind_eqb (getKind sm call) CallExpression
                         && Nat.eqb (getExpression sm call) temp
                      then
                        '(callInfo, g) <- processCallExpression sm f call g ;;
                        Ok (addEdge (NEXT_NODE_ID s) callInfo CallEdge g)
                      else Ok g) g) g1)
         (run2 := fun g (_ : nat) => Ok (Some (NEXT_NODE_ID s), g)).
  + solve_refines sm.
  + intros. apply refines_refl.
  + apply forEach_terminates with (I := level N m')
      (body := fun f ref g =>
                 forEach ref
                   (fun reference g =>
                      temp <- orThrow (getParent sm reference) ;;
                      call <- orThrow (getParent sm temp) ;;
                      if SyntaxKind_eqb (getKind sm call) CallExpression
                         && Nat.eqb (getExpression sm call) temp
                      then
                        '(callInfo, g) <- processCallExpression sm f call g ;;
                        Ok (addEdge (NEXT_NODE_ID s) callInfo CallEdge g)
                      else Ok g) g); [solve_refines sm| | |exact Hl].
    * intros ref t Href Ht.
      apply forEach_terminates with (I := level N m')
        (body := fun f reference g =>
                   temp <- orThrow (getParent sm reference) ;;
                   call <- orThrow (getParent sm temp) ;;
                   if SyntaxKind_eqb (getKind sm call) CallExpression
                      && Nat.eqb (getExpression sm call) temp
                   then
                     '(callInfo, g) <- processCallExpression sm f call g ;;
                     Ok (addEdge (NEXT_NODE_ID s) callInfo CallEdge g)
                   else Ok g); [solve_refines sm| | |exact Ht].
      -- intros reference u Hreference Hu.
         assert (Hsucc : forall call, In call (reference_call sm reference) ->
                                      call < N).
         { intros call Hin. apply successors_lt with x; [assumption|].
           unfold successors, reference_calls. rewrite !in_app_iff.
           do 5 right. apply in_flat_map. exists reference.
           split; [|assumption]. apply in_concat. eauto. }
         unfold reference_call in Hsucc.
         destruct (getParent sm reference) as [temp|]; simpl;
           [|now apply terminates_const].
         destruct (getParent sm temp) as [call|]; simpl;
           [|now apply terminates_const].
         destruct (SyntaxKind_eqb (getKind sm call) CallExpression
                   && Nat.eqb (getExpression sm call) temp);
           [|now apply terminates_const].
         apply terminates_seq
           with (run1 := fun f => processCallExpression sm f call u)
                (run2 := fun r (_ : nat) =>
                           let '(callInfo, g) := r in
                           Ok (addEdge (NEXT_NODE_ID s) callInfo CallEdge g)).
         ++ solve_refines sm.
         ++ intros. apply refines_refl.
         ++ apply (IH m' Hm'); [assumption|]. apply Hsucc. now left.
         ++ intros f [callInfo g] _. now apply terminates_const.
      -- intros f reference u u' _ Hu H.
         eapply reference_step_level; eauto.
    * intros f ref t t' _ Ht. apply forEach_Ok_ind; [|exact Ht].
      intros reference u u' _ Hu H. eapply reference_step_level; eauto.
  + intros. now apply terminates_const.
Qed.
Lemma definition_step_inv m c source f d s s' :
level N m s /\ registered c source s ->
('(definitionInfo, g) <- processDefinition sm f d s ;;
 match definitionInfo with
 | None => Throw TypeError
 | Some definitionInfo => spliceOutgoing f 0 source definitionInfo g
 end) = Ok s' ->
level N m s' /\ registered c source s'.
Proof.
intros [Hs Hreg] H. inv_bind H as [[n|] s1] Hd; [|discriminate].
apply process_sound in Hd. destruct Hd as [Hd _].
assert (Hs1 : level N m s1) by (eapply level_gsteps; eauto).
assert (Hreg1 : registered c source s1) by (eapply gsteps_registered; eauto).
apply spliceOutgoing_gsteps in H.
- split; [eapply level_gsteps|eapply gsteps_registered]; eauto.
- destruct Hs1 as [[Hlt _] _]. eauto.
Qed.

Lemma argument_step_level m source f a s s' :
level N m s ->
('(argInfo, g) <- processArgument sm f a s ;;
 Ok (addEdge source argInfo ArgumentEdge g)) = Ok s' ->
level N m s'.
Proof.
intros Hs H. inv_bind H as [argInfo s1] Ha. injection H as <-.
apply process_sound in Ha. destruct Ha as [Ha _].
apply level_addEdge. eapply level_gsteps; eauto.
Qed.

Lemma processCallExpression_terminates m x s :
(forall m' t d, m' < m -> level N m' t -> d < N ->
                terminates (fun f => processDefinition sm f d t)) ->
(forall m' t a, m' < m -> level N m' t -> a < N ->
                terminates (fun f => processArgument sm f a t)) ->
level N m s -> x < N ->
terminates (fun f => processCallExpression sm f x s).
Proof.
intros IHdef IHarg Hs Hx. apply terminates_S. simpl.
destruct (addNodeIsNew_cases x Call s)
  as [(n & Hreg & E)|(Hnone & g1 & E & Hg1 & Hreg & Hnext & Hnode)];
  rewrite E; simpl.
{ now apply terminates_const. }
destruct (level_new_node Call Hs Hx Hnone) as (m' & Hm' & Hl).
rewrite <- Hg1 in Hl.
set (source := NEXT_NODE_ID s) in *.
set (defs := fun f : nat =>
       if SyntaxKind_eqb (getKind sm (getExpression sm x)) Identifier
       then
         forEach (getDefinitionNodes sm (getExpression sm x))
           (fun definition g =>
              '(definitionInfo, g) <- processDefinition sm f definition g ;;
              match definitionInfo with
              | None => Throw TypeError
              | Some definitionInfo => spliceOutgoing f 0 source definitionInfo g
              end) g1
       else Ok g1).
set (args := fun (g : CodeFlowGraph) (f : nat) =>
       g <- forEach (getArguments sm x)
              (fun arg g =>
                 '(argInfo, g) <- processArgument sm f arg g ;;
                 Ok (addEdge source argInfo ArgumentEdge g)) g ;;
       Ok (source, g)).
assert (Hdefs_inv : forall f g2, defs f = Ok g2 ->
                                 level N m' g2 /\ registered x source g2).
{ intros f g2. unfold defs.
  destruct (SyntaxKind_eqb (getKind sm (getExpression sm x)) Identifier).
  - apply forEach_Ok_ind with
      (I := fun t => level N m' t /\ registered x source t); [|now split].
    intros d t t' _ Ht H. eapply definition_step_inv; eauto.
  - intros [= <-]. now split. }
apply terminates_seq with (run1 := defs) (run2 := args).
- unfold defs. solve_refines sm.
- unfold args. solve_refines sm.
- unfold defs.
  destruct (SyntaxKind_eqb (getKind sm (getExpression sm x)) Identifier) eqn:Hk;
    [|now apply terminates_const].
  apply forEach_terminates
    with (I := fun t => level N m' t /\ registered x source t)
         (body := fun f definition g =>
                    '(definitionInfo, g) <- processDefinition sm f definition g ;;
                    match definitionInfo with
                    | None => Throw TypeError
                    | Some definitionInfo =>
                        spliceOutgoing f 0 source definitionInfo g
                    end); [solve_refines sm| | |now split].
  + intros d t Hd [Ht Hreg_t].
    assert (Hdx : In d (definitions sm x))
      by (unfold definitions; now rewrite Hk).
    assert (Hd_lt : d < N).
    { apply successors_lt with x; [assumption|].
      unfold successors. rewrite !in_app_iff. tauto. }
    apply terminates_seq
      with (run1 := fun f => processDefinition sm f d t)
           (run2 := fun r f =>
                      let '(definitionInfo, g) := r in
                      match definitionInfo with
                      | None => Throw TypeError
                      | Some definitionInfo =>
                          spliceOutgoing f 0 source definitionInfo g
                      end).
    * solve_refines sm.
    * solve_refines sm.
    * apply IHdef with m'; assumption.
    * intros f [[n|] t1] Hf; [|now apply terminates_const].
      apply process_sound in Hf. destruct Hf as [Hsteps Hn].
      specialize (Hn n eq_refl).
      assert (Hreg1 : registered x source t1)
        by (eapply gsteps_registered; eauto).
      assert (Hok1 : registry_ok t1)
        by (eapply gsteps_registry_ok; [eassumption|apply Ht]).
      assert (Hne : n <> source).
      { intros ->. destruct Hok1 as [_ Hinj].
        rewrite (Hinj _ _ _ Hn Hreg1) in Hdx.
        now apply (not_self_definition Hx). }
      exists (S (List.length (outgoing_of n t1))).
      rewrite spliceOutgoing_skipn by (assumption || lia). discriminate.
  + intros f d t t' _ Ht H. eapply definition_step_inv; eauto.
- intros f g2 Hf. apply Hdefs_inv in Hf. destruct Hf as [Hl2 _].
  unfold args.
  apply terminates_seq
    with (run1 := fun f =>
                    forEach (getArguments sm x)
                      (fun arg g =>
                         '(argInfo, g) <- processArgument sm f arg g ;;
                         Ok (addEdge source argInfo ArgumentEdge g)) g2)
         (run2 := fun g (_ : nat) => Ok (source, g)).
  + solve_refines sm.
  + intros. apply refines_refl.
  + apply forEach_terminates with (I := level N m')
      (body := fun f arg g =>
                 '(argInfo, g) <- processArgument sm f arg g ;;
                 Ok (addEdge source argInfo ArgumentEdge g));
      [solve_refines sm| | |exact Hl2].
    * intros a t Ha Ht.
      apply terminates_seq
        with (run1 := fun f => processArgument sm f a t)
             (run2 := fun r (_ : nat) =>
                        let '(argInfo, g) := r in
                        Ok (addEdge source argInfo ArgumentEdge g)).
      -- solve_refines sm.
      -- intros. apply refines_refl.
      -- apply IHarg with m'; [assumption|assumption|].
         apply successors_lt with x; [assumption|].
         unfold successors. rewrite !in_app_iff. tauto.
      -- intros f0 [argInfo g] _. now apply terminates_const.
    * intros f0 a t t' _ Ht H. eapply argument_step_level; eauto.
  + intros. now apply terminates_const.
Qed.

Lemma processDefinition_terminates x s :
terminates (fun f => processVariableDeclaration sm f x true s) ->
terminates (fun f => processFunctionDeclaration sm f x s) ->
terminates (fun f => processDefinition sm f x s).
Proof.
intros Hvar Hfun. apply terminates_S. simpl.
destruct (SyntaxKind_eqb (getKind sm x) VariableDeclaration); [assumption|].
destruct (SyntaxKind_eqb (getKind sm x) FunctionDeclaration).
- apply terminates_seq
    with (run1 := fun f => processFunctionDeclaration sm f x s)
         (run2 := fun r (_ : nat) => let '(source, g) := r in Ok (Some source, g)).
  + solve_refines sm.
  + intros. apply refines_refl.
  + assumption.
  + intros f [source g] _. now apply terminates_const.
- destruct (addNode x Any s) as [source g]. now apply terminates_const.
Qed.

Lemma traversal_terminates m : forall s x,
level N m s -> x < N ->
terminates (fun f => processCallExpression sm f x s)
/\ terminates (fun f => processDefinition sm f x s)
/\ (forall e, terminates (fun f => processVariableDeclaration sm f x e s))
/\ terminates (fun f => processFunctionDeclaration sm f x s)
/\ terminates (fun f => processArgument sm f x s)
/\ terminates (fun f => processMethodDeclaration sm f x s).
Proof.
induction m as [m IH] using lt_wf_ind. intros s x Hs Hx.
assert (IHcall : forall m', m' < m -> calls_terminate sm N m').
{ intros m' Hm' t c Ht Hc. now apply (IH m' Hm' t c). }
assert (Hvar : forall e, terminates (fun f => processVariableDeclaration sm f x e s))
  by (intros e; now apply processVariableDeclaration_terminates with m).
assert (Hfun : terminates (fun f => processFunctionDeclaration sm f x s))
  by now apply processFunctionDeclaration_terminates with m.
repeat split.
- apply processCallExpression_terminates with m; try assumption.
  + intros m' t d Hm' Ht Hd. now apply (IH m' Hm' t d).
  + intros m' t a Hm' Ht Ha. now apply (IH m' Hm' t a).
- now apply processDefinition_terminates.
- exact Hvar.
- exact Hfun.
- now apply processArgument_terminates with m.
- now apply processMethodDeclaration_terminates with m.
Qed.
Lemma level_top s : registry_ok s -> level N N s.
Proof.
intros H. split; [assumption|]. unfold unregistered.
etransitivity; [apply List.filter_length_le|]. now rewrite length_seq.
Qed.

Lemma builds_registry_ok s s' : builds sm s s' -> registry_ok s -> registry_ok s'.
Proof.
intros H. apply builds_gsteps in H. now apply gsteps_registry_ok.
Qed.

Lemma processVariables_terminates sourceFile s :
In sourceFile (getSourceFiles sm) -> registry_ok s ->
terminates (fun f => processVariables sm f sourceFile s).
Proof.
intros Hfile. unfold processVariables.
apply forEach_terminates with (I := registry_ok)
  (body := fun f variable g =>
             statement <- orThrow (getVariableStatement sm variable) ;;
             forEach (getDeclarations sm statement)
               (fun declaration g =>
                  '(_, g) <- processVariableDeclaration sm f declaration true g ;;
                  Ok g) g).
- solve_refines sm.
- intros variable t Hvar Ht.
  destruct (getVariableStatement sm variable) as [statement|] eqn:Hst; simpl;
    [|now apply terminates_const].
  apply forEach_terminates with (I := registry_ok)
    (body := fun f declaration g =>
               '(_, g) <- processVariableDeclaration sm f declaration true g ;;
               Ok g); [solve_refines sm| | |exact Ht].
  + intros d u Hd Hu.
    apply terminates_seq
      with (run1 := fun f => processVariableDeclaration sm f d true u)
           (run2 := fun r (_ : nat) => let '(_, g) := r in Ok g).
    * solve_refines sm.
    * intros. apply refines_refl.
    * apply (traversal_terminates (level_top Hu)).
      apply entry_points_lt. unfold entry_points.
      apply in_flat_map. exists sourceFile. split; [assumption|].
      rewrite !in_app_iff. left.
      apply in_flat_map. exists variable. split; [assumption|].
      now rewrite Hst.
    * intros f [r g] _. now apply terminates_const.
  + intros f d u u' _ Hu H. inv_bind H as [r u1] Hp. injection H as <-.
    apply process_sound in Hp. destruct Hp as [Hp _].
    eapply gsteps_registry_ok; eauto.
- intros f variable t t' _ Ht H. inv_bind H as statement Hst.
  revert H. apply forEach_Ok_ind; [|exact Ht].
  intros d u u' _ Hu H. inv_bind H as [r u1] Hp. injection H as <-.
  apply process_sound in Hp. destruct Hp as [Hp _].
  eapply gsteps_registry_ok; eauto.
Qed.

Lemma processFunctions_terminates sourceFile s :
In sourceFile (getSourceFiles sm) -> registry_ok s ->
terminates (fun f => processFunctions sm f sourceFile s).
Proof.
intros Hfile. unfold processFunctions.
apply forEach_terminates with (I := registry_ok)
  (body := fun f func g =>
             '(_, g) <- processFunctionDeclaration sm f func g ;; Ok g).
- solve_refines sm.
- intros func t Hfunc Ht.
  apply terminates_seq
    with (run1 := fun f => processFunctionDeclaration sm f func t)
         (run2 := fun r (_ : nat) => let '(_, g) := r in Ok g).
  + solve_refines sm.
  + intros. apply refines_refl.
  + apply (traversal_terminates (level_top Ht)).
    apply entry_points_lt. unfold entry_points.
    apply in_flat_map. exists sourceFile. split; [assumption|].
    rewrite !in_app_iff. tauto.
  + intros f [r g] _. now apply terminates_const.
- intros f func t t' _ Ht H. inv_bind H as [r t1] Hp. injection H as <-.
  apply process_sound in Hp. destruct Hp as [Hp _].
  eapply gsteps_registry_ok; eauto.
Qed.

Lemma processClasses_terminates sourceFile s :
In sourceFile (getSourceFiles sm) -> registry_ok s ->
terminates (fun f => processClasses sm f sourceFile s).
Proof.
intros Hfile. unfold processClasses, processClass.
assert (Hmono : forall f f' method g,
          f <= f' ->
          refines ('(_, g) <- processMethodDeclaration sm f method g ;; Ok g)
                  ('(_, g) <- processMethodDeclaration sm f' method g ;; Ok g)).
{ solve_refines sm. }
assert (Hpres : forall f method u u',
          registry_ok u ->
          ('(_, g) <- processMethodDeclaration sm f method u ;; Ok g) = Ok u' ->
          registry_ok u').
{ intros f method u u' Hu H. inv_bind H as [r u1] Hp. injection H as <-.
  apply processMethodDeclaration_sound in Hp. destruct Hp as [Hp _].
  eapply gsteps_registry_ok; eauto. }
apply forEach_terminates with (I := registry_ok)
  (body := fun f class_ g =>
             forEach (getMethods sm class_)
               (fun method g =>
                  '(_, g) <- processMethodDeclaration sm f method g ;; Ok g) g).
- intros. apply refines_forEach. intros. now apply Hmono.
- intros class_ t Hclass Ht.
  apply forEach_terminates with (I := registry_ok)
    (body := fun f method g =>
               '(_, g) <- processMethodDeclaration sm f method g ;; Ok g);
    [exact Hmono| | |exact Ht].
  + intros method u Hmethod Hu.
    apply terminates_seq
      with (run1 := fun f => processMethodDeclaration sm f method u)
           (run2 := fun r (_ : nat) => let '(_, g) := r in Ok g).
    * intros. now apply processMethodDeclaration_refines.
    * intros. apply refines_refl.
    * apply (traversal_terminates (level_top Hu)).
      apply entry_points_lt. unfold entry_points.
      apply in_flat_map. exists sourceFile. split; [assumption|].
      rewrite !in_app_iff. right. right.
      apply in_flat_map. eauto.
    * intros f [r g] _. now apply terminates_const.
  + intros f method u u' _. apply Hpres.
- intros f class_ t t' _ Ht. apply forEach_Ok_ind; [|exact Ht].
  intros method u u' _. apply Hpres.
Qed.

Lemma initialize_terminates s :
registry_ok s -> terminates (fun f => initialize sm f s).
Proof.
unfold initialize.
apply forEach_terminates with (I := registry_ok)
  (body := fun f sourceFile g =>
             g <- processVariables sm f sourceFile g ;;
             g <- processFunctions sm f sourceFile g ;;
             processClasses sm f sourceFile g).
- unfold processVariables, processFunctions, processClasses, processClass.
  solve_refines sm.
- intros sourceFile t Hfile Ht.
  apply terminates_seq
    with (run1 := fun f => processVariables sm f sourceFile t)
         (run2 := fun g f =>
                    g <- processFunctions sm f sourceFile g ;;
                    processClasses sm f sourceFile g).
  + unfold processVariables. solve_refines sm.
  + unfold processFunctions, processClasses, processClass. solve_refines sm.
  + now apply processVariables_terminates.
  + intros f t1 H1.
    assert (Ht1 : registry_ok t1)
      by (eapply builds_registry_ok; [eapply processVariables_builds|]; eauto).
    apply terminates_seq
      with (run1 := fun f => processFunctions sm f sourceFile t1)
           (run2 := fun g f => processClasses sm f sourceFile g).
    * unfold processFunctions. solve_refines sm.
    * unfold processClasses, processClass. solve_refines sm.
    * now apply processFunctions_terminates.
    * intros f0 t2 H2. apply processClasses_terminates; [assumption|].
      eapply builds_registry_ok; [eapply processFunctions_builds|]; eauto.
- intros f sourceFile t t' _ Ht H.
  inv_bind H as t1 H1. inv_bind H as t2 H2.
  apply processVariables_builds in H1. apply processFunctions_builds in H2.
  apply processClasses_builds in H.
  eauto using builds_registry_ok.
Qed.
End Termination.

Lemma reachable_registry_ok sm g : reachable sm g -> registry_ok g.
Proof.
  intros H. apply builds_gsteps in H.
  eapply gsteps_registry_ok; [exact H|apply registry_ok_new].
Qed.

Lemma terminates_stable {A : Type} (run : nat -> Result A) :
  (forall f f', f <= f' -> refines (run f) (run f')) ->
  terminates run ->
  exists fuel,
    run fuel <> OutOfFuel /\ forall fuel', fuel <= fuel' -> run fuel' = run fuel.
Proof.
  intros Hmono [fuel H]. exists fuel. split; [assumption|].
  intros fuel' Hle. now apply Hmono.
Qed.

(** C6: on a finite input (the constructs are the handles below [N], and
    every construct the builder goes to from one of them is one of them)
    in which no call is a definition node of its own callee, the build
    terminates: some fuel is enough for [initialize] to return or throw,
    and more fuel gives the same result; so does every processing
    operation on a graph met in a build.  The proof is by induction on the
    number of constructs that have no node yet: every recursive expansion
    comes after a registration.  A construct that has a node is answered
    at once, with no expansion. *)
Theorem build_terminates sm N :
  closed sm N = true ->
  no_self_definition sm N = true ->
  (exists fuel,
     initialize sm fuel CodeFlowGraph_new <> OutOfFuel
     /\ forall fuel', fuel <= fuel' ->
          initialize sm fuel' CodeFlowGraph_new = initialize sm fuel CodeFlowGraph_new)
  /\ (forall g t,
        reachable sm g -> construct_node t < N ->
        exists fuel, process sm fuel t g <> OutOfFuel)
  /\ (forall g t n,
        registered (construct_node t) n g -> process sm 2 t g <> OutOfFuel).
Proof.
  intros Hclosed Hself. split; [|split].
  - apply terminates_stable with (run := fun f => initialize sm f CodeFlowGraph_new).
    + unfold initialize, processVariables, processFunctions, processClasses,
        processClass. solve_refines sm.
    + apply (@initialize_terminates sm N Hclosed Hself). apply registry_ok_new.
  - intros g t Hg Ht. apply reachable_registry_ok in Hg.
    destruct (@traversal_terminates sm N Hclosed Hself N g (construct_node t)
                (@level_top N g Hg) Ht)
      as (Hcall & Hdef & Hvar & Hfun & Harg & Hmeth).
    destruct t as [m|d e|c|d|f|a]; simpl in *.
    + destruct Hmeth as [fuel H]. exists fuel.
      destruct (processMethodDeclaration sm fuel m g) as [[? ?]| |];
        simpl; congruence.
    + apply Hvar.
    + destruct Hcall as [fuel H]. exists fuel.
      destruct (processCallExpression sm fuel c g) as [[? ?]| |];
        simpl; congruence.
    + apply Hdef.
    + destruct Hfun as [fuel H]. exists fuel.
      destruct (processFunctionDeclaration sm fuel f g) as [[? ?]| |];
        simpl; congruence.
    + destruct Harg as [fuel H]. exists fuel.
      destruct (processArgument sm fuel a g) as [[? ?]| |];
        simpl; congruence.
  - intros g t n Hreg.
    destruct t as [m|d e|c|d|f|a]; cbn [process construct_node] in *.
    + now rewrite (processMethodDeclaration_hit sm 1 Hreg).
    + simpl. destruct (e && negb (isExported sm d)); [discriminate|].
      destruct (getInitializer sm d); simpl; [|discriminate].
      rewrite (@addNodeIsNew_hit _ _ _ _ Hreg). discriminate.
    + now rewrite (processCallExpression_hit sm 1 Hreg).
    + simpl. destruct (SyntaxKind_eqb (getKind sm d) VariableDeclaration).
      * destruct (negb (isExported sm d)); [discriminate|].
        destruct (getInitializer sm d); simpl; [|discriminate].
        rewrite (@addNodeIsNew_hit _ _ _ _ Hreg). discriminate.
      * destruct (SyntaxKind_eqb (getKind sm d) FunctionDeclaration).
        -- rewrite (@addNodeIsNew_hit _ _ _ _ Hreg). discriminate.
        -- unfold addNode. rewrite (@addNodeIsNew_hit _ _ _ _ Hreg). discriminate.
    + now rewrite (processFunctionDeclaration_hit sm 1 Hreg).
    + now rewrite (processArgument_hit sm 1 Hreg).
Qed.

Lemma build_terminates_witness :
  closed Recursive.model 13 = true
  /\ no_self_definition Recursive.model 13 = true
  /\ exists fuel,
       initialize Recursive.model fuel CodeFlowGraph_new <> OutOfFuel
       /\ forall fuel', fuel <= fuel' ->
            initialize Recursive.model fuel' CodeFlowGraph_new
            = initialize Recursive.model fuel CodeFlowGraph_new.
Proof.
  split; [reflexivity|]. split; [reflexivity|].
  apply (build_terminates Recursive.model 13); reflexivity.
Defined.

(** The splicing loop on a node's own list, which it extends as it goes,
    does not end: the hypothesis on definition nodes is needed. *)
Lemma spliceOutgoing_own_list fuel : forall i source g,
  map_get source (nodes g) <> None ->
  i < List.length (outgoing_of source g) ->
  spliceOutgoing fuel i source source g = OutOfFuel.
Proof.
  induction fuel as [|fuel IH]; intros i source g Hsrc Hi; [reflexivity|].
  rewrite spliceOutgoing_S.
  destruct (nth_error (outgoing_of source g) i) as [edge|] eqn:E.
  - assert (Hout : outgoing_of source (addEdge source (edge_destination edge) Child g)
                   = outgoing_of source g
                     ++ [newEdge source (edge_destination edge) Child g]).
    { rewrite addEdge_outgoing_of, Nat.eqb_refl.
      destruct (map_get source (nodes g)); [reflexivity|congruence]. }
    apply IH.
    + intros Hnone.
      assert (Hnil : outgoing_of source
                       (addEdge source (edge_destination edge) Child g) = [])
        by (unfold outgoing_of; now rewrite Hnone).
      rewrite Hnil in Hout. destruct (outgoing_of source g); discriminate.
    + rewrite Hout, length_app. simpl. lia.
  - apply nth_error_None in E. lia.
Qed.

(** * More of the class *)

(** ** Maps, again *)

Lemma SyntaxKind_eqb_eq a b : SyntaxKind_eqb a b = true <-> a = b.
Proof. destruct a, b; simpl; split; congruence. Qed.

Section NatMapMore.
Variable V : Type.
Implicit Types (m : list (nat * V)) (k : nat).

Lemma map_get_None_iff k m : map_get k m = None <-> ~ In k (map fst m).
Proof.
  induction m as [|[k' v] m IH]; simpl; [tauto|].
  destruct (Nat.eqb k k') eqn:E.
  - apply Nat.eqb_eq in E. subst. split; [discriminate|tauto].
  - apply Nat.eqb_neq in E. rewrite IH. split; [intros H [?|?]|]; intuition congruence.
Qed.

Lemma map_set_fresh k (v : V) m :
  map_get k m = None -> map_set k v m = m ++ [(k, v)].
Proof.
  induction m as [|[k' v'] m IH]; simpl; [reflexivity|].
  destruct (Nat.eqb k k'); [discriminate|].
  intros H. now rewrite IH.
Qed.

Lemma map_update_fst k (f : V -> V) m :
  map fst (map_update k f m) = map fst m.
Proof.
  induction m as [|[k' v'] m IH]; simpl; [reflexivity|].
  destruct (Nat.eqb k k'); simpl; [reflexivity|now rewrite IH].
Qed.

Lemma map_update_map {B : Type} (h : nat * V -> B) k (f : V -> V) m :
  (forall k' v, h (k', f v) = h (k', v)) ->
  map h (map_update k f m) = map h m.
Proof.
  intros Hh. induction m as [|[k' v'] m IH]; simpl; [reflexivity|].
  destruct (Nat.eqb k k'); simpl; [now rewrite Hh|now rewrite IH].
Qed.

Lemma map_get_seq k m n :
  map fst m = seq 0 n -> (map_get k m = None <-> n <= k).
Proof.
  intros H. rewrite map_get_None_iff, H, in_seq. lia.
Qed.
End NatMapMore.

(** ** Steps keep the graph well formed *)

Lemma estep_gstep g g' : estep g g' -> gstep g g'.
Proof.
  intros [node type g0 Hnone|s d t g0 Hs Hd Hallowed].
  - now apply gstep_node.
  - apply gstep_edge; [assumption|]. intros ->.
    destruct (type_of s g0) as [[]|]; simpl in Hallowed; congruence.
Qed.

Lemma esteps_gsteps g g' : esteps g g' -> gsteps g g'.
Proof.
  induction 1 as [|g1 g2 g3 _ IH H]; [apply gsteps_refl|].
  eapply gsteps_step; [exact IH|now apply estep_gstep].
Qed.

Lemma esteps_trans g1 g2 g3 : esteps g1 g2 -> esteps g2 g3 -> esteps g1 g3.
Proof.
  intros H12 H23. induction H23 as [|g2 g3 g4 _ IH Hstep]; [assumption|].
  eapply esteps_step; [exact (IH H12)|exact Hstep].
Qed.

Lemma esteps_one g1 g2 : estep g1 g2 -> esteps g1 g2.
Proof.
  intros H. eapply esteps_step; [apply esteps_refl|exact H].
Qed.

Lemma addNodeIsNew_new node type g :
  map_get node (nodeToInfo g) = None ->
  snd (addNodeIsNew node type g) =
  {| nodes :=
       map_set (NEXT_NODE_ID g)
         {| node_node := node; incoming := []; outgoing := [];
            node_id := NEXT_NODE_ID g; node_type := type |} (nodes g);
     nodeToInfo := map_set node (NEXT_NODE_ID g) (nodeToInfo g);
     edges := edges g;
     edgeInfo := edgeInfo g;
     NEXT_NODE_ID := S (NEXT_NODE_ID g);
     NEXT_EDGE_ID := NEXT_EDGE_ID g |}.
Proof.
  intros H. unfold addNodeIsNew. now rewrite H.
Qed.

Lemma addEdge_NEXT_EDGE_ID s d t g :
  NEXT_EDGE_ID (addEdge s d t g) = S (NEXT_EDGE_ID g).
Proof. unfold addEdge. now rewrite addEdgeIsNew_eq. Qed.

Lemma addEdge_incoming_of s d t g n :
  incoming_of n (addEdge s d t g) =
  if Nat.eqb n d
  then match map_get n (nodes g) with
       | Some _ => incoming_of n g ++ [newEdge s d t g]
       | None => []
       end
  else incoming_of n g.
Proof.
  unfold incoming_of. rewrite addEdge_nodes, !map_get_update.
  destruct (Nat.eqb n d), (Nat.eqb n s), (map_get n (nodes g)); reflexivity.
Qed.

(** A node of the graph after [addEdge] is a node of the graph before,
    but for its adjacency lists. *)
Lemma addEdge_nodes_In s d t g k n :
  In (k, n) (nodes (addEdge s d t g)) ->
  exists n0,
    In (k, n0) (nodes g) /\ node_id n = node_id n0
    /\ node_node n = node_node n0 /\ node_type n = node_type n0.
Proof.
  rewrite addEdge_nodes. intros Hin.
  assert (Hinner : forall k n,
            In (k, n) (map_update s (addOutgoing (newEdge s d t g)) (nodes g)) ->
            exists n0,
              In (k, n0) (nodes g) /\ node_id n = node_id n0
              /\ node_node n = node_node n0 /\ node_type n = node_type n0).
  { intros k0 n1 H. apply In_map_update in H.
    destruct H as [H|(-> & v & Hv & ->)]; [eauto|].
    exists v. split; [now apply map_get_In|auto]. }
  apply In_map_update in Hin.
  destruct Hin as [Hin|(-> & v & Hv & ->)]; [auto|].
  apply map_get_In, Hinner in Hv. destruct Hv as (n0 & ? & ? & ? & ?).
  exists n0. simpl. auto.
Qed.

Lemma NoDup_snoc {A : Type} (l : list A) (a : A) :
  NoDup l -> ~ In a l -> NoDup (l ++ [a]).
Proof.
  intros Hl Ha. apply NoDup_app; [assumption|repeat constructor; auto|].
  intros x Hx [<-|[]]. contradiction.
Qed.

Lemma filter_none {A : Type} (p : A -> bool) (l : list A) :
  (forall x, In x l -> p x = false) -> filter p l = [].
Proof.
  induction l as [|x l IH]; simpl; intros H; [reflexivity|].
  rewrite (H x (or_introl eq_refl)). apply IH. auto.
Qed.

Lemma In_map_snd {A B : Type} (l : list (A * B)) (b : B) :
  In b (map snd l) -> exists a, In (a, b) l.
Proof.
  rewrite in_map_iff. intros ([a b'] & <- & H). eauto.
Qed.

Lemma estep_node_ids g g' :
  estep g g' -> node_ids_contiguous g -> node_ids_contiguous g'.
Proof.
  intros [node type g0 Hnone|s d t g0 _ _ _] [Hkeys Hid]; split.
  - rewrite (@addNodeIsNew_new node type g0 Hnone). cbn [nodes NEXT_NODE_ID].
    rewrite map_set_fresh
      by (apply (@map_get_seq _ _ _ (NEXT_NODE_ID g0) Hkeys); lia).
    now rewrite map_app, Hkeys, seq_S.
  - rewrite (@addNodeIsNew_new node type g0 Hnone). simpl. intros k n Hin.
    apply In_map_set in Hin. destruct Hin as [[-> ->]|Hin]; [reflexivity|auto].
  - rewrite addEdge_nodes, addEdge_NEXT_NODE_ID, !map_update_fst. exact Hkeys.
  - intros k n Hin. apply addEdge_nodes_In in Hin.
    destruct Hin as (n0 & Hin & -> & _). auto.
Qed.

Lemma estep_edge_ids g g' :
  estep g g' -> edge_ids_contiguous g -> edge_ids_contiguous g'.
Proof.
  intros [node type g0 Hnone|s d t g0 _ _ _] [Hkeys Hid].
  - rewrite (@addNodeIsNew_new node type g0 Hnone). now split.
  - assert (Hfresh : map_get (NEXT_EDGE_ID g0) (edges g0) = None)
      by (apply (@map_get_seq _ _ _ (NEXT_EDGE_ID g0) Hkeys); lia).
    split; rewrite addEdge_edges, (@map_set_fresh _ _ _ _ Hfresh).
    + rewrite addEdge_NEXT_EDGE_ID, map_app, Hkeys, seq_S. reflexivity.
    + intros k e Hin. apply in_app_or in Hin.
      destruct Hin as [Hin|[[= <- <-]|[]]]; [auto|reflexivity].
Qed.

Lemma estep_registry_agrees g g' :
  estep g g' -> node_ids_contiguous g -> registry_agrees g -> registry_agrees g'.
Proof.
  intros [node type g0 Hnone|s d t g0 _ _ _] [Hkeys _] [Hreg Hnodup].
  - assert (Hfresh : map_get (NEXT_NODE_ID g0) (nodes g0) = None)
      by (apply (@map_get_seq _ _ _ (NEXT_NODE_ID g0) Hkeys); lia).
    rewrite (@addNodeIsNew_new node type g0 Hnone). unfold registry_agrees. simpl.
    rewrite (@map_set_fresh _ _ _ _ Hnone), (@map_set_fresh _ _ _ _ Hfresh).
    split.
    + now rewrite map_app, Hreg.
    + rewrite map_app. apply NoDup_snoc; [assumption|].
      now apply map_get_None_iff.
  - unfold registry_agrees. rewrite addEdge_nodeToInfo, addEdge_nodes.
    split; [|assumption].
    rewrite !map_update_map; [assumption|reflexivity|reflexivity].
Qed.

Lemma estep_endpoints_valid g g' :
  estep g g' -> endpoints_valid g -> endpoints_valid g'.
Proof.
  intros [node type g0 Hnone|s d t g0 Hs Hd _] H k e Hin.
  - rewrite (@addNodeIsNew_new node type g0 Hnone) in *. simpl in *.
    apply H in Hin. lia.
  - rewrite addEdge_NEXT_NODE_ID. rewrite addEdge_edges in Hin.
    apply In_map_set in Hin. destruct Hin as [[_ ->]|Hin]; [now split|eauto].
Qed.

Lemma estep_edges_typed g g' :
  estep g g' -> endpoints_valid g -> edges_typed g -> edges_typed g'.
Proof.
  intros Hstep Hvalid H k e Hin. pose proof (estep_gstep Hstep) as Hg.
  destruct Hstep as [node type g0 Hnone|s d t g0 Hs Hd Hallowed].
  - assert (Hin' : In (k, e) (edges g0))
      by (rewrite (@addNodeIsNew_new node type g0 Hnone) in Hin; exact Hin).
    rewrite (gstep_type_of Hg); [eauto|]. now apply (Hvalid k e).
  - rewrite addEdge_type_of. rewrite addEdge_edges in Hin.
    apply In_map_set in Hin. destruct Hin as [[_ ->]|Hin]; [assumption|eauto].
Qed.

Lemma estep_adjacency_agrees g g' :
  estep g g' ->
  node_ids_contiguous g -> edge_ids_contiguous g -> endpoints_valid g ->
  adjacency_agrees g -> adjacency_agrees g'.
Proof.
  intros [node type g0 Hnone|s d t g0 Hs Hd _] [Hnkeys _] [Hekeys _] Hvalid H k Hk.
  - rewrite (@addNodeIsNew_new node type g0 Hnone) in *. simpl in Hk.
    unfold outgoing_of, incoming_of. simpl.
    destruct (Nat.eq_dec k (NEXT_NODE_ID g0)) as [->|Hne].
    + rewrite map_get_set_same. simpl.
      split; symmetry; apply filter_none; intros e He;
        apply In_map_snd in He; destruct He as [k' He];
        apply Hvalid in He; apply Nat.eqb_neq; lia.
    + rewrite map_get_set_other by assumption. apply H. lia.
  - rewrite addEdge_NEXT_NODE_ID in Hk. destruct (H k Hk) as [Hout Hin].
    assert (Hnode : map_get k (nodes g0) <> None).
    { intros Hnone. apply (@map_get_seq _ _ _ (NEXT_NODE_ID g0) Hnkeys) in Hnone. lia. }
    assert (Hfresh : map_get (NEXT_EDGE_ID g0) (edges g0) = None)
      by (apply (@map_get_seq _ _ _ (NEXT_EDGE_ID g0) Hekeys); lia).
    rewrite addEdge_outgoing_of, addEdge_incoming_of, addEdge_edges.
    rewrite (@map_set_fresh _ _ _ _ Hfresh).
    rewrite map_app, !filter_app. simpl.
    rewrite (Nat.eqb_sym s k), (Nat.eqb_sym d k), Hout, Hin.
    destruct (map_get k (nodes g0)); [|congruence].
    split.
    + destruct (Nat.eqb k s); [reflexivity|now rewrite app_nil_r].
    + destruct (Nat.eqb k d); [reflexivity|now rewrite app_nil_r].
Qed.

Lemma well_formed_new : well_formed CodeFlowGraph_new.
Proof.
  unfold well_formed, node_ids_contiguous, edge_ids_contiguous, registry_agrees,
    registry_ok, registered, adjacency_agrees, endpoints_valid, edges_typed.
  simpl. repeat split; try constructor; intros; try contradiction;
    try discriminate; lia.
Qed.

Lemma estep_well_formed g g' : estep g g' -> well_formed g -> well_formed g'.
Proof.
  intros Hstep (Hn & He & Hr & Hok & Ha & Hv & Ht).
  split; [|split; [|split; [|split; [|split; [|split]]]]].
  - now apply (estep_node_ids Hstep).
  - now apply (estep_edge_ids Hstep).
  - now apply (estep_registry_agrees Hstep).
  - apply (gstep_registry_ok (estep_gstep Hstep) Hok).
  - now apply (estep_adjacency_agrees Hstep).
  - now apply (estep_endpoints_valid Hstep).
  - now apply (estep_edges_typed Hstep).
Qed.

Lemma esteps_well_formed g g' : esteps g g' -> well_formed g -> well_formed g'.
Proof.
  induction 1; eauto using estep_well_formed.
Qed.


Lemma well_formed_registry_ok g : well_formed g -> registry_ok g.
Proof. intros H. apply H. Qed.

Lemma outgoing_destination_valid g d e :
  well_formed g -> In e (outgoing_of d g) -> edge_destination e < NEXT_NODE_ID g.
Proof.
  intros (Hn & _ & _ & _ & Ha & Hv & _) Hin.
  destruct (Nat.lt_ge_cases d (NEXT_NODE_ID g)) as [Hd|Hd].
  - destruct (Ha d Hd) as [Hout _]. rewrite Hout in Hin.
    apply filter_In in Hin. destruct Hin as [Hin _].
    apply In_map_snd in Hin. destruct Hin as [k Hin].
    now apply Hv in Hin.
  - destruct Hn as [Hkeys _].
    apply (@map_get_seq _ d _ _ Hkeys) in Hd.
    unfold outgoing_of in Hin. rewrite Hd in Hin. contradiction.
Qed.

(** ** What a processing operation does to a well-formed graph *)

Section WellFormed.
Variable sm : SourceModel.

Lemma spliceOutgoing_esteps fuel : forall i source definitionInfo g g',
  well_formed g ->
  source < NEXT_NODE_ID g ->
  edge_allowed Child (type_of source g) = true ->
  spliceOutgoing fuel i source definitionInfo g = Ok g' ->
  esteps g g'.
Proof.
  induction fuel as [|fuel IH]; intros i source d g g' Hwf Hs Hty H;
    [discriminate|].
  rewrite spliceOutgoing_S in H.
  destruct (nth_error (outgoing_of d g) i) as [edge|] eqn:E.
  - assert (Hstep : estep g (addEdge source (edge_destination edge) Child g)).
    { apply estep_edge; [assumption| |assumption].
      eapply outgoing_destination_valid; [eassumption|].
      eapply nth_error_In; eassumption. }
    apply IH in H.
    + eapply esteps_trans; [apply esteps_one; exact Hstep|exact H].
    + eapply estep_well_formed; eassumption.
    + now rewrite addEdge_NEXT_NODE_ID.
    + now rewrite addEdge_type_of.
  - injection H as <-. apply esteps_refl.
Qed.

Lemma linkCalls_esteps fuel type source calls g0 :
  (forall c g r g',
     well_formed g -> processCallExpression sm fuel c g = Ok (r, g') ->
     esteps g g') ->
  well_formed g0 ->
  source < NEXT_NODE_ID g0 ->
  edge_allowed type (type_of source g0) = true ->
  forall s s',
    esteps g0 s ->
    forEach calls
      (fun call g =>
         '(callInfo, g) <- processCallExpression sm fuel call g ;;
         Ok (addEdge source callInfo type g)) s = Ok s' ->
    esteps g0 s'.
Proof.
  intros IH Hwf Hsrc Hty. apply forEach_Ok_ind.
  intros call s s' _ Hs H. inv_bind H as [callInfo s1] Hc.
  injection H as <-.
  assert (Hwfs : well_formed s) by (eapply esteps_well_formed; eauto).
  pose proof (IH _ _ _ _ Hwfs Hc) as Hs1.
  assert (H01 : esteps g0 s1) by (eapply esteps_trans; eauto).
  assert (Hwf1 : well_formed s1) by (eapply esteps_well_formed; eauto).
  apply process_sound in Hc. destruct Hc as [_ Hreg].
  pose proof (esteps_gsteps H01) as Hg.
  eapply esteps_step; [exact H01|].
  apply estep_edge.
  - apply gsteps_NEXT_NODE_ID in Hg. lia.
  - destruct (well_formed_registry_ok Hwf1) as [Hlt _]. eauto.
  - now rewrite (gsteps_type_of Hg).
Qed.

Lemma process_esteps fuel :
  (forall c g r g',
     well_formed g -> processCallExpression sm fuel c g = Ok (r, g') ->
     esteps g g')
  /\ (forall d g r g',
        well_formed g -> processDefinition sm fuel d g = Ok (r, g') ->
        esteps g g')
  /\ (forall d export_only g r g',
        well_formed g ->
        processVariableDeclaration sm fuel d export_only g = Ok (r, g') ->
        esteps g g')
  /\ (forall f g r g',
        well_formed g -> processFunctionDeclaration sm fuel f g = Ok (r, g') ->
        esteps g g')
  /\ (forall a g r g',
        well_formed g -> processArgument sm fuel a g = Ok (r, g') ->
        esteps g g').
Proof.
  induction fuel as [|fuel (IHcall & IHdef & IHvar & IHfun & IHarg)].
  { repeat split; discriminate. }
  split; [|split; [|split; [|split]]].
  - (* processCallExpression *)
    intros c g r g' Hwf H. simpl in H.
    destruct (addNodeIsNew_cases c Call g)
      as [(n & Hreg & E)|(Hnone & g1 & E & Hg1 & Hreg & Hnext & Hnode)];
      rewrite E in H; simpl in H.
    { injection H as <- <-. apply esteps_refl. }
    inv_bind H as g2 Hdefs. inv_bind H as g3 Hargs.
    injection H as <- <-.
    assert (H01 : esteps g g1) by (subst g1; apply esteps_one, estep_node, Hnone).
    assert (Hwf1 : well_formed g1) by (eapply esteps_well_formed; eauto).
    assert (Hsrc : NEXT_NODE_ID g < NEXT_NODE_ID g1) by lia.
    assert (Hty1 : type_of (NEXT_NODE_ID g) g1 = Some Call)
      by (unfold type_of; now rewrite Hnode).
    assert (Hkeep : forall s, esteps g1 s ->
              well_formed s /\ NEXT_NODE_ID g < NEXT_NODE_ID s
              /\ type_of (NEXT_NODE_ID g) s = Some Call).
    { intros s Hs. split; [eapply esteps_well_formed; eauto|].
      apply esteps_gsteps in Hs. split.
      - apply gsteps_NEXT_NODE_ID in Hs. lia.
      - now rewrite (gsteps_type_of Hs). }
    assert (H12 : esteps g1 g2).
    { destruct (SyntaxKind_eqb _ _).
      - revert Hdefs. apply forEach_Ok_ind; [|apply esteps_refl].
        intros d s s' _ Hs H. inv_bind H as [[definitionInfo|] s1] Hd;
          [|discriminate].
        destruct (Hkeep s Hs) as (Hwfs & _ & _).
        apply IHdef in Hd; [|assumption].
        assert (H1s1 : esteps g1 s1) by (eapply esteps_trans; eauto).
        destruct (Hkeep s1 H1s1) as (Hwfs1 & Hlt1 & Hty).
        apply spliceOutgoing_esteps in H;
          [eapply esteps_trans; eauto|assumption|assumption|now rewrite Hty].
      - injection Hdefs as <-. apply esteps_refl. }
    assert (H13 : esteps g1 g3).
    { revert Hargs. apply forEach_Ok_ind; [|exact H12].
      intros a s s' _ Hs H. inv_bind H as [argInfo s1] Ha.
      injection H as <-.
      destruct (Hkeep s Hs) as (Hwfs & _ & _).
      pose proof (IHarg _ _ _ _ Hwfs Ha) as Hs1.
      assert (H1s1 : esteps g1 s1) by (eapply esteps_trans; eauto).
      destruct (Hkeep s1 H1s1) as (Hwfs1 & Hlt1 & Hty).
      apply process_sound in Ha. destruct Ha as [_ Hrega].
      eapply esteps_step; [exact H1s1|].
      apply estep_edge; [assumption| |now rewrite Hty].
      destruct (well_formed_registry_ok Hwfs1) as [Hlt _]. eauto. }
    eauto using esteps_trans.
  - (* processDefinition *)
    intros d g r g' Hwf H. simpl in H.
    destruct (SyntaxKind_eqb (getKind sm d) VariableDeclaration).
    { eapply IHvar; eauto. }
    destruct (SyntaxKind_eqb (getKind sm d) FunctionDeclaration).
    { inv_bind H as [source g1] Hf. injection H as <- <-. eapply IHfun; eauto. }
    unfold addNode in H.
    destruct (addNodeIsNew_cases d Any g)
      as [(n & Hreg & E)|(Hnone & g1 & E & Hg1 & Hreg & _)];
      rewrite E in H; injection H as <- <-.
    + apply esteps_refl.
    + subst g1. apply esteps_one, estep_node, Hnone.
  - (* processVariableDeclaration *)
    intros d export_only g r g' Hwf H. simpl in H.
    destruct (export_only && negb (isExported sm d)).
    { injection H as <- <-. apply esteps_refl. }
    inv_bind H as init Hinit.
    set (functionLike := SyntaxKind_eqb (getKind sm init) ArrowFunction
                         || SyntaxKind_eqb (getKind sm init) FunctionExpression) in *.
    destruct (addNodeIsNew_cases d (if functionLike then Function else Object) g)
      as [(n & Hreg & E)|(Hnone & g1 & E & Hg1 & Hreg & Hnext & Hnode)];
      rewrite E in H; simpl in H.
    { injection H as <- <-. apply esteps_refl. }
    assert (H01 : esteps g g1) by (subst g1; apply esteps_one, estep_node, Hnone).
    assert (Hwf1 : well_formed g1) by (eapply esteps_well_formed; eauto).
    assert (Hsrc : NEXT_NODE_ID g < NEXT_NODE_ID g1) by lia.
    assert (Hty1 : type_of (NEXT_NODE_ID g) g1
                   = Some (if functionLike then Function else Object))
      by (unfold type_of; now rewrite Hnode).
    destruct functionLike.
    + destruct (getBody sm init) as [body|]; [|discriminate].
      inv_bind H as g2 Hloop. injection H as <- <-.
      apply linkCalls_esteps with (g0 := g1) in Hloop;
        [eauto using esteps_trans|assumption|assumption|assumption
        |now rewrite Hty1|apply esteps_refl].
    + inv_bind H as g2 Hloop. injection H as <- <-.
      assert (H12 : esteps g1 g2).
      { revert Hloop. apply forEach_Ok_ind; [|apply esteps_refl].
        intros ref s s' _ Hs. apply forEach_Ok_ind; [|exact Hs].
        clear s s' Hs. intros reference s s' _ Hs H.
        inv_bind H as temp Htemp. inv_bind H as call Hcall.
        destruct (_ && _).
        - inv_bind H as [callInfo s1] Hc. injection H as <-.
          assert (Hwfs : well_formed s) by (eapply esteps_well_formed; eauto).
          pose proof (IHcall _ _ _ _ Hwfs Hc) as Hs1.
          assert (H1s1 : esteps g1 s1) by (eapply esteps_trans; eauto).
          assert (Hwfs1 : well_formed s1) by (eapply esteps_well_formed; eauto).
          apply process_sound in Hc. destruct Hc as [_ Hregc].
          pose proof (esteps_gsteps H1s1) as Hg.
          eapply esteps_step; [exact H1s1|].
          apply estep_edge.
          + apply gsteps_NEXT_NODE_ID in Hg. lia.
          + destruct (well_formed_registry_ok Hwfs1) as [Hlt _]. eauto.
          + now rewrite (gsteps_type_of Hg), Hty1.
        - now injection H as <-. }
      eauto using esteps_trans.
  - (* processFunctionDeclaration *)
    intros f g r g' Hwf H. simpl in H.
    destruct (addNodeIsNew_cases f Function g)
      as [(n & Hreg & E)|(Hnone & g1 & E & Hg1 & Hreg & Hnext & Hnode)];
      rewrite E in H; simpl in H.
    { injection H as <- <-. apply esteps_refl. }
    inv_bind H as body Hbody. inv_bind H as g2 Hloop. injection H as <- <-.
    assert (H01 : esteps g g1) by (subst g1; apply esteps_one, estep_node, Hnone).
    assert (Hwf1 : well_formed g1) by (eapply esteps_well_formed; eauto).
    apply linkCalls_esteps with (g0 := g1) in Hloop;
      [eauto using esteps_trans|assumption|assumption|lia
      |unfold type_of; now rewrite Hnode|apply esteps_refl].
  - (* processArgument *)
    intros x g r g' Hwf H. simpl in H.
    destruct (addNodeIsNew_cases x Argument g)
      as [(n & Hreg & E)|(Hnone & g1 & E & Hg1 & Hreg & Hnext & Hnode)];
      rewrite E in H; simpl in H.
    { injection H as <- <-. apply esteps_refl. }
    inv_bind H as g2 Hloop. injection H as <- <-.
    assert (H01 : esteps g g1) by (subst g1; apply esteps_one, estep_node, Hnone).
    assert (Hwf1 : well_formed g1) by (eapply esteps_well_formed; eauto).
    apply linkCalls_esteps with (g0 := g1) in Hloop;
      [eauto using esteps_trans|assumption|assumption|lia
      |unfold type_of; now rewrite Hnode|apply esteps_refl].
Qed.

Lemma processMethodDeclaration_esteps fuel m g r g' :
  well_formed g -> processMethodDeclaration sm fuel m g = Ok (r, g') ->
  esteps g g'.
Proof.
  intros Hwf H. destruct fuel as [|fuel]; [discriminate|].
  unfold processMethodDeclaration in H.
  destruct (addNodeIsNew_cases m Function g)
    as [(n & Hreg & E)|(Hnone & g1 & E & Hg1 & Hreg & Hnext & Hnode)];
    rewrite E in H; simpl in H.
  { injection H as <- <-. apply esteps_refl. }
  inv_bind H as body Hbody. inv_bind H as g2 Hloop. injection H as <- <-.
  assert (H01 : esteps g g1) by (subst g1; apply esteps_one, estep_node, Hnone).
  assert (Hwf1 : well_formed g1) by (eapply esteps_well_formed; eauto).
  apply linkCalls_esteps with (g0 := g1) in Hloop;
    [eauto using esteps_trans|apply process_esteps|assumption|lia
    |unfold type_of; now rewrite Hnode|apply esteps_refl].
Qed.

Lemma process_well_formed fuel t g r g' :
  well_formed g -> process sm fuel t g = Ok (r, g') ->
  esteps g g' /\ well_formed g'.
Proof.
  intros Hwf H.
  assert (Hsteps : esteps g g').
  { destruct (process_esteps fuel) as (Hcall & Hdef & Hvar & Hfun & Harg).
    destruct t as [m|d eo|c|d|f|a]; simpl in H.
    - inv_bind H as [n g1] H1. injection H as <- <-.
      eapply processMethodDeclaration_esteps; eauto.
    - eauto.
    - inv_bind H as [n g1] H1. injection H as <- <-. eauto.
    - eauto.
    - inv_bind H as [n g1] H1. injection H as <- <-. eauto.
    - inv_bind H as [n g1] H1. injection H as <- <-. eauto. }
  split; [assumption|eapply esteps_well_formed; eauto].
Qed.

Lemma builds_well_formed g g' :
  builds sm g g' -> well_formed g -> esteps g g' /\ well_formed g'.
Proof.
  induction 1 as [|g1 g2 g3 fuel t r _ IH H]; intros Hwf.
  - split; [apply esteps_refl|assumption].
  - destruct (IH Hwf) as [H12 Hwf2].
    destruct (process_well_formed _ _ Hwf2 H) as [H23 Hwf3].
    split; [eapply esteps_trans; eauto|assumption].
Qed.

Lemma reachable_well_formed g : reachable sm g -> well_formed g.
Proof.
  intros H. apply builds_well_formed in H; [apply H|apply well_formed_new].
Qed.

Lemma built_reachable fuel : reachable sm (built sm fuel).
Proof.
  unfold built.
  destruct (initialize sm fuel CodeFlowGraph_new) as [g| |] eqn:E;
    [now apply initialize_reachable with fuel|apply builds_refl..].
Qed.
End WellFormed.

(** ** Graphs met in a build *)

Lemma In_map_get {V : Type} (m : list (nat * V)) k v :
  NoDup (map fst m) -> In (k, v) m -> map_get k m = Some v.
Proof.
  induction m as [|[k' v'] m IH]; simpl; intros Hnd Hin; [contradiction|].
  inversion Hnd as [|? ? Hnotin Hnd']; subst.
  destruct Hin as [[= -> ->]|Hin].
  - now rewrite Nat.eqb_refl.
  - destruct (Nat.eqb k k') eqn:E; [|auto].
    apply Nat.eqb_eq in E. subst k'. exfalso. apply Hnotin.
    apply in_map_iff. now exists (k, v).
Qed.

Lemma node_keys_NoDup g : node_ids_contiguous g -> NoDup (map fst (nodes g)).
Proof. intros [H _]. rewrite H. apply seq_NoDup. Qed.

(** X1: in a graph met in a build the node map has the keys 0, 1, ... in
    this order up to the counter, and the node stored under a key has
    that key as its id. *)
Theorem node_ids_in_creation_order sm g :
  reachable sm g ->
  map fst (nodes g) = seq 0 (NEXT_NODE_ID g)
  /\ List.length (nodes g) = NEXT_NODE_ID g
  /\ forall k n, map_get k (nodes g) = Some n -> node_id n = k.
Proof.
  intros H. apply reachable_well_formed in H. destruct H as ([Hkeys Hid] & _).
  split; [assumption|]. split.
  - rewrite <- (length_map fst), Hkeys. apply length_seq.
  - intros k n Hget. apply Hid. now apply map_get_In.
Qed.

Lemma node_ids_in_creation_order_witness :
  reachable Tryaway.whole_file (built Tryaway.whole_file 4)
  /\ map fst (nodes (built Tryaway.whole_file 4))
     = seq 0 (NEXT_NODE_ID (built Tryaway.whole_file 4)).
Proof.
  split; [apply built_reachable|].
  apply (node_ids_in_creation_order (built_reachable Tryaway.whole_file 4)).
Defined.

(** X2: the same for edges: the edge store has the keys 0, 1, ... up to
    the edge counter, and an edge's id is its key. *)
Theorem edge_ids_in_creation_order sm g :
  reachable sm g ->
  map fst (edges g) = seq 0 (NEXT_EDGE_ID g)
  /\ List.length (edges g) = NEXT_EDGE_ID g
  /\ forall k e, map_get k (edges g) = Some e -> edge_id e = k.
Proof.
  intros H. apply reachable_well_formed in H.
  destruct H as (_ & [Hkeys Hid] & _).
  split; [assumption|]. split.
  - rewrite <- (length_map fst), Hkeys. apply length_seq.
  - intros k e Hget. apply Hid. now apply map_get_In.
Qed.

Lemma edge_ids_in_creation_order_witness :
  reachable Tryaway.whole_file (built Tryaway.whole_file 4)
  /\ map fst (edges (built Tryaway.whole_file 4))
     = seq 0 (NEXT_EDGE_ID (built Tryaway.whole_file 4)).
Proof.
  split; [apply built_reachable|].
  apply (edge_ids_in_creation_order (built_reachable Tryaway.whole_file 4)).
Defined.

Lemma registered_iff_node g c n :
  well_formed g ->
  (registered c n g <->
   exists info, map_get n (nodes g) = Some info /\ node_node info = c).
Proof.
  intros (Hn & _ & [Hreg Hnd] & _). unfold registered. split.
  - intros H. apply map_get_In in H. rewrite Hreg in H.
    apply in_map_iff in H. destruct H as ([k info] & [= <- <-] & Hin).
    exists info. split; [|reflexivity].
    apply In_map_get; [now apply node_keys_NoDup|assumption].
  - intros (info & Hget & <-). apply In_map_get; [assumption|].
    rewrite Hreg. apply in_map_iff. exists (n, info).
    split; [reflexivity|now apply map_get_In].
Qed.

(** X3: in a graph met in a build a construct is registered under a node
    id exactly when the node stored under that id is the node of that
    construct; and no two nodes have the same construct. *)
Theorem one_node_per_construct sm g :
  reachable sm g ->
  (forall c n,
     registered c n g <->
     exists info, map_get n (nodes g) = Some info /\ node_node info = c)
  /\ (forall k1 k2 n1 n2,
        map_get k1 (nodes g) = Some n1 -> map_get k2 (nodes g) = Some n2 ->
        node_node n1 = node_node n2 -> k1 = k2)
  /\ List.length (nodeToInfo g) = List.length (nodes g).
Proof.
  intros H. apply reachable_well_formed in H. split; [|split].
  - intros c n. now apply registered_iff_node.
  - intros k1 k2 n1 n2 H1 H2 Heq.
    assert (R1 : registered (node_node n1) k1 g)
      by (apply registered_iff_node; eauto).
    assert (R2 : registered (node_node n1) k2 g)
      by (apply registered_iff_node; eauto).
    unfold registered in *. congruence.
  - destruct H as (_ & _ & [Hreg _] & _). rewrite Hreg. apply length_map.
Qed.

Lemma one_node_per_construct_witness :
  reachable Tryaway.whole_file (built Tryaway.whole_file 4)
  /\ List.length (nodeToInfo (built Tryaway.whole_file 4))
     = List.length (nodes (built Tryaway.whole_file 4)).
Proof.
  split; [apply built_reachable|].
  apply (one_node_per_construct (built_reachable Tryaway.whole_file 4)).
Defined.

(** X4: in a graph met in a build the [outgoing] list of a node is the
    list of the edges of the store whose source it is, and its [incoming]
    list the list of those whose destination it is, both in the order of
    the store. *)
Theorem adjacency_lists_are_the_store sm g :
  reachable sm g ->
  forall k,
    k < NEXT_NODE_ID g ->
    outgoing_of k g
    = filter (fun e => Nat.eqb (edge_source e) k) (map snd (edges g))
    /\ incoming_of k g
       = filter (fun e => Nat.eqb (edge_destination e) k) (map snd (edges g)).
Proof.
  intros H. apply reachable_well_formed in H. apply H.
Qed.

Lemma adjacency_lists_are_the_store_witness :
  reachable Tryaway.whole_file (built Tryaway.whole_file 4)
  /\ 2 < NEXT_NODE_ID (built Tryaway.whole_file 4)
  /\ outgoing_of 2 (built Tryaway.whole_file 4)
     = filter (fun e => Nat.eqb (edge_source e) 2)
         (map snd (edges (built Tryaway.whole_file 4))).
Proof.
  assert (H : 2 < NEXT_NODE_ID (built Tryaway.whole_file 4))
    by (vm_compute; lia).
  split; [apply built_reachable|]. split; [exact H|].
  apply (adjacency_lists_are_the_store (built_reachable Tryaway.whole_file 4) H).
Defined.

(** X5: in a graph met in a build both ends of every edge of the store
    are nodes of the graph. *)
Theorem edge_ends_are_nodes sm g :
  reachable sm g ->
  forall k e,
    map_get k (edges g) = Some e ->
    (exists n, map_get (edge_source e) (nodes g) = Some n)
    /\ (exists n, map_get (edge_destination e) (nodes g) = Some n).
Proof.
  intros H k e Hget. apply reachable_well_formed in H.
  destruct H as ([Hkeys _] & _ & _ & _ & _ & Hv & _).
  apply map_get_In, Hv in Hget. destruct Hget as [Hs Hd].
  assert (Hex : forall i, i < NEXT_NODE_ID g ->
                          exists n, map_get i (nodes g) = Some n).
  { intros i Hi. destruct (map_get i (nodes g)) as [n|] eqn:E; [eauto|].
    apply (@map_get_seq _ _ _ _ Hkeys) in E. lia. }
  split; auto.
Qed.

Lemma edge_ends_are_nodes_witness :
  let g := built Tryaway.whole_file 4 in
  let e := {| edge_source := 2; edge_destination := 3; edge_id := 0;
              edge_type := ArgumentEdge |} in
  reachable Tryaway.whole_file g
  /\ map_get 0 (edges g) = Some e
  /\ (exists n, map_get (edge_source e) (nodes g) = Some n)
  /\ (exists n, map_get (edge_destination e) (nodes g) = Some n).
Proof.
  intros g e.
  assert (H : map_get 0 (edges g) = Some e) by (vm_compute; reflexivity).
  split; [apply built_reachable|]. split; [exact H|].
  exact (edge_ends_are_nodes (built_reachable Tryaway.whole_file 4) 0 H).
Defined.

(** X6: in a graph met in a build an edge of type [Call] leaves a node of
    type [Object], and an edge of type [Child] leaves a node of type
    [Function], [Call] or [Argument]. *)
Theorem edge_type_fixes_source_type sm g :
  reachable sm g ->
  forall k e,
    map_get k (edges g) = Some e ->
    (edge_type e = CallEdge -> type_of (edge_source e) g = Some Object)
    /\ (edge_type e = Child ->
        type_of (edge_source e) g = Some Function
        \/ type_of (edge_source e) g = Some Call
        \/ type_of (edge_source e) g = Some Argument).
Proof.
  intros H k e Hget. apply reachable_well_formed in H.
  destruct H as (_ & _ & _ & _ & _ & _ & Ht).
  apply map_get_In, Ht in Hget.
  destruct (edge_type e), (type_of (edge_source e) g) as [[]|];
    simpl in Hget; try discriminate; split; intros; try discriminate; auto.
Qed.

Lemma edge_type_fixes_source_type_witness :
  let g := built Tryaway.whole_file 4 in
  let e := {| edge_source := 1; edge_destination := 2; edge_id := 2;
              edge_type := CallEdge |} in
  reachable Tryaway.whole_file g
  /\ map_get 2 (edges g) = Some e
  /\ type_of (edge_source e) g = Some Object.
Proof.
  intros g e.
  assert (H : map_get 2 (edges g) = Some e) by (vm_compute; reflexivity).
  split; [apply built_reachable|]. split; [exact H|].
  exact (proj1 (edge_type_fixes_source_type
                  (built_reachable Tryaway.whole_file 4) 2 H) eq_refl).
Defined.

(** X7: in a graph met in a build a node of type [Any] has no outgoing
    edge, the outgoing edges of a node of type [Object] are all of type
    [Call], those of a node of type [Function] or [Argument] all of type
    [Child], and a node of type [Call] has no outgoing edge of type
    [Call]. *)
Theorem outgoing_edges_by_node_type sm g :
  reachable sm g ->
  forall k n,
    map_get k (nodes g) = Some n ->
    match node_type n with
    | Any => outgoing n = []
    | Object => forall e, In e (outgoing n) -> edge_type e = CallEdge
    | Function | Argument => forall e, In e (outgoing n) -> edge_type e = Child
    | Call => forall e, In e (outgoing n) -> edge_type e <> CallEdge
    end.
Proof.
  intros H k n Hget. apply reachable_well_formed in H.
  destruct H as ([Hkeys _] & _ & _ & _ & Ha & _ & Ht).
  assert (Hk : k < NEXT_NODE_ID g).
  { destruct (Nat.lt_ge_cases k (NEXT_NODE_ID g)) as [?|Hge]; [assumption|].
    apply (@map_get_seq _ _ _ _ Hkeys) in Hge. congruence. }
  assert (Hall : forall e, In e (outgoing n) ->
                           edge_allowed (edge_type e) (Some (node_type n)) = true).
  { intros e He. destruct (Ha k Hk) as [Hout _].
    unfold outgoing_of in Hout. rewrite Hget in Hout. rewrite Hout in He.
    apply filter_In in He. destruct He as [He Hsrc].
    apply Nat.eqb_eq in Hsrc. apply In_map_snd in He. destruct He as [k' He].
    apply Ht in He. unfold type_of in He. now rewrite Hsrc, Hget in He. }
  destruct (node_type n).
  - intros e He. apply Hall in He. destruct (edge_type e); simpl in He; congruence.
  - intros e He. apply Hall in He. destruct (edge_type e); simpl in He; congruence.
  - intros e He. apply Hall in He. destruct (edge_type e); simpl in He; congruence.
  - intros e He. apply Hall in He. destruct (edge_type e); simpl in He; congruence.
  - destruct (outgoing n) as [|e l]; [reflexivity|].
    specialize (Hall e (or_introl eq_refl)).
    destruct (edge_type e); discriminate.
Qed.

Lemma outgoing_edges_by_node_type_witness :
  let g := built Tryaway.whole_file 4 in
  let n := {| node_node := Tryaway.param_callback; incoming := [];
              outgoing := []; node_id := 7; node_type := Any |} in
  reachable Tryaway.whole_file g
  /\ map_get 7 (nodes g) = Some n
  /\ outgoing n = [].
Proof.
  intros g n.
  assert (H : map_get 7 (nodes g) = Some n) by (vm_compute; reflexivity).
  split; [apply built_reachable|]. split; [exact H|].
  exact (outgoing_edges_by_node_type (built_reachable Tryaway.whole_file 4) 7 H).
Defined.

(** ** A build only adds *)







(** X9: [addNode] is idempotent: asked again for the same construct, with
    whatever type, it returns the node it returned and leaves the graph
    as it is; and [addNodeIsNew] then reports that nothing is new. *)
Theorem addNode_idempotent node type1 type2 g :
  addNode node type2 (snd (addNode node type1 g))
  = (fst (addNode node type1 g), snd (addNode node type1 g))
  /\ snd (fst (addNodeIsNew node type2 (snd (addNode node type1 g)))) = false.
Proof.
  unfold addNode.
  destruct (addNodeIsNew_cases node type1 g)
    as [(n & Hreg & E)|(Hnone & g1 & E & Hg1 & Hreg & _)];
    rewrite E; cbn [fst snd].
  - rewrite (@addNodeIsNew_hit node type2 g n Hreg). now split.
  - rewrite (@addNodeIsNew_hit node type2 g1 (NEXT_NODE_ID g) Hreg). now split.
Qed.

(** ** The node an operation returns *)

Section Returned.
Variable sm : SourceModel.

(** X10: an operation that returns a node on a graph met in a build
    returns the node of its construct: the node stored under the id
    returned has that construct, and that id. *)
Theorem process_returns_node_of_construct fuel t g n g' :
  reachable sm g ->
  process sm fuel t g = Ok (Some n, g') ->
  exists info,
    map_get n (nodes g') = Some info
    /\ node_node info = construct_node t /\ node_id info = n.
Proof.
  intros Hg H.
  assert (Hwf : well_formed g').
  { apply reachable_well_formed with sm.
    eapply builds_step; [exact Hg|exact H]. }
  apply process_gsteps in H. destruct H as [_ Hreg].
  specialize (Hreg n eq_refl).
  apply (registered_iff_node _ _ Hwf) in Hreg.
  destruct Hreg as (info & Hget & Hnode).
  exists info. repeat split; try assumption.
  destruct Hwf as ([_ Hid] & _). apply Hid. now apply map_get_In.
Qed.

Lemma linkCalls_from fuel type source calls g0 :
  type <> ArgumentEdge ->
  source < NEXT_NODE_ID g0 ->
  forall g',
    forEach calls
      (fun call g =>
         '(callInfo, g) <- processCallExpression sm fuel call g ;;
         Ok (addEdge source callInfo type g)) g0 = Ok g' ->
    gsteps g0 g'.
Proof.
  intros Hty Hsrc g' H.
  eapply linkCalls_gsteps; [apply process_sound|exact Hty|exact Hsrc| |exact H].
  apply gsteps_refl.
Qed.

Lemma created_node_kept node type g g' :
  map_get node (nodeToInfo g) = None ->
  gsteps (snd (addNodeIsNew node type g)) g' ->
  type_of (NEXT_NODE_ID g) g' = Some type.
Proof.
  intros Hnone H.
  destruct (addNodeIsNew_cases node type g)
    as [(n & Hreg & _)|(_ & g1 & _ & Hg1 & _ & Hnext & Hnode)]; [congruence|].
  rewrite <- Hg1 in H. rewrite (gsteps_type_of H) by lia.
  unfold type_of. now rewrite Hnode.
Qed.

Lemma processCallExpression_from fuel c g r g' :
  map_get c (nodeToInfo g) = None ->
  processCallExpression sm fuel c g = Ok (r, g') ->
  r = NEXT_NODE_ID g /\ gsteps (snd (addNodeIsNew c Call g)) g'.
Proof.
  intros Hnone H. destruct fuel as [|fuel]; [discriminate|]. simpl in H.
  destruct (addNodeIsNew_cases c Call g)
    as [(n & Hreg & E)|(_ & g1 & E & Hg1 & Hreg & Hnext & Hnode)];
    [congruence|].
  rewrite E in H; simpl in H. rewrite <- Hg1.
  inv_bind H as g2 Hdefs. inv_bind H as g3 Hargs. injection H as <- <-.
  split; [reflexivity|].
  assert (H12 : gsteps g1 g2).
  { destruct (SyntaxKind_eqb _ _).
    - revert Hdefs. apply forEach_Ok_ind; [|apply gsteps_refl].
      intros d s s' _ Hs H. inv_bind H as [[definitionInfo|] s1] Hd;
        [|discriminate].
      apply process_sound in Hd. destruct Hd as [Hd _].
      apply spliceOutgoing_gsteps in H.
      + eauto using gsteps_trans.
      + apply gsteps_NEXT_NODE_ID in Hs, Hd. lia.
    - injection Hdefs as <-. apply gsteps_refl. }
  revert Hargs. apply forEach_Ok_ind; [|exact H12].
  intros a s s' _ Hs H. inv_bind H as [argInfo s1] Ha.
  injection H as <-. apply process_sound in Ha. destruct Ha as [Ha _].
  pose proof (gsteps_trans Hs Ha) as H1s.
  eapply gsteps_step; [exact H1s|].
  apply gstep_edge.
  - apply gsteps_NEXT_NODE_ID in H1s. lia.
  - intros _. rewrite (gsteps_type_of H1s) by lia.
    unfold type_of. now rewrite Hnode.
Qed.

Lemma processFunctionDeclaration_from fuel f g r g' :
  map_get f (nodeToInfo g) = None ->
  processFunctionDeclaration sm fuel f g = Ok (r, g') ->
  r = NEXT_NODE_ID g /\ gsteps (snd (addNodeIsNew f Function g)) g'.
Proof.
  intros Hnone H. destruct fuel as [|fuel]; [discriminate|]. simpl in H.
  destruct (addNodeIsNew_cases f Function g)
    as [(n & Hreg & E)|(_ & g1 & E & Hg1 & Hreg & Hnext & Hnode)];
    [congruence|].
  rewrite E in H; simpl in H. rewrite <- Hg1.
  inv_bind H as body Hbody. inv_bind H as g2 Hloop. injection H as <- <-.
  split; [reflexivity|].
  apply linkCalls_from in Hloop; [assumption|discriminate|lia].
Qed.

Lemma processMethodDeclaration_from fuel m g r g' :
  map_get m (nodeToInfo g) = None ->
  processMethodDeclaration sm fuel m g = Ok (r, g') ->
  r = NEXT_NODE_ID g /\ gsteps (snd (addNodeIsNew m Function g)) g'.
Proof.
  intros Hnone H. destruct fuel as [|fuel]; [discriminate|].
  unfold processMethodDeclaration in H.
  destruct (addNodeIsNew_cases m Function g)
    as [(n & Hreg & E)|(_ & g1 & E & Hg1 & Hreg & Hnext & Hnode)];
    [congruence|].
  rewrite E in H; simpl in H. rewrite <- Hg1.
  inv_bind H as body Hbody. inv_bind H as g2 Hloop. injection H as <- <-.
  split; [reflexivity|].
  apply linkCalls_from in Hloop; [assumption|discriminate|lia].
Qed.

Lemma processArgument_from fuel a g r g' :
  map_get a (nodeToInfo g) = None ->
  processArgument sm fuel a g = Ok (r, g') ->
  r = NEXT_NODE_ID g /\ gsteps (snd (addNodeIsNew a Argument g)) g'.
Proof.
  intros Hnone H. destruct fuel as [|fuel]; [discriminate|]. simpl in H.
  destruct (addNodeIsNew_cases a Argument g)
    as [(n & Hreg & E)|(_ & g1 & E & Hg1 & Hreg & Hnext & Hnode)];
    [congruence|].
  rewrite E in H; simpl in H. rewrite <- Hg1.
  inv_bind H as g2 Hloop. injection H as <- <-.
  split; [reflexivity|].
  apply linkCalls_from in Hloop; [assumption|discriminate|lia].
Qed.

Lemma processVariableDeclaration_from fuel d export_only g n g' :
  map_get d (nodeToInfo g) = None ->
  processVariableDeclaration sm fuel d export_only g = Ok (Some n, g') ->
  n = NEXT_NODE_ID g
  /\ gsteps (snd (addNodeIsNew d (variable_type sm d) g)) g'.
Proof.
  intros Hnone H. destruct fuel as [|fuel]; [discriminate|]. simpl in H.
  destruct (export_only && negb (isExported sm d)); [discriminate|].
  unfold variable_type.
  destruct (getInitializer sm d) as [init|]; [|discriminate]. simpl in H.
  set (functionLike := SyntaxKind_eqb (getKind sm init) ArrowFunction
                       || SyntaxKind_eqb (getKind sm init) FunctionExpression) in *.
  destruct (addNodeIsNew_cases d (if functionLike then Function else Object) g)
    as [(k & Hreg & E)|(_ & g1 & E & Hg1 & Hreg & Hnext & Hnode)];
    [congruence|].
  rewrite E in H; simpl in H. rewrite <- Hg1.
  destruct functionLike.
  - destruct (getBody sm init) as [body|]; [|discriminate].
    inv_bind H as g2 Hloop. injection H as <- <-.
    split; [reflexivity|].
    apply linkCalls_from in Hloop; [assumption|discriminate|lia].
  - inv_bind H as g2 Hloop. injection H as <- <-.
    split; [reflexivity|].
    revert Hloop. apply forEach_Ok_ind; [|apply gsteps_refl].
    intros ref s s' _ Hs. apply forEach_Ok_ind; [|exact Hs].
    clear s s' Hs. intros reference s s' _ Hs H.
    inv_bind H as temp Htemp. inv_bind H as call Hcall.
    destruct (_ && _).
    + inv_bind H as [callInfo s1] Hc. injection H as <-.
      apply process_sound in Hc. destruct Hc as [Hc _].
      eapply gsteps_step; [eapply gsteps_trans; eassumption|].
      apply gstep_edge; [|discriminate].
      apply gsteps_NEXT_NODE_ID in Hs, Hc. lia.
    + now injection H as <-.
Qed.

(** X11: an operation that returns a node for a construct that had none
    has created it: the node has the next id and the type of the
    operation, [Function] for a function, a method and a variable bound
    to an arrow function or a function expression, [Object] for any other
    variable, [Call] for a call, [Argument] for an argument, [Any] for a
    definition that is neither a variable nor a function declaration. *)
Theorem new_node_has_the_type_of_the_operation fuel t g n g' :
  map_get (construct_node t) (nodeToInfo g) = None ->
  process sm fuel t g = Ok (Some n, g') ->
  n = NEXT_NODE_ID g /\ type_of n g' = Some (created_type sm t).
Proof.
  intros Hnone H.
  destruct t as [m|d eo|c|d|f|a]; cbn [process construct_node created_type] in *.
  - inv_bind H as [r g1] H1. injection H as <- <-.
    destruct (@processMethodDeclaration_from _ _ _ _ _ Hnone H1) as [-> Hs].
    split; [reflexivity|]. now apply created_node_kept with m.
  - destruct (@processVariableDeclaration_from _ _ _ _ _ _ Hnone H) as [-> Hs].
    split; [reflexivity|]. now apply created_node_kept with d.
  - inv_bind H as [r g1] H1. injection H as <- <-.
    destruct (@processCallExpression_from _ _ _ _ _ Hnone H1) as [-> Hs].
    split; [reflexivity|]. now apply created_node_kept with c.
  - destruct fuel as [|fuel]; [discriminate|]. simpl in H.
    destruct (SyntaxKind_eqb (getKind sm d) VariableDeclaration) eqn:Ev.
    { apply SyntaxKind_eqb_eq in Ev. rewrite Ev.
      destruct (@processVariableDeclaration_from _ _ _ _ _ _ Hnone H) as [-> Hs].
      split; [reflexivity|]. now apply created_node_kept with d. }
    destruct (SyntaxKind_eqb (getKind sm d) FunctionDeclaration) eqn:Ef.
    { apply SyntaxKind_eqb_eq in Ef. rewrite Ef.
      inv_bind H as [r g1] H1. injection H as <- <-.
      destruct (@processFunctionDeclaration_from _ _ _ _ _ Hnone H1) as [-> Hs].
      split; [reflexivity|]. now apply created_node_kept with d. }
    assert (Hany : match getKind sm d with
                   | VariableDeclaration => variable_type sm d
                   | FunctionDeclaration => Function
                   | _ => Any
                   end = Any)
      by (destruct (getKind sm d); simpl in Ev, Ef; congruence).
    rewrite Hany. unfold addNode in H.
    destruct (addNodeIsNew d Any g) as [[source isNew] g1] eqn:E.
    injection H as <- <-.
    assert (Hg1 : g1 = snd (addNodeIsNew d Any g)) by now rewrite E.
    assert (Hsrc : source = NEXT_NODE_ID g).
    { unfold addNodeIsNew in E. rewrite Hnone in E. now injection E as <- _ _. }
    subst source. split; [reflexivity|].
    apply created_node_kept with d; [assumption|].
    rewrite <- Hg1. apply gsteps_refl.
  - inv_bind H as [r g1] H1. injection H as <- <-.
    destruct (@processFunctionDeclaration_from _ _ _ _ _ Hnone H1) as [-> Hs].
    split; [reflexivity|]. now apply created_node_kept with f.
  - inv_bind H as [r g1] H1. injection H as <- <-.
    destruct (@processArgument_from _ _ _ _ _ Hnone H1) as [-> Hs].
    split; [reflexivity|]. now apply created_node_kept with a.
Qed.
End Returned.

Lemma process_returns_node_of_construct_witness :
  let g := built Tryaway.whole_file 4 in
  reachable Tryaway.whole_file g
  /\ process Tryaway.whole_file 1 (ACall Tryaway.call_foo_bar) g = Ok (Some 2, g)
  /\ exists info,
       map_get 2 (nodes g) = Some info
       /\ node_node info = Tryaway.call_foo_bar /\ node_id info = 2.
Proof.
  intros g.
  assert (H : process Tryaway.whole_file 1 (ACall Tryaway.call_foo_bar) g
              = Ok (Some 2, g)) by (vm_compute; reflexivity).
  split; [apply built_reachable|]. split; [exact H|].
  exact (@process_returns_node_of_construct
           Tryaway.whole_file 1 (ACall Tryaway.call_foo_bar) g 2 g
           (built_reachable Tryaway.whole_file 4) H).
Defined.

Lemma new_node_has_the_type_of_the_operation_witness :
  let g' := built Tryaway.class_only 4 in
  map_get Tryaway.method_bar (nodeToInfo CodeFlowGraph_new) = None
  /\ process Tryaway.class_only 4 (AMethod Tryaway.method_bar) CodeFlowGraph_new
     = Ok (Some 0, g')
  /\ 0 = NEXT_NODE_ID CodeFlowGraph_new
  /\ type_of 0 g' = Some Function.
Proof.
  intros g'.
  assert (H : process Tryaway.class_only 4 (AMethod Tryaway.method_bar)
                CodeFlowGraph_new = Ok (Some 0, g'))
    by (vm_compute; reflexivity).
  split; [reflexivity|]. split; [exact H|].
  exact (@new_node_has_the_type_of_the_operation
           Tryaway.class_only 4 (AMethod Tryaway.method_bar) CodeFlowGraph_new
           0 g' eq_refl H).
Defined.

(** ** What [initialize] covers *)

Lemma forEach_each {A : Type} (l : list A)
  (body : A -> CodeFlowGraph -> Result CodeFlowGraph)
  (P : A -> CodeFlowGraph -> Prop) :
  (forall x s s', In x l -> body x s = Ok s' -> gsteps s s' /\ P x s') ->
  (forall x s s', P x s -> gsteps s s' -> P x s') ->
  forall s s',
    forEach l body s = Ok s' -> gsteps s s' /\ forall x, In x l -> P x s'.
Proof.
  intros Hbody Hmono. induction l as [|a l IH]; simpl; intros s s' H.
  - injection H as <-. split; [apply gsteps_refl|contradiction].
  - inv_bind H as s1 H1.
    destruct (Hbody a s s1 (or_introl eq_refl) H1) as [Hs1 Pa].
    destruct IH with (s := s1) (s' := s') as [Hs' Pl]; [|assumption|].
    { intros x t t' Hx. apply Hbody. now right. }
    split; [eauto using gsteps_trans|].
    intros x [<-|Hx]; [eapply Hmono; eauto|auto].
Qed.

Section Coverage.
Variable sm : SourceModel.

Lemma has_node_kept (x : Node) s s' :
  (exists n, registered x n s) -> gsteps s s' -> exists n, registered x n s'.
Proof.
  intros [n H] Hs. exists n. eapply gsteps_registered; eauto.
Qed.

Lemma processFunctions_covers fuel sourceFile s s' :
  processFunctions sm fuel sourceFile s = Ok s' ->
  gsteps s s'
  /\ forall f, In f (getFunctions sm sourceFile) -> exists n, registered f n s'.
Proof.
  unfold processFunctions.
  apply forEach_each with (P := fun f t => exists n, registered f n t).
  - intros f t t' _ H. inv_bind H as [r t1] Hp. injection H as <-.
    apply process_sound in Hp. destruct Hp. eauto.
  - intros. eapply has_node_kept; eauto.
Qed.

Lemma processClasses_covers fuel sourceFile s s' :
  processClasses sm fuel sourceFile s = Ok s' ->
  gsteps s s'
  /\ forall c, In c (getClasses sm sourceFile) ->
     forall m, In m (getMethods sm c) -> exists n, registered m n s'.
Proof.
  unfold processClasses.
  apply forEach_each
    with (P := fun c t => forall m, In m (getMethods sm c) ->
                                    exists n, registered m n t).
  - intros c t t' _. unfold processClass.
    apply forEach_each with (P := fun m u => exists n, registered m n u).
    + intros m u u' _ H. inv_bind H as [r u1] Hp. injection H as <-.
      apply processMethodDeclaration_sound in Hp. destruct Hp. eauto.
    + intros. eapply has_node_kept; eauto.
  - intros c t t' H Hs m Hm. eapply has_node_kept; eauto.
Qed.

Lemma processVariables_covers fuel sourceFile s s' :
  processVariables sm fuel sourceFile s = Ok s' ->
  gsteps s s'
  /\ forall d, In d (declarations_of sm sourceFile) -> isExported sm d = true ->
               exists n, registered d n s'.
Proof.
  unfold processVariables. intros H.
  apply forEach_each
    with (P := fun variable t =>
                 forall statement d,
                   getVariableStatement sm variable = Some statement ->
                   In d (getDeclarations sm statement) ->
                   isExported sm d = true -> exists n, registered d n t)
    in H.
  - destruct H as [Hs Hall]. split; [assumption|].
    intros d Hd Hexp. unfold declarations_of in Hd.
    apply in_flat_map in Hd. destruct Hd as (variable & Hv & Hd).
    destruct (getVariableStatement sm variable) as [statement|] eqn:E;
      [|contradiction].
    eapply Hall; eauto.
  - intros variable t t' _ Hv. inv_bind Hv as statement Hst.
    destruct (getVariableStatement sm variable) as [st|]; [|discriminate].
    injection Hst as ->.
    apply forEach_each
      with (P := fun d u => isExported sm d = true -> exists n, registered d n u)
      in Hv.
    + destruct Hv as [Hs Hall]. split; [assumption|].
      intros statement' d [= <-]. apply Hall.
    + intros d u u' _ Hd. inv_bind Hd as [r u1] Hp. injection Hd as <-.
      pose proof (processVariableDeclaration_result _ _ _ _ _ Hp) as Hr.
      apply process_sound in Hp. destruct Hp as [Hs Hreg].
      split; [assumption|]. intros Hexp.
      destruct Hr as [(Hguard & _)|(_ & init & n & _ & ->)].
      * rewrite Hexp in Hguard. discriminate.
      * eauto.
    + intros d u u' Hp Hs Hexp. eapply has_node_kept; eauto.
  - intros variable t t' Hp Hs statement d Hst Hd Hexp.
    eapply has_node_kept; eauto.
Qed.

(** X12: when [initialize] returns, every function of every source
    file, every method of every class of every source file, and every
    exported declaration of every variable statement of every source file
    has a node. *)
Theorem initialize_covers_the_declarations fuel g0 g :
  initialize sm fuel g0 = Ok g ->
  forall sourceFile,
    In sourceFile (getSourceFiles sm) ->
    (forall f, In f (getFunctions sm sourceFile) -> exists n, registered f n g)
    /\ (forall c m,
          In c (getClasses sm sourceFile) -> In m (getMethods sm c) ->
          exists n, registered m n g)
    /\ (forall d,
          In d (declarations_of sm sourceFile) -> isExported sm d = true ->
          exists n, registered d n g).
Proof.
  unfold initialize. intros H.
  apply forEach_each
    with (P := fun sourceFile t =>
       (forall f, In f (getFunctions sm sourceFile) -> exists n, registered f n t)
       /\ (forall c m,
             In c (getClasses sm sourceFile) -> In m (getMethods sm c) ->
             exists n, registered m n t)
       /\ (forall d,
             In d (declarations_of sm sourceFile) -> isExported sm d = true ->
             exists n, registered d n t))
    in H.
  - apply H.
  - intros sourceFile t t' _ Hb.
    inv_bind Hb as t1 Hvars. inv_bind Hb as t2 Hfuns.
    apply processVariables_covers in Hvars. destruct Hvars as [H1 Hv].
    apply processFunctions_covers in Hfuns. destruct Hfuns as [H2 Hf].
    apply processClasses_covers in Hb. destruct Hb as [H3 Hc].
    split; [eauto using gsteps_trans|]. split; [|split].
    + intros f Hin. eapply has_node_kept; eauto.
    + intros c m Hcin Hm. eauto.
    + intros d Hd Hexp. eapply has_node_kept; [eauto|eauto using gsteps_trans].
  - intros sourceFile t t' (Hf & Hc & Hv) Hs. split; [|split].
    + intros f Hin. eapply has_node_kept; eauto.
    + intros c m Hcin Hm. eapply has_node_kept; eauto.
    + intros d Hd Hexp. eapply has_node_kept; eauto.
Qed.
End Coverage.

Lemma initialize_covers_the_declarations_witness :
  let g := built Tryaway.whole_file 4 in
  initialize Tryaway.whole_file 4 CodeFlowGraph_new = Ok g
  /\ In Tryaway.file (getSourceFiles Tryaway.whole_file)
  /\ exists n, registered Tryaway.method_bar n g.
Proof.
  intros g.
  assert (H : initialize Tryaway.whole_file 4 CodeFlowGraph_new = Ok g)
    by (vm_compute; reflexivity).
  assert (Hfile : In Tryaway.file (getSourceFiles Tryaway.whole_file))
    by (left; reflexivity).
  split; [exact H|]. split; [exact Hfile|].
  apply (proj1 (proj2 (@initialize_covers_the_declarations
                         Tryaway.whole_file 4 CodeFlowGraph_new g H
                         Tryaway.file Hfile)) Tryaway.class_Foo).
  - left. reflexivity.
  - left. reflexivity.
Defined.

(** ** A variable without initializer *)

Lemma forEach_never_Ok {A S : Type} (l : list A) (body : A -> S -> Result S)
  (x : A) :
  In x l -> (forall s s', body x s <> Ok s') ->
  forall s s', forEach l body s <> Ok s'.
Proof.
  intros Hin Hx. induction l as [|a l IH]; [contradiction|].
  simpl. intros s s' H. inv_bind H as s1 H1.
  destruct Hin as [->|Hin]; [now apply (Hx s s1)|now apply (IH Hin s1 s')].
Qed.

(** X13: a build does not return a graph when a variable statement of a
    source file declares an exported variable that has no initializer:
    [getInitializerOrThrow] comes before the registry is consulted. *)
Theorem missing_initializer_aborts sm fuel sourceFile d g0 g :
  In sourceFile (getSourceFiles sm) ->
  In d (declarations_of sm sourceFile) ->
  isExported sm d = true ->
  getInitializer sm d = None ->
  initialize sm fuel g0 <> Ok g.
Proof.
  intros Hfile Hd Hexp Hinit. unfold initialize.
  apply forEach_never_Ok with (x := sourceFile); [assumption|].
  intros s s' H. inv_bind H as s1 Hvars. clear H.
  revert Hvars. unfold processVariables, declarations_of in *.
  apply in_flat_map in Hd. destruct Hd as (variable & Hv & Hd).
  apply forEach_never_Ok with (x := variable); [assumption|].
  intros t t' H. inv_bind H as statement Hst.
  destruct (getVariableStatement sm variable) as [st|]; [|discriminate].
  injection Hst as ->. revert H.
  apply forEach_never_Ok with (x := d); [assumption|].
  intros u u' H. inv_bind H as [r u1] Hp.
  destruct fuel as [|fuel]; [discriminate|]. simpl in Hp.
  rewrite Hexp, Hinit in Hp. discriminate.
Qed.

Lemma missing_initializer_aborts_witness :
  let sm := without_initializers Tryaway.whole_file in
  In Tryaway.file (getSourceFiles sm)
  /\ In Tryaway.decl_double (declarations_of sm Tryaway.file)
  /\ isExported sm Tryaway.decl_double = true
  /\ getInitializer sm Tryaway.decl_double = None
  /\ initialize sm 4 CodeFlowGraph_new <> Ok CodeFlowGraph_new.
Proof.
  intros sm.
  assert (H1 : In Tryaway.file (getSourceFiles sm)) by (left; reflexivity).
  assert (H2 : In Tryaway.decl_double (declarations_of sm Tryaway.file))
    by (left; reflexivity).
  repeat (split; [assumption || reflexivity|]).
  exact (@missing_initializer_aborts sm 4 Tryaway.file Tryaway.decl_double
           CodeFlowGraph_new CodeFlowGraph_new H1 H2 eq_refl eq_refl).
Defined.

(** ** The document *)

Lemma nodeTypeToString_inj a b : nodeTypeToString a = nodeTypeToString b -> a = b.
Proof. destruct a, b; simpl; intros H; try reflexivity; discriminate. Qed.

Lemma edgeTypeToString_inj a b : edgeTypeToString a = edgeTypeToString b -> a = b.
Proof. destruct a, b; simpl; intros H; try reflexivity; discriminate. Qed.

Lemma tag_is_Argument t :
  String.eqb (edgeTypeToString t) "Argument" = EdgeType_eqb t ArgumentEdge.
Proof. destruct t; reflexivity. Qed.

(** X14: the type tags of the document tell the types apart: two node
    types with the same tag are the same, and so for edge types; the tag of
    an edge is ["Argument"] exactly for an [Argument] edge. *)
Theorem type_tags_tell_types_apart :
  (forall a b, nodeTypeToString a = nodeTypeToString b -> a = b)
  /\ (forall a b, edgeTypeToString a = edgeTypeToString b -> a = b)
  /\ (forall t, String.eqb (edgeTypeToString t) "Argument"
                = EdgeType_eqb t ArgumentEdge).
Proof.
  split; [exact nodeTypeToString_inj|]. split; [exact edgeTypeToString_inj|].
  exact tag_is_Argument.
Qed.

Lemma type_tags_tell_types_apart_witness :
  nodeTypeToString Call = nodeTypeToString Call /\ Call = Call.
Proof.
  split; [reflexivity|].
  apply (proj1 type_tags_tell_types_apart). reflexivity.
Defined.

Lemma filter_twice {A : Type} (p q : A -> bool) (l : list A) :
  filter p (filter q l) = filter (fun x => q x && p x) l.
Proof.
  induction l as [|x l IH]; simpl; [reflexivity|].
  destruct (q x); simpl; [destruct (p x)|]; now rewrite IH.
Qed.

Lemma edges_json_filter (p : EdgeInfo -> bool) (q : EdgeJSON -> bool) g :
  (forall e,
     q {| json_edge_id := edge_id e;
          json_edge_type := edgeTypeToString (edge_type e);
          json_source_node_id := edge_source e;
          json_destination_node_id := edge_destination e;
          json_label := "" |} = p e) ->
  map json_edge_id (filter q (edgesToJSON g))
  = map edge_id (filter p (map snd (edges g))).
Proof.
  intros Hq. unfold edgesToJSON.
  induction (edges g) as [|[k e] l IH]; simpl; [reflexivity|].
  rewrite Hq. destruct (p e); simpl; now rewrite IH.
Qed.

(** X15: the edges of the document of a graph met in a build have the
    ids 0, 1, ... in this order, and the source and destination ids of
    each are ids of nodes of the graph. *)
Theorem edges_document_ids sm g :
  reachable sm g ->
  map json_edge_id (edgesToJSON g) = seq 0 (NEXT_EDGE_ID g)
  /\ forall j,
       In j (edgesToJSON g) ->
       json_source_node_id j < NEXT_NODE_ID g
       /\ json_destination_node_id j < NEXT_NODE_ID g.
Proof.
  intros H. apply reachable_well_formed in H.
  destruct H as (_ & [Hkeys Hid] & _ & _ & _ & Hv & _). split.
  - rewrite <- Hkeys. unfold edgesToJSON. rewrite map_map.
    apply map_ext_in. intros [k e] Hin. simpl. now apply Hid.
  - intros j Hj. unfold edgesToJSON in Hj. apply in_map_iff in Hj.
    destruct Hj as ([k e] & <- & Hin). simpl. now apply Hv in Hin.
Qed.

Lemma edges_document_ids_witness :
  reachable Tryaway.whole_file (built Tryaway.whole_file 4)
  /\ map json_edge_id (edgesToJSON (built Tryaway.whole_file 4))
     = seq 0 (NEXT_EDGE_ID (built Tryaway.whole_file 4)).
Proof.
  split; [apply built_reachable|].
  apply (edges_document_ids (built_reachable Tryaway.whole_file 4)).
Defined.

Lemma filterOutgoing_eq type l l' :
  filterOutgoing type l = Ok l' ->
  l' = filter (fun e => negb (EdgeType_eqb (edge_type e) ArgumentEdge)) l.
Proof.
  revert l'. induction l as [|e l IH]; simpl; intros l' H.
  - now injection H as <-.
  - destruct (EdgeType_eqb (edge_type e) ArgumentEdge && negb (NodeType_eqb type Call));
      [discriminate|].
    inv_bind H as rest Hrest. injection H as <-.
    rewrite (IH _ Hrest). reflexivity.
Qed.

Section Document.
Variable sm : SourceModel.

Lemma nodeToJSON_fields n j :
  nodeToJSON sm n = Ok j ->
  json_id j = node_id n
  /\ json_class j = nodeTypeToString (node_type n)
  /\ json_incoming j = map edge_id (incoming n)
  /\ json_outgoing j
     = map edge_id
         (filter (fun e => negb (EdgeType_eqb (edge_type e) ArgumentEdge))
            (outgoing n))
  /\ (node_type n = Call ->
      json_node_data j
      = DataArgs
          (map edge_id
             (filter (fun e => EdgeType_eqb (edge_type e) ArgumentEdge)
                (outgoing n)))).
Proof.
  unfold nodeToJSON. intros H. inv_bind H as nodeData Hdata.
  inv_bind H as out Hout. injection H as <-. simpl.
  apply filterOutgoing_eq in Hout. subst out.
  repeat split. intros Hcall. rewrite Hcall in Hdata. now injection Hdata as <-.
Qed.

Lemma nodesToJSON_loop_each entries l :
  nodesToJSON_loop sm entries = Ok l ->
  map json_id l = map (fun '(_, n) => node_id n) entries
  /\ forall j, In j l ->
       exists k n, In (k, n) entries /\ nodeToJSON sm n = Ok j.
Proof.
  revert l. induction entries as [|[k n] entries IH]; simpl; intros l H.
  - injection H as <-. split; [reflexivity|contradiction].
  - inv_bind H as j Hj. inv_bind H as rest Hrest. injection H as <-.
    destruct (IH _ Hrest) as [Hids Hall]. split.
    + simpl. rewrite Hids.
      now rewrite (proj1 (nodeToJSON_fields _ Hj)).
    + intros j' [<-|Hin]; [eauto|].
      destruct (Hall _ Hin) as (k' & n' & ? & ?). eauto 6.
Qed.

(** X16: in the document of a graph met in a build the nodes have the
    ids 0, 1, ... in this order; the [incoming] list of a node is the list
    of the ids of the document's edges whose destination it is, its
    [outgoing] list that of the edges that leave it and are not tagged
    ["Argument"], and the [args] of a node of class ["Call"] that of the
    edges that leave it and are tagged ["Argument"]. *)
Theorem nodes_document_agrees_with_edges g l :
  reachable sm g ->
  nodesToJSON sm g = Ok l ->
  map json_id l = seq 0 (NEXT_NODE_ID g)
  /\ forall j,
       In j l ->
       json_incoming j
       = map json_edge_id
           (filter (fun ej => Nat.eqb (json_destination_node_id ej) (json_id j))
              (edgesToJSON g))
       /\ json_outgoing j
          = map json_edge_id
              (filter (fun ej =>
                         Nat.eqb (json_source_node_id ej) (json_id j)
                         && negb (String.eqb (json_edge_type ej) "Argument"))
                 (edgesToJSON g))
       /\ (json_class j = "Call"%string ->
           json_node_data j
           = DataArgs
               (map json_edge_id
                  (filter (fun ej =>
                             Nat.eqb (json_source_node_id ej) (json_id j)
                             && String.eqb (json_edge_type ej) "Argument")
                     (edgesToJSON g)))).
Proof.
  intros Hg H. apply reachable_well_formed in Hg.
  destruct Hg as (Hn & _ & _ & _ & Ha & _).
  pose proof Hn as [Hkeys Hid].
  unfold nodesToJSON in H. apply nodesToJSON_loop_each in H.
  destruct H as [Hids Hall]. split.
  - rewrite Hids, <- Hkeys. apply map_ext_in. intros [k n] Hin. now apply Hid.
  - intros j Hj. destruct (Hall j Hj) as (k & n & Hin & Hjson).
    apply nodeToJSON_fields in Hjson.
    destruct Hjson as (Hjid & Hclass & Hinc & Hout & Hargs).
    pose proof (Hid _ _ Hin) as Hk. rewrite Hjid, Hk.
    assert (Hget : map_get k (nodes g) = Some n)
      by (apply In_map_get; [now apply node_keys_NoDup|assumption]).
    assert (Hlt : k < NEXT_NODE_ID g).
    { destruct (Nat.lt_ge_cases k (NEXT_NODE_ID g)) as [?|Hge]; [assumption|].
      apply (@map_get_seq _ _ _ _ Hkeys) in Hge. congruence. }
    destruct (Ha k Hlt) as [Ho Hi]. unfold outgoing_of, incoming_of in Ho, Hi.
    rewrite Hget in Ho, Hi.
    split; [|split].
    + rewrite Hinc, Hi. symmetry. now apply edges_json_filter.
    + rewrite Hout, Ho, filter_twice. symmetry. apply edges_json_filter.
      intros e. simpl.
      now rewrite tag_is_Argument.
    + intros Hcall. rewrite Hclass in Hcall.
      apply (nodeTypeToString_inj _ Call) in Hcall.
      rewrite (Hargs Hcall), Ho, filter_twice. symmetry. f_equal.
      apply edges_json_filter. intros e. simpl.
      now rewrite tag_is_Argument.
Qed.
End Document.

Lemma nodes_document_agrees_with_edges_witness :
  let g := built Tryaway.whole_file 4 in
  let l := match nodesToJSON Tryaway.whole_file g with
           | Ok l => l
           | _ => []
           end in
  reachable Tryaway.whole_file g
  /\ nodesToJSON Tryaway.whole_file g = Ok l
  /\ map json_id l = seq 0 (NEXT_NODE_ID g).
Proof.
  intros g l.
  assert (H : nodesToJSON Tryaway.whole_file g = Ok l)
    by (vm_compute; reflexivity).
  split; [apply built_reachable|]. split; [exact H|].
  exact (proj1 (@nodes_document_agrees_with_edges Tryaway.whole_file g l
                  (built_reachable Tryaway.whole_file 4) H)).
Defined.

Section Symbols.
Variable sm : SourceModel.

Lemma nodeToJSON_result n :
  (forall e, In e (outgoing n) -> edge_type e = ArgumentEdge -> node_type n = Call) ->
  (nodeToJSON sm n = Throw StructuralError
   /\ (node_type n = Function \/ node_type n = Object)
   /\ getSymbolName sm (node_node n) = None)
  \/ ((exists j, nodeToJSON sm n = Ok j)
      /\ (node_type n = Function \/ node_type n = Object ->
          getSymbolName sm (node_node n) <> None)).
Proof.
  intros Hout. unfold nodeToJSON.
  destruct (@filterOutgoing_Ok (node_type n) (outgoing n) Hout) as [out ->].
  destruct (node_type n) eqn:Ety; simpl;
    try (right; split; [eauto|intros [?|?]; discriminate]).
  - destruct (getSymbolName sm (node_node n)) as [name|]; simpl.
    + right. split; [eauto|discriminate].
    + left. auto.
  - destruct (getSymbolName sm (node_node n)) as [name|]; simpl.
    + right. split; [eauto|discriminate].
    + left. auto.
Qed.

Lemma nodesToJSON_loop_result entries :
  (forall k n e,
     In (k, n) entries -> In e (outgoing n) ->
     edge_type e = ArgumentEdge -> node_type n = Call) ->
  (nodesToJSON_loop sm entries = Throw StructuralError
   /\ exists k n,
        In (k, n) entries
        /\ (node_type n = Function \/ node_type n = Object)
        /\ getSymbolName sm (node_node n) = None)
  \/ ((exists l, nodesToJSON_loop sm entries = Ok l)
      /\ forall k n,
           In (k, n) entries ->
           node_type n = Function \/ node_type n = Object ->
           getSymbolName sm (node_node n) <> None).
Proof.
  induction entries as [|[k n] entries IH]; simpl; intros Hout.
  - right. split; [eauto|contradiction].
  - destruct (nodeToJSON_result n) as [(-> & Hty & Hsym)|([j ->] & Hsym)].
    { intros e. apply (Hout k n e). now left. }
    + left. split; [reflexivity|]. exists k, n. auto.
    + simpl. destruct IH as [(-> & k' & n' & Hin & Hbad)|([l ->] & Hall)].
      { intros k' n' e Hin. apply (Hout k' n' e). now right. }
      * left. split; [reflexivity|]. exists k', n'. auto.
      * right. split; [simpl; eauto|].
        intros k' n' [[= <- <-]|Hin]; [assumption|eauto].
Qed.

(** X17: on a graph met in a build [nodesToJSON] returns the nodes of the
    document exactly when the construct of every node of type [Function]
    or [Object] has a symbol; otherwise it throws for the missing symbol,
    and for nothing else. *)
Theorem nodesToJSON_returns_iff_symbols g :
  reachable sm g ->
  ((exists l, nodesToJSON sm g = Ok l) <->
   (forall k n,
      map_get k (nodes g) = Some n ->
      node_type n = Function \/ node_type n = Object ->
      getSymbolName sm (node_node n) <> None))
  /\ ((exists l, nodesToJSON sm g = Ok l)
      \/ nodesToJSON sm g = Throw StructuralError).
Proof.
  intros Hg.
  assert (Hout : argument_edges_ok g).
  { apply builds_gsteps in Hg.
    eapply gsteps_argument_edges_ok; [exact Hg|apply argument_edges_ok_new]. }
  destruct Hout as [Hout _]. unfold nodesToJSON.
  destruct (nodesToJSON_loop_result (nodes g) Hout)
    as [(E & k & n & Hin & Hty & Hsym)|(Hok & Hall)].
  - split; [|now right]. rewrite E. split.
    + intros [l Hl]. discriminate.
    + intros Hall. exfalso.
      apply reachable_well_formed in Hg. destruct Hg as (Hn & _).
      apply (Hall k n); [|assumption|assumption].
      apply In_map_get; [now apply node_keys_NoDup|assumption].
  - split; [|now left]. split; [|intros _; exact Hok].
    intros _ k n Hget. apply (Hall k n). now apply map_get_In.
Qed.
End Symbols.

Lemma nodesToJSON_returns_iff_symbols_witness :
  reachable Tryaway.whole_file (built Tryaway.whole_file 4)
  /\ ((exists l, nodesToJSON Tryaway.whole_file (built Tryaway.whole_file 4) = Ok l)
      \/ nodesToJSON Tryaway.whole_file (built Tryaway.whole_file 4)
         = Throw StructuralError).
Proof.
  split; [apply built_reachable|].
  apply (@nodesToJSON_returns_iff_symbols Tryaway.whole_file
           (built Tryaway.whole_file 4) (built_reachable Tryaway.whole_file 4)).
Defined.

(** ** Where a [TypeError] comes from *)

Lemma no_type_error_bind {A B : Type} (m : Result A) (k : A -> Result B) :
  no_type_error m -> (forall a, m = Ok a -> no_type_error (k a)) ->
  no_type_error (bind m k).
Proof.
  unfold no_type_error. intros Hm Hk.
  destruct m as [a|e|]; simpl; [now apply Hk| |discriminate].
  intros [= ->]. now apply Hm.
Qed.

Lemma no_type_error_forEach {A S : Type} (l : list A) (body : A -> S -> Result S) :
  (forall x s, In x l -> no_type_error (body x s)) ->
  forall s, no_type_error (forEach l body s).
Proof.
  induction l as [|x l IH]; simpl; intros Hb s; [discriminate|].
  apply no_type_error_bind; [apply Hb; now left|].
  intros s' _. apply IH. intros y t Hy. apply Hb. now right.
Qed.

Lemma no_type_error_spliceOutgoing fuel : forall i source definitionInfo g,
  no_type_error (spliceOutgoing fuel i source definitionInfo g).
Proof.
  induction fuel as [|fuel IH]; intros i source d g; [discriminate|].
  rewrite spliceOutgoing_S.
  destruct (nth_error (outgoing_of d g) i); [apply IH|discriminate].
Qed.

Section TypeErrors.
Variable sm : SourceModel.
Hypothesis Hexported :
  forall call d,
    In d (definitions sm call) -> getKind sm d = VariableDeclaration ->
    isExported sm d = true.
Hypothesis Hbody :
  forall d init,
    getInitializer sm d = Some init ->
    SyntaxKind_eqb (getKind sm init) ArrowFunction
    || SyntaxKind_eqb (getKind sm init) FunctionExpression = true ->
    getBody sm init <> None.

Lemma no_type_error_linkCalls fuel type source calls s :
  (forall c g, no_type_error (processCallExpression sm fuel c g)) ->
  no_type_error
    (forEach calls
       (fun call g =>
          '(callInfo, g) <- processCallExpression sm fuel call g ;;
          Ok (addEdge source callInfo type g)) s).
Proof.
  intros IH. apply no_type_error_forEach. intros call t _.
  apply no_type_error_bind; [apply IH|]. intros [callInfo g] _. discriminate.
Qed.

Lemma process_no_type_error fuel :
  (forall c g, no_type_error (processCallExpression sm fuel c g))
  /\ (forall d g,
        (getKind sm d = VariableDeclaration -> isExported sm d = true) ->
        no_type_error (processDefinition sm fuel d g)
        /\ forall g', processDefinition sm fuel d g <> Ok (None, g'))
  /\ (forall d e g, no_type_error (processVariableDeclaration sm fuel d e g))
  /\ (forall f g, no_type_error (processFunctionDeclaration sm fuel f g))
  /\ (forall a g, no_type_error (processArgument sm fuel a g)).
Proof.
  induction fuel as [|fuel (IHcall & IHdef & IHvar & IHfun & IHarg)].
  { repeat split; discriminate. }
  split; [|split; [|split; [|split]]].
  - intros c g. simpl.
    destruct (addNodeIsNew c Call g) as [[source isNew] g1].
    destruct isNew; simpl; [|discriminate].
    apply no_type_error_bind.
    + destruct (SyntaxKind_eqb (getKind sm (getExpression sm c)) Identifier) eqn:Hk;
        [|discriminate].
      apply no_type_error_forEach. intros d s Hd.
      assert (Hd' : getKind sm d = VariableDeclaration -> isExported sm d = true).
      { apply (Hexported c). unfold definitions. now rewrite Hk. }
      destruct (IHdef d s Hd') as [Hnte Hsome].
      apply no_type_error_bind; [assumption|].
      intros [[definitionInfo|] s1] Hr.
      * apply no_type_error_spliceOutgoing.
      * now apply Hsome in Hr.
    + intros g2 _. apply no_type_error_bind; [|discriminate].
      apply no_type_error_forEach. intros a s _.
      apply no_type_error_bind; [apply IHarg|]. intros [argInfo t] _. discriminate.
  - intros d g Hd. simpl.
    destruct (SyntaxKind_eqb (getKind sm d) VariableDeclaration) eqn:Ev.
    { apply SyntaxKind_eqb_eq in Ev. split; [apply IHvar|].
      intros g' H. apply processVariableDeclaration_result in H.
      destruct H as [(Hguard & _)|(_ & init & n & _ & [=])].
      rewrite (Hd Ev) in Hguard. discriminate. }
    destruct (SyntaxKind_eqb (getKind sm d) FunctionDeclaration).
    { split.
      - apply no_type_error_bind; [apply IHfun|]. intros [source t] _. discriminate.
      - intros g' H. inv_bind H as [source t] Hf. discriminate. }
    destruct (addNode d Any g) as [source t]. split; discriminate.
  - intros d e g. simpl.
    destruct (e && negb (isExported sm d)); [discriminate|].
    destruct (getInitializer sm d) as [init|] eqn:Hinit; simpl; [|discriminate].
    destruct (addNodeIsNew d _ g) as [[source isNew] g1].
    destruct isNew; simpl; [|discriminate].
    destruct (SyntaxKind_eqb (getKind sm init) ArrowFunction
              || SyntaxKind_eqb (getKind sm init) FunctionExpression) eqn:Hfl.
    + pose proof (Hbody d Hinit Hfl) as Hb.
      destruct (getBody sm init) as [body|]; [|congruence].
      apply no_type_error_bind; [now apply no_type_error_linkCalls|discriminate].
    + apply no_type_error_bind; [|discriminate].
      apply no_type_error_forEach. intros ref s _.
      apply no_type_error_forEach. intros reference t _.
      destruct (getParent sm reference) as [temp|]; simpl; [|discriminate].
      destruct (getParent sm temp) as [call|]; simpl; [|discriminate].
      destruct (_ && _); [|discriminate].
      apply no_type_error_bind; [apply IHcall|]. intros [callInfo u] _. discriminate.
  - intros f g. simpl.
    destruct (addNodeIsNew f Function g) as [[source isNew] g1].
    destruct isNew; simpl; [|discriminate].
    destruct (getBody sm f) as [body|]; simpl; [|discriminate].
    apply no_type_error_bind; [now apply no_type_error_linkCalls|discriminate].
  - intros a g. simpl.
    destruct (addNodeIsNew a Argument g) as [[source isNew] g1].
    destruct isNew; simpl; [|discriminate].
    apply no_type_error_bind; [now apply no_type_error_linkCalls|discriminate].
Qed.

Lemma no_type_error_processMethodDeclaration fuel m g :
  no_type_error (processMethodDeclaration sm fuel m g).
Proof.
  destruct fuel as [|fuel]; [discriminate|]. simpl.
  destruct (addNodeIsNew m Function g) as [[source isNew] g1].
  destruct isNew; simpl; [|discriminate].
  destruct (getBody sm m) as [body|]; simpl; [|discriminate].
  apply no_type_error_bind; [|discriminate].
  apply no_type_error_linkCalls. apply process_no_type_error.
Qed.

Lemma initialize_no_type_error fuel g :
  no_type_error (initialize sm fuel g).
Proof.
  destruct (process_no_type_error fuel) as (_ & _ & Hvar & Hfun & _).
  unfold initialize. apply no_type_error_forEach. intros sourceFile s _.
  apply no_type_error_bind; [|intros s1 _; apply no_type_error_bind].
  - unfold processVariables. apply no_type_error_forEach. intros variable t _.
    apply no_type_error_bind;
      [destruct (getVariableStatement sm variable); discriminate|].
    intros statement _. apply no_type_error_forEach. intros d u _.
    apply no_type_error_bind; [apply Hvar|]. intros [r v] _. discriminate.
  - unfold processFunctions. apply no_type_error_forEach. intros f t _.
    apply no_type_error_bind; [apply Hfun|]. intros [r v] _. discriminate.
  - intros s2 _. unfold processClasses, processClass.
    apply no_type_error_forEach. intros c t _.
    apply no_type_error_forEach. intros m u _.
    apply no_type_error_bind; [apply no_type_error_processMethodDeclaration|].
    intros [r v] _. discriminate.
Qed.
End TypeErrors.

(** X18: a build throws a [TypeError] for one reason only: when
    every variable declaration among the definition nodes of a bare
    identifier callee is exported, and every initializer that is an arrow
    function or a function expression has a body, neither [initialize]
    nor any call processing throws a [TypeError], on any graph. *)
Theorem type_error_only_from_unexported_definition sm :
  (forall call d,
     In d (definitions sm call) -> getKind sm d = VariableDeclaration ->
     isExported sm d = true) ->
  (forall d init,
     getInitializer sm d = Some init ->
     SyntaxKind_eqb (getKind sm init) ArrowFunction
     || SyntaxKind_eqb (getKind sm init) FunctionExpression = true ->
     getBody sm init <> None) ->
  forall fuel g,
    initialize sm fuel g <> Throw TypeError
    /\ forall call, processCallExpression sm fuel call g <> Throw TypeError.
Proof.
  intros Hexported Hbody fuel g. split.
  - now apply initialize_no_type_error.
  - intros call.
    now apply (proj1 (@process_no_type_error sm Hexported Hbody fuel)).
Qed.

Lemma type_error_only_from_unexported_definition_witness :
  let sm := Tryaway.whole_file in
  (forall call d,
     In d (definitions sm call) -> getKind sm d = VariableDeclaration ->
     isExported sm d = true)
  /\ (forall d init,
        getInitializer sm d = Some init ->
        SyntaxKind_eqb (getKind sm init) ArrowFunction
        || SyntaxKind_eqb (getKind sm init) FunctionExpression = true ->
        getBody sm init <> None)
  /\ initialize sm 4 CodeFlowGraph_new <> Throw TypeError.
Proof.
  intros sm.
  assert (H1 : forall call d,
            In d (definitions sm call) -> getKind sm d = VariableDeclaration ->
            isExported sm d = true).
  { intros call d _ Hk. unfold sm in *.
    do 26 (destruct d as [|d]; [first [discriminate Hk|reflexivity]|]).
    discriminate Hk. }
  assert (H2 : forall d init,
            getInitializer sm d = Some init ->
            SyntaxKind_eqb (getKind sm init) ArrowFunction
            || SyntaxKind_eqb (getKind sm init) FunctionExpression = true ->
            getBody sm init <> None).
  { intros d init Hinit Hfl. unfold sm in *.
    do 26 (destruct d as [|d];
           [first [discriminate Hinit
                  |injection Hinit as <-; first [discriminate Hfl|discriminate]]|]).
    discriminate Hinit. }
  split; [exact H1|]. split; [exact H2|].
  exact (proj1 (@type_error_only_from_unexported_definition sm H1 H2 4
                  CodeFlowGraph_new)).
Defined.
